(** * mirai: Promise / Future combinators over a heap of resolution cells

    A shallow embedding of [mirai/futures.py].  A Promise owns a
    [concurrent.futures.Future] (its state and its list of done-callbacks) and
    a non-reentrant [threading.Lock]; the Python closures that the library
    registers as callbacks are kept as data (one constructor per closure of
    the source, carrying the variables it captures) and run by a
    depth-indexed interpreter. *)

From Stdlib Require Import ZArith String.
From stdpp Require Import base list.
Import ListNotations.
#[local] Set Warnings "-register-all".
Open Scope string_scope.
Open Scope nat_scope.
Open Scope list_scope.
Open Scope stdpp_scope.

(** ** Objects and values *)

(** [Promise] and its read-only subclass [Future]. *)
Inductive klass := PromiseC | FutureC.

(** A Python object of one of the two classes: its identity, the resolution
    cell it reads, and its class.  [Promise()] makes a new cell; a [Future]
    is bound to the cell of the promise it was built from. *)
Record obj := Obj { oid : nat; ocell : nat; oclass : klass }.

(** [g != f] on objects that define no comparison: identity. *)
Definition obj_ne (g f : obj) : bool := negb (Nat.eqb (oid g) (oid f)).

Inductive val :=
| VNone
| VBool (b : bool)
| VInt (z : Z)
| VStr (s : string)
| VTuple (l : list val)
| VList (l : list val)      (* a list that nobody mutates after it is built *)
| VListRef (l : nat)        (* a list object of the store, shared by reference *)
| VObj (o : obj).

(** The text of an exception; ["...{}...".format(v)] is kept as the format
    string and its argument. *)
Inductive message := Lit (s : string) | Format (fmt : string) (arg : val).

Inductive exc :=
| AlreadyResolvedError (m : message)
| MiraiError (m : message)
| TimeoutError (m : message)
| ValueError (m : message)
| AttributeError (m : message)
| TypeError (m : message)
| IndexError (m : message)
| AssertionError
| ClientError (tag : string).

(** A function handed in by the caller: pure, it returns or raises.  Its
    applications are logged under its name. *)
Inductive res := Ok (v : val) | Err (e : exc).
Record clientfn := ClientFn { fname : string; fbody : val → res }.

(** ** Closures of the source *)

(** Callables applied to a value: what [onsuccess] receives. *)
Inductive vfun :=
| BoundSetvalue (other : obj)          (* [other.setvalue], in [proxyto] *)
| UieSetvalue (self : obj)             (* the local [setvalue] of [updateifempty] *)
| CollectOnsuccess (xs count : nat) (i : nat) (p : obj).
                                       (* [onsuccess] of [collect]'s [body(i)] *)

(** Callables applied to an exception: what [onfailure] receives. *)
Inductive efun :=
| BoundSetexception (other : obj)      (* [other.setexception], in [proxyto] *)
| UieSetexception (self : obj)         (* the local [setexception] of [updateifempty] *)
| CollectOnfailure (p : obj).          (* [onfailure] of [collect]'s [body(i)] *)

(** Callables applied to a value that return a promise: what [flatmap]
    receives. *)
Inductive kfun :=
| MapLam (fn : clientfn)               (* [lambda v: Promise.value(fn(v))] *)
| FilterLam (fn : clientfn)            (* the lambda of [filter] *)
| WithinLam (e : exc)                  (* [lambda v: Promise.exception(e)] *)
| OrLam.                               (* [lambda (fut, futs): fut] *)

(** Callables applied to the resolved promise that return a promise: what
    [transform] receives. *)
Inductive tfun :=
| FlatmapTransform (fn : kfun).        (* the local [transform] of [flatmap] *)

(** Callables applied to the resolved promise: what [respond] receives. *)
Inductive responder :=
| OnsuccessRespond (fn : vfun)         (* the local [respond] of [onsuccess] *)
| OnfailureRespond (fn : efun)         (* the local [respond] of [onfailure] *)
| TransformRespond (p : obj) (fn : tfun)  (* the local [respond] of [transform] *)
| SelectLam (p : obj) (f : obj) (fs : list obj).
                                       (* the lambda of [select]'s [body(f)] *)

(** ** The heap *)

Inductive rstate := Pending | Success (v : val) | Failure (e : exc).

Definition defined (s : rstate) : bool :=
  match s with Pending => false | _ => true end.

(** One promise: the state and done-callbacks of its [_future], and whether
    its [_lock] is held.  A done-callback is [respond]'s [done_callback],
    which captures [fn] and [self]. *)
Record pcell := PCell {
  st : rstate;
  cbs : list (responder * obj);
  lck : bool
}.

Record heap := Heap {
  cells : list pcell;
  lists : list (list val);          (* list objects: [xs] of [collect] *)
  boxes : list Z;                   (* boxed counters: [count] of [collect] *)
  next_oid : nat;                   (* next object identity *)
  calls : list (string * val);      (* client functions applied so far *)
  pool : list (nat * nat);          (* sleeping executor tasks: cell, wake-up time *)
  now : nat                         (* the clock *)
}.

Definition empty_heap : heap := Heap [] [] [] 0 [] [] 0.

Definition with_cells (f : list pcell → list pcell) (h : heap) : heap :=
  Heap (f (cells h)) (lists h) (boxes h) (next_oid h) (calls h) (pool h) (now h).
Definition with_lists (f : list (list val) → list (list val)) (h : heap) : heap :=
  Heap (cells h) (f (lists h)) (boxes h) (next_oid h) (calls h) (pool h) (now h).
Definition with_boxes (f : list Z → list Z) (h : heap) : heap :=
  Heap (cells h) (lists h) (f (boxes h)) (next_oid h) (calls h) (pool h) (now h).
Definition with_next_oid (f : nat → nat) (h : heap) : heap :=
  Heap (cells h) (lists h) (boxes h) (f (next_oid h)) (calls h) (pool h) (now h).
Definition with_calls (f : list (string * val) → list (string * val)) (h : heap) : heap :=
  Heap (cells h) (lists h) (boxes h) (next_oid h) (f (calls h)) (pool h) (now h).
Definition with_pool (f : list (nat * nat) → list (nat * nat)) (h : heap) : heap :=
  Heap (cells h) (lists h) (boxes h) (next_oid h) (calls h) (f (pool h)) (now h).
Definition with_now (f : nat → nat) (h : heap) : heap :=
  Heap (cells h) (lists h) (boxes h) (next_oid h) (calls h) (pool h) (f (now h)).

Definition set_st (s : rstate) (pc : pcell) : pcell := PCell s (cbs pc) (lck pc).
Definition add_cb (cb : responder * obj) (pc : pcell) : pcell :=
  PCell (st pc) (cbs pc ++ [cb]) (lck pc).
Definition set_lck (b : bool) (pc : pcell) : pcell := PCell (st pc) (cbs pc) b.

Definition state_of (h : heap) (c : nat) : option rstate := st <$> cells h !! c.

(** ** Outcomes *)

(** Why a call never comes back. *)
Inductive stop :=
| Deadlock      (* acquiring a [threading.Lock] the same thread holds *)
| Blocked       (* [get()] without timeout on a pending promise *)
| Dangling      (* a cell, list or box that is not in the heap *)
| OutOfFuel.    (* the interpreter's depth bound was reached *)

Inductive outcome (A : Type) :=
| Ret (a : A) (h : heap)         (* normal return *)
| Raise (e : exc) (h : heap)     (* an [Exception] propagates *)
| Exit (h : heap)                (* [SystemExit] from [sys.exit(1)] propagates *)
| Stop (s : stop).
Arguments Ret {A} a h.
Arguments Raise {A} e h.
Arguments Exit {A} h.
Arguments Stop {A} s.

Definition M (A : Type) : Type := heap → outcome A.

Definition ret {A} (a : A) : M A := λ h, Ret a h.
Definition raise {A} (e : exc) : M A := λ h, Raise e h.
Definition bind {A B} (m : M A) (k : A → M B) : M B :=
  λ h, match m h with
       | Ret a h' => k a h'
       | Raise e h' => Raise e h'
       | Exit h' => Exit h'
       | Stop s => Stop s
       end.
(** [try: m  except Exception as e: handler(e)] *)
Definition try {A} (m : M A) (handler : exc → M A) : M A :=
  λ h, match m h with
       | Raise e h' => handler e h'
       | o => o
       end.
(** Leaving a [with] block runs [f] on the heap however the block ends. *)
Definition finally {A} (m : M A) (f : heap → heap) : M A :=
  λ h, match m h with
       | Ret a h' => Ret a (f h')
       | Raise e h' => Raise e (f h')
       | Exit h' => Exit (f h')
       | Stop s => Stop s
       end.

Notation "x <~ m ; k" := (bind m (λ x, k))
  (at level 20, m at level 100, k at level 200, only parsing).
Notation "m ;; k" := (bind m (λ _, k))
  (at level 100, k at level 200, right associativity, only parsing).

(** The heap an outcome leaves behind, when the call comes back at all. *)
Definition heap_of {A} (o : outcome A) : option heap :=
  match o with
  | Ret _ h | Raise _ h | Exit h => Some h
  | Stop _ => None
  end.

(** ** Store primitives *)

Definition alter_cell (c : nat) (f : pcell → pcell) : heap → heap :=
  with_cells (alter f c).

(** [futures.Future()]: a new pending cell without callbacks. *)
Definition Future_init : M nat :=
  λ h, Ret (length (cells h)) (with_cells (λ l, l ++ [PCell Pending [] false]) h).

Definition new_oid : M nat := λ h, Ret (next_oid h) (with_next_oid S h).

(** [[x] * n] and [[n]]: a new list object, a new boxed number. *)
Definition new_list (l : list val) : M nat :=
  λ h, Ret (length (lists h)) (with_lists (λ ls, ls ++ [l]) h).
Definition new_box (z : Z) : M nat :=
  λ h, Ret (length (boxes h)) (with_boxes (λ bs, bs ++ [z]) h).

(** [xs[i] = x] *)
Definition list_setitem (xs i : nat) (x : val) : M unit :=
  λ h, match lists h !! xs with
       | None => Stop Dangling
       | Some l =>
           if i <? length l
           then Ret tt (with_lists (alter (λ l, <[i:=x]> l) xs) h)
           else Raise (IndexError (Lit "list assignment index out of range")) h
       end.

(** [count[0] -= 1] and [count[0]] *)
Definition box_decr (count : nat) : M unit :=
  λ h, match boxes h !! count with
       | None => Stop Dangling
       | Some _ => Ret tt (with_boxes (alter (λ z, z - 1)%Z count) h)
       end.
Definition box_get (count : nat) : M Z :=
  λ h, match boxes h !! count with
       | None => Stop Dangling
       | Some z => Ret z h
       end.

(** The caller's [fn(v)], logged. *)
Definition apply_client (fn : clientfn) (v : val) : M val :=
  λ h, let h' := with_calls (λ l, l ++ [(fname fn, v)]) h in
       match fbody fn v with
       | Ok r => Ret r h'
       | Err e => Raise e h'
       end.

(** Python's truth value of an object, given the list objects of the store. *)
Definition truthy (ls : list (list val)) (v : val) : bool :=
  match v with
  | VNone => false
  | VBool b => b
  | VInt z => negb (z =? 0)%Z
  | VStr s => negb (String.eqb s "")
  | VTuple l | VList l => match l with [] => false | _ => true end
  | VListRef r => match ls !! r with Some [] => false | _ => true end
  | VObj _ => true
  end.

(** [done()] of the cell's [concurrent.futures.Future]. *)
Definition done (c : nat) (h : heap) : bool :=
  match cells h !! c with
  | Some pc => defined (st pc)
  | None => false
  end.

(** ** class Future(Promise): the two overridden methods *)

Module Future.

Definition setvalue (self : obj) (val : val) : M obj :=
  raise (AttributeError (Lit "Futures are read only; Promises are writable")).

Definition setexception (self : obj) (e : exc) : M obj :=
  raise (AttributeError (Lit "Futures are read only; Promises are writable")).

End Future.

(** ** class Promise *)

Module Promise.

Section Methods.

(** [fn(self)] for a callable handed to [respond]; the interpreter [run]
  below ties the knot. *)
Variable fire : responder → obj → M unit.

(** *** done-callbacks of [concurrent.futures.Future] *)

(** [done_callback] of [respond]: an exception of [fn(self)] ends in
  [sys.exit(1)]. *)
Definition done_callback (cb : responder * obj) : M unit :=
λ h, match fire cb.1 cb.2 h with
     | Raise e h' => Exit h'
     | o => o
     end.

(** [_invoke_callbacks]: every callback in registration order; an
  [Exception] of one is logged and the loop goes on. *)
Fixpoint invoke_callbacks (l : list (responder * obj)) : M unit :=
match l with
| [] => ret tt
| cb :: l' =>
    λ h, match done_callback cb h with
         | Ret _ h' => invoke_callbacks l' h'
         | Raise _ h' => invoke_callbacks l' h'
         | o => o
         end
end.

(** [set_result] / [set_exception]: store the outcome, then run the
  callbacks on the calling thread. *)
Definition set_state (c : nat) (s : rstate) : M unit :=
λ h, match cells h !! c with
     | None => Stop Dangling
     | Some pc => invoke_callbacks (cbs pc) (alter_cell c (set_st s) h)
     end.

(** [add_done_callback]: appended while pending, called at once when done. *)
Definition add_done_callback (c : nat) (cb : responder * obj) : M unit :=
λ h, match cells h !! c with
     | None => Stop Dangling
     | Some pc =>
         if defined (st pc) then done_callback cb h
         else Ret tt (alter_cell c (add_cb cb) h)
     end.

(** *** construction *)

(** [Promise()] *)
Definition init : M obj :=
c <~ Future_init ; i <~ new_oid ; ret (Obj i c PromiseC).

(** Modelled from the spec: [utils.proxyto], which [Future.__init__] calls,
  is not among the sources.  A Future is a new object bound to the cell
  of the promise it is built from; every read goes to that cell. *)
Definition future (self : obj) : M obj :=
i <~ new_oid ; ret (Obj i (ocell self) FutureC).

(** *** reading *)

Definition isdefined (self : obj) (h : heap) : bool := done (ocell self) h.

(** [_future.result(timeout)]: the value, the stored exception raised, a
  [TimeoutError] once [timeout] has passed, or a wait without end. *)
Definition get (self : obj) (timeout : option nat) : M val :=
λ h, match cells h !! ocell self with
     | None => Stop Dangling
     | Some pc =>
         match st pc with
         | Success v => Ret v h
         | Failure e => Raise e h
         | Pending =>
             match timeout with
             | Some _ => Raise (TimeoutError (Lit "")) h
             | None => Stop Blocked
             end
         end
     end.

Definition getorelse (self : obj) (default : val) : M val :=
try (get self (Some 0)) (λ _, ret default).

Definition issuccess (self : obj) : M (option bool) :=
λ h, if negb (isdefined self h) then Ret None h
     else try (get self None ;; ret (Some true)) (λ _, ret (Some false)) h.

Definition isfailure (self : obj) : M (option bool) :=
v <~ issuccess self ;
match v with
| None => ret None
| Some b => ret (Some (negb b))
end.

(** *** writing *)

Definition already_resolved : exc :=
AlreadyResolvedError
  (Lit "Promise is already resolved; you cannot set its status again.").

(** [with self._lock: body]; the lock is a [threading.Lock]. *)
Definition with_lock {A} (self : obj) (body : M A) : M A :=
λ h, match cells h !! ocell self with
     | None => Stop Dangling
     | Some pc =>
         if lck pc then Stop Deadlock
         else finally body (alter_cell (ocell self) (set_lck false))
                           (alter_cell (ocell self) (set_lck true) h)
     end.

Definition setexception (self : obj) (e : exc) : M obj :=
with_lock self
  (λ h, if isdefined self h then Raise already_resolved h
        else (set_state (ocell self) (Failure e) ;; ret self) h).

Definition setvalue (self : obj) (val : val) : M obj :=
with_lock self
  (λ h, if isdefined self h then Raise already_resolved h
        else (set_state (ocell self) (Success val) ;; ret self) h).

(** [o.setvalue(v)], [o.setexception(e)]: the method of [o]'s class. *)
Definition dot_setvalue (o : obj) (v : val) : M obj :=
match oclass o with
| PromiseC => setvalue o v
| FutureC => Future.setvalue o v
end.
Definition dot_setexception (o : obj) (e : exc) : M obj :=
match oclass o with
| PromiseC => setexception o e
| FutureC => Future.setexception o e
end.

(** *** callbacks *)

Definition respond (self : obj) (fn : responder) : M obj :=
add_done_callback (ocell self) (fn, self) ;; ret self.

Definition onfailure (self : obj) (fn : efun) : M obj :=
respond self (OnfailureRespond fn).

Definition onsuccess (self : obj) (fn : vfun) : M obj :=
respond self (OnsuccessRespond fn).

Definition proxyto (self other : obj) : M obj :=
r <~ onsuccess self (BoundSetvalue other) ;
onfailure r (BoundSetexception other).

Definition update (self other : obj) : M obj :=
proxyto other self ;; ret self.

Definition updateifempty (self other : obj) : M obj :=
(r <~ onsuccess other (UieSetvalue self) ;
 onfailure r (UieSetexception self)) ;;
ret self.

Definition transform (self : obj) (fn : tfun) : M obj :=
p <~ init ;
respond self (TransformRespond p fn) ;;
ret p.

Definition flatmap (self : obj) (fn : kfun) : M obj :=
transform self (FlatmapTransform fn).

Definition andthen (self : obj) (fn : kfun) : M obj := flatmap self fn.

Definition map (self : obj) (fn : clientfn) : M obj :=
flatmap self (MapLam fn).

Definition filter (self : obj) (fn : clientfn) : M obj :=
flatmap self (FilterLam fn).

(** *** constructors *)

Definition value (val : val) : M obj :=
f <~ init ; setvalue f val ;; future f.

Definition exception (exc : exc) : M obj :=
f <~ init ; setexception f exc ;; future f.

(** [Promise.call(wait)] inside [Promise.wait]: the executor makes the
  future of the submitted task and a worker resolves it to [None] after
  [time.sleep(duration)]; the promise wraps that future. *)
Definition call_wait (duration : nat) : M obj :=
c <~ Future_init ;
(λ h, Ret tt (with_pool (λ l, l ++ [(c, now h + duration)]) h)) ;;
i <~ new_oid ;
future (Obj i c PromiseC).

Definition wait (duration : nat) : M obj :=
p <~ call_wait duration ; future p.

(** *** combining *)

Fixpoint collect_loop (xs count : nat) (p : obj) (i : nat) (fs : list obj)
: M unit :=
match fs with
| [] => ret tt
| f :: fs' =>
    (r <~ onsuccess f (CollectOnsuccess xs count i p) ;
     onfailure r (CollectOnfailure p)) ;;
    collect_loop xs count p (S i) fs'
end.

Definition collect (fs : list obj) : M obj :=
if length fs =? 0 then value (VList [])
else
  xs <~ new_list (replicate (length fs) VNone) ;
  count <~ new_box (Z.of_nat (length fs)) ;
  p <~ init ;
  collect_loop xs count p 0 fs ;;
  ret p.

Definition join_ (self : obj) (others : list obj) : M obj :=
collect (self :: others).

Fixpoint select_loop (p : obj) (fs : list obj) (rest : list obj) : M unit :=
match rest with
| [] => ret tt
| f :: rest' =>
    respond f (SelectLam p f fs) ;; select_loop p fs rest'
end.

Definition select (fs : list obj) : M obj :=
p <~ init ;
if length fs =? 0
then raise (ValueError (Lit "Promise.select requires at least one future"))
else select_loop p fs fs ;; ret p.

Definition or_ (self : obj) (others : list obj) : M obj :=
s <~ select (self :: others) ; flatmap s OrLam.

Definition select_ (self : obj) (others : list obj) : M obj :=
or_ self others.

Definition within (self : obj) (duration : nat) : M obj :=
let e := TimeoutError
           (Format "Promise did not finish in {} seconds"
                   (VInt (Z.of_nat duration))) in
w <~ wait duration ;
t <~ flatmap w (WithinLam e) ;
or_ self [t].

(** *** the closures, applied *)

Definition call_vfun (fn : vfun) (v : val) : M unit :=
match fn with
| BoundSetvalue other => dot_setvalue other v ;; ret tt
| UieSetvalue self =>
    try (dot_setvalue self v ;; ret tt)
        (λ e, match e with
              | AlreadyResolvedError _ => ret tt
              | _ => dot_setexception self e ;; ret tt
              end)
| CollectOnsuccess xs count i p =>
    (* [with lock:] an RLock, which its own thread always gets *)
    list_setitem xs i v ;;
    box_decr count ;;
    c <~ box_get count ;
    if (c =? 0)%Z
    then (r <~ value (VListRef xs) ; updateifempty p r ;; ret tt)
    else ret tt
end.

Definition call_efun (fn : efun) (e : exc) : M unit :=
match fn with
| BoundSetexception other => dot_setexception other e ;; ret tt
| UieSetexception self =>
    try (dot_setexception self e ;; ret tt)
        (λ e_, match e_ with
               | AlreadyResolvedError _ => ret tt
               | _ => dot_setexception self e_ ;; ret tt
               end)
| CollectOnfailure p =>
    r <~ exception e ; updateifempty p r ;; ret tt
end.

(** Unpacking the argument of [lambda (fut, futs): fut]. *)
Definition unpack2 (v : val) : M val :=
λ h,
  let two (l : list val) : outcome val :=
    match l with
    | [a; _] => Ret a h
    | _ => Raise (ValueError (Lit "need exactly 2 values to unpack")) h
    end in
  match v with
  | VTuple l | VList l => two l
  | VListRef r => match lists h !! r with
                  | Some l => two l
                  | None => Stop Dangling
                  end
  | _ => Raise (TypeError (Lit "object is not iterable")) h
  end.

Definition call_kfun (fn : kfun) (v : val) : M val :=
match fn with
| MapLam f => r <~ apply_client f v ; q <~ value r ; ret (VObj q)
| FilterLam f =>
    r <~ apply_client f v ;
    λ h, if truthy (lists h) r
         then (q <~ value v ; ret (VObj q)) h
         else (q <~ exception
                      (MiraiError (Format "Value {} was filtered out" v)) ;
               ret (VObj q)) h
| WithinLam e => q <~ exception e ; ret (VObj q)
| OrLam => unpack2 v
end.

Definition assert_isdefined (fut : obj) : M unit :=
λ h, if isdefined fut h then Ret tt h else Raise AssertionError h.

Definition call_tfun (fn : tfun) (fut : obj) : M val :=
match fn with
| FlatmapTransform k =>
    assert_isdefined fut ;;
    v <~ get fut None ;
    call_kfun k v
end.

(** [p.update(q)] for whatever [fn(fut)] returned. *)
Definition update_with (p : obj) (q : val) : M unit :=
match q with
| VObj qo => update p qo ;; ret tt
| _ => raise (AttributeError (Lit "object has no attribute 'proxyto'"))
end.

Definition apply_responder (fn : responder) (fut : obj) : M unit :=
match fn with
| OnsuccessRespond g =>
    assert_isdefined fut ;;
    λ h, match get fut None h with
         | Ret v h' => call_vfun g v h'
         | Raise _ h' => Ret tt h'
         | Exit h' => Exit h'
         | Stop s => Stop s
         end
| OnfailureRespond g =>
    assert_isdefined fut ;;
    λ h, match get fut None h with
         | Ret _ h' => Ret tt h'
         | Raise e h' => call_efun g e h'
         | Exit h' => Exit h'
         | Stop s => Stop s
         end
| TransformRespond p t =>
    assert_isdefined fut ;;
    λ h, match call_tfun t fut h with
         | Ret q h' => update_with p q h'
         | Raise e h' => (dot_setexception p e ;; ret tt) h'
         | Exit h' => Exit h'
         | Stop s => Stop s
         end
| SelectLam p f fs =>
    r <~ value (VTuple [VObj f;
                        VList (VObj <$> List.filter (λ g, obj_ne g f) fs)]) ;
    updateifempty p r ;; ret tt
end.

(** *** the executor and the clock *)

(** A worker finishes every sleeping task whose time has come:
  [future.set_result(None)]. *)
Fixpoint run_tasks (l : list (nat * nat)) : M unit :=
match l with
| [] => ret tt
| (c, due) :: l' =>
    λ h, if (due <=? now h) && negb (done c h)
         then (set_state c (Success VNone) ;; run_tasks l') h
         else run_tasks l' h
end.

Definition pool_run : M unit := λ h, run_tasks (pool h) h.

End Methods.

(** Time passes. *)
Definition elapse (t : nat) : M unit := λ h, Ret tt (with_now (λ n, n + t) h).

(** The interpreter: [run n] applies a registered callable, with callbacks
  nested at most [n] deep. *)
Fixpoint run (n : nat) (fn : responder) (fut : obj) : M unit :=
match n with
| 0 => λ _, Stop OutOfFuel
| S n' => apply_responder (run n') fn fut
end.

End Promise.

Import Promise.

(** * Vocabulary of the statements *)

(** An outcome that is not an [Exception] propagating to the caller. *)
Definition no_raise {A} (o : outcome A) : Prop :=
  match o with Raise _ _ => False | _ => True end.

(** The heap after [cls()] has made a promise in [h]. *)
Definition after_init (h : heap) : heap :=
  with_next_oid S (with_cells (λ l, l ++ [PCell Pending [] false]) h).

(** The heap after [Promise.value] / [Promise.exception] has made a promise
    resolved to [s] and its future in [h]. *)
Definition after_resolved (s : rstate) (h : heap) : heap :=
  with_next_oid (λ n, S (S n)) (with_cells (λ l, l ++ [PCell s [] false]) h).

(** [h'] comes after [h]: every cell of [h] is still there, and a cell that
    was resolved in [h] has the same state in [h']. *)
Definition extends (h h' : heap) : Prop :=
  ∀ c pc, cells h !! c = Some pc →
    ∃ pc', cells h' !! c = Some pc' ∧
           (defined (st pc) = true → st pc' = st pc).

(** A computation that only ever takes a heap to a later one. *)
Definition mono {A} (m : M A) : Prop :=
  ∀ h h', heap_of (m h) = Some h' → extends h h'.

(** What can be called on a future [f] (all of it inherited from [Promise],
    [setvalue] and [setexception] overridden). *)
Inductive future_op :=
| FSetvalue (v : val)
| FSetexception (e : exc)
| FGet (timeout : option nat)
| FGetorelse (default : val)
| FIssuccess
| FIsfailure
| FFuture
| FRespond (fn : responder)
| FOnsuccess (fn : vfun)
| FOnfailure (fn : efun)
| FProxyto (other : obj)
| FUpdate (other : obj)
| FUpdateifempty (other : obj)
| FTransform (fn : tfun)
| FFlatmap (fn : kfun)
| FAndthen (fn : kfun)
| FMap (fn : clientfn)
| FFilter (fn : clientfn).

(** [f.op(...)], the result dropped. *)
Definition do_op (fire : responder → obj → M unit) (f : obj) (op : future_op)
  : M unit :=
  match op with
  | FSetvalue v => dot_setvalue fire f v ;; ret tt
  | FSetexception e => dot_setexception fire f e ;; ret tt
  | FGet t => get f t ;; ret tt
  | FGetorelse d => getorelse f d ;; ret tt
  | FIssuccess => issuccess f ;; ret tt
  | FIsfailure => isfailure f ;; ret tt
  | FFuture => future f ;; ret tt
  | FRespond fn => respond fire f fn ;; ret tt
  | FOnsuccess fn => onsuccess fire f fn ;; ret tt
  | FOnfailure fn => onfailure fire f fn ;; ret tt
  | FProxyto other => proxyto fire f other ;; ret tt
  | FUpdate other => update fire f other ;; ret tt
  | FUpdateifempty other => updateifempty fire f other ;; ret tt
  | FTransform fn => transform fire f fn ;; ret tt
  | FFlatmap fn => flatmap fire f fn ;; ret tt
  | FAndthen fn => andthen fire f fn ;; ret tt
  | FMap fn => map fire f fn ;; ret tt
  | FFilter fn => filter fire f fn ;; ret tt
  end.

(** Every cell of [h] has the same state in [h']. *)
Definition same_states (h h' : heap) : Prop :=
  ∀ c s, state_of h c = Some s → state_of h' c = Some s.

(** A computation that changes no state. *)
Definition quiet {A} (m : M A) : Prop :=
  ∀ h h', heap_of (m h) = Some h' → same_states h h'.

(** The outcome that [p.map(f)] derives from the outcome [s] of [p]. *)
Definition mapped (f : clientfn) (s : rstate) : rstate :=
  match s with
  | Success v => match fbody f v with
                 | Ok r => Success r
                 | Err e => Failure e
                 end
  | _ => s
  end.

(** The outcome that [p.filter(f)] derives from the outcome [s] of [p]. *)
Definition filtered (ls : list (list val)) (f : clientfn) (s : rstate) : rstate :=
  match s with
  | Success v =>
      match fbody f v with
      | Ok r => if truthy ls r then Success v
                else Failure (MiraiError (Format "Value {} was filtered out" v))
      | Err e => Failure e
      end
  | _ => s
  end.

(** What [select]'s promise holds when the input [f] is the first to fire. *)
Definition selected (f : obj) (fs : list obj) : rstate :=
  Success (VTuple [VObj f; VList (VObj <$> List.filter (λ g, obj_ne g f) fs)]).

(** A resolution that the owner of a promise makes. *)
Inductive resolution :=
| Setvalue (o : obj) (v : val)
| Setexception (o : obj) (e : exc).

Definition target (r : resolution) : obj :=
  match r with Setvalue o _ | Setexception o _ => o end.

Definition outcome_of (r : resolution) : rstate :=
  match r with Setvalue _ v => Success v | Setexception _ e => Failure e end.

Definition resolve (fire : responder → obj → M unit) (r : resolution) : M obj :=
  match r with
  | Setvalue o v => dot_setvalue fire o v
  | Setexception o e => dot_setexception fire o e
  end.

(** Resolutions made one after the other, in this order in time; an
    exception of one ([AlreadyResolvedError]) does not keep the next from
    being made. *)
Fixpoint resolve_all (fire : responder → obj → M unit) (rs : list resolution)
  : M unit :=
  match rs with
  | [] => ret tt
  | r :: rs' =>
      λ h, match resolve fire r h with
           | Ret _ h' | Raise _ h' => resolve_all fire rs' h'
           | Exit h' => Exit h'
           | Stop s => Stop s
           end
  end.

(** An input of [collect] or [select] in the heap of the call: a promise
    whose lock is free and which, while pending, has no callback yet. *)
Definition input_ok (h : heap) (f : obj) : Prop :=
  ∃ pc, cells h !! ocell f = Some pc ∧ lck pc = false ∧
        (st pc = Pending → cbs pc = []).

(** A resolution of one of the inputs [fs], made on a promise. *)
Definition resolves_input (fs : list obj) (r : resolution) : Prop :=
  oclass (target r) = PromiseC ∧ ∃ f, f ∈ fs ∧ ocell f = ocell (target r).

(** The input of [fs] that fires first: the first in [fs] that is resolved
    when [select] is called, if any; else the first in [fs] that the first
    resolution [rs] resolves. *)
Definition first_to_fire (h : heap) (fs : list obj) (rs : list resolution)
  : option obj :=
  match List.find (λ g, done (ocell g) h) fs with
  | Some f => Some f
  | None =>
      match rs with
      | [] => None
      | r :: _ => List.find (λ g, ocell g =? ocell (target r)) fs
      end
  end.

(** The done-callbacks that [select(fs)] registers for the inputs [l]. *)
Definition sel_cbs (p : obj) (fs l : list obj) : list (responder * obj) :=
  (λ f, (SelectLam p f fs, f)) <$> l.

(** The inputs of [fs] that read the cell [c]. *)
Definition on_cell (c : nat) (l : list obj) : list obj :=
  List.filter (λ f, ocell f =? c) l.

(** The heap while and after [select(fs)] registers: [p] holds [w] and has no
    callback; [res] tells which inputs are resolved; a pending input carries
    the lambdas of the inputs [pre], registered so far, that read its cell. *)
Definition sel_inv (p : obj) (fs pre : list obj) (res : obj → bool)
    (w : rstate) (h : heap) : Prop :=
  cells h !! ocell p = Some (PCell w [] false) ∧
  ∀ g, g ∈ fs →
    ocell g ≠ ocell p ∧
    ∃ pc, cells h !! ocell g = Some pc ∧ lck pc = false ∧
          defined (st pc) = res g ∧
          (st pc = Pending → cbs pc = sel_cbs p fs (on_cell (ocell g) pre)).

(** The two done-callbacks that [collect]'s [body(i)] registers on [f]. *)
Definition col_cbs (xs count : nat) (p : obj) (i : nat) (f : obj)
  : list (responder * obj) :=
  [(OnsuccessRespond (CollectOnsuccess xs count i p), f);
   (OnfailureRespond (CollectOnfailure p), f)].

(** The inputs with their indices, and those of them that read the cell [c]. *)
Definition indexed (fs : list obj) : list (nat * obj) := imap pair fs.

Definition on_cell_i (c : nat) (l : list (nat * obj)) : list (nat * obj) :=
  List.filter (λ x, ocell x.2 =? c) l.

(** The done-callbacks that [collect] has put on the cell [c] once the first
    [k] inputs are registered. *)
Definition col_registered (xs count : nat) (p : obj) (fs : list obj)
    (k c : nat) : list (responder * obj) :=
  flat_map (λ x, col_cbs xs count p x.1 x.2) (on_cell_i c (take k (indexed fs))).

(** What [collect] has stored after the first [k] inputs are registered and
    the [onsuccess] closures of the indices [D] have run: [p] holds [w];
    [count] is the number of indices not in [D]; [xs] has the values of the
    indices in [D].  [p] holds a list only when every index is in [D], and an
    exception only when one of the first [k] inputs failed with it. *)
Definition col_data (xs count : nat) (p : obj) (fs : list obj) (k : nat)
    (D : list nat) (w : rstate) (h : heap) : Prop :=
  cells h !! ocell p = Some (PCell w [] false) ∧
  boxes h !! count = Some (Z.of_nat (length fs) - Z.of_nat (length D))%Z ∧
  NoDup D ∧ (∀ i, i ∈ D → i < k) ∧
  (∃ l, lists h !! xs = Some l ∧ length l = length fs ∧
        ∀ i, i ∈ D → ∃ f v, fs !! i = Some f ∧
                            state_of h (ocell f) = Some (Success v) ∧
                            l !! i = Some v) ∧
  (∀ x, w = Success x → x = VListRef xs ∧ length D = length fs) ∧
  (length D = length fs → defined w = true) ∧
  (∀ e, w = Failure e →
        ∃ i f, i < k ∧ fs !! i = Some f ∧
               state_of h (ocell f) = Some (Failure e)).

(** The inputs between two calls: every lock is free; a pending input carries
    the callbacks registered on its cell; an input among the first [k] that
    succeeded has had its [onsuccess] closure run. *)
Definition col_reg (xs count : nat) (p : obj) (fs : list obj) (k : nat)
    (D : list nat) (h : heap) : Prop :=
  ∀ i f, fs !! i = Some f →
    ocell f ≠ ocell p ∧
    ∃ pc, cells h !! ocell f = Some pc ∧ lck pc = false ∧
          (st pc = Pending → cbs pc = col_registered xs count p fs k (ocell f)) ∧
          (∀ v, st pc = Success v → i < k → i ∈ D).

(** ** Time *)

(** [t] seconds pass, then the workers of the executor run. *)
Definition after (fire : responder → obj → M unit) (t : nat) : M unit :=
  elapse t ;; pool_run fire.

(** The outcome of [within(duration)] when the timer wins. *)
Definition timed_out (duration : nat) : rstate :=
  Failure (TimeoutError (Format "Promise did not finish in {} seconds"
                                (VInt (Z.of_nat duration)))).

(** ** Methods written with [map] *)

(** [lambda v: None] *)
Definition const_none : clientfn := ClientFn "<lambda>" (λ _, Ok VNone).

(** [Promise.unit]; the name [unit] is the type of [tt]. *)
Definition unit_ (fire : responder → obj → M unit) (self : obj) : M obj :=
  map fire self const_none.

Definition join (fire : responder → obj → M unit) (fs : list obj) : M obj :=
  c <~ collect fire fs ; map fire c const_none.

(** The outcome of [unit] for the outcome [s] of the promise. *)
Definition discarded (s : rstate) : rstate :=
  match s with Success _ => Success VNone | _ => s end.

(** ** Locks *)

(** The locks of a heap, cell by cell. *)
Definition locks (h : heap) : list bool := lck <$> cells h.

(** [h'] has every lock of [h] as it was in [h], and the cells made since
    are unlocked. *)
Definition releases (h h' : heap) : Prop :=
  ∃ k, locks h' = locks h ++ replicate k false.

(** A computation that gives back every lock it takes. *)
Definition lock_neutral {A} (m : M A) : Prop :=
  ∀ h h', heap_of (m h) = Some h' → releases h h'.

(** No lock is held. *)
Definition unlocked (h : heap) : Prop :=
  ∀ c pc, cells h !! c = Some pc → lck pc = false.

(** The list [vs] that the value [v] of [collect]'s promise stands for: a
    list as it is, or the list object of the store that [v] refers to. *)
Definition holds_list (h : heap) (v : val) (vs : list val) : Prop :=
  match v with
  | VList l => l = vs
  | VListRef xs => lists h !! xs = Some vs
  | _ => False
  end.

(** * Proofs *)

(** ** Lists that grow at the end *)

Lemma lookup_new {A} (l s : list A) : (l ++ s) !! length l = s !! 0.
Proof. rewrite lookup_app_r by lia. by rewrite Nat.sub_diag. Qed.

Lemma alter_new {A} (f : A → A) (l s : list A) :
  alter f (length l) (l ++ s) = l ++ alter f 0 s.
Proof. rewrite alter_app_r_alt by lia. by rewrite Nat.sub_diag. Qed.

Lemma lookup_old {A} (l s : list A) c x :
  l !! c = Some x → (l ++ s) !! c = Some x.
Proof. apply lookup_app_l_Some. Qed.

Lemma alter_old {A} (f : A → A) (l s : list A) c x :
  l !! c = Some x → alter f c (l ++ s) = alter f c l ++ s.
Proof. intros H. apply alter_app_l. by eapply lookup_lt_Some. Qed.

(** ** Symbolic execution *)

Ltac munfold :=
  unfold value, exception, init, future, Future_init, new_oid,
    setvalue, setexception, dot_setvalue, dot_setexception,
    Future.setvalue, Future.setexception, with_lock, set_state,
    add_done_callback, respond, onsuccess, onfailure, proxyto, update,
    updateifempty, transform, flatmap, isdefined, done, get, assert_isdefined,
    alter_cell, finally, try, bind, ret, raise,
    after_init, after_resolved,
    with_cells, with_lists, with_boxes, with_next_oid, with_calls,
    with_pool, with_now in *.

Ltac hs :=
  repeat first
    [ progress simpl
    | rewrite alter_new
    | rewrite lookup_new ].

(** ** The constructors *)

Lemma init_spec (h : heap) :
  init h = Ret (Obj (next_oid h) (length (cells h)) PromiseC) (after_init h).
Proof. reflexivity. Qed.

Lemma value_spec (fire : responder → obj → M unit) (v : val) (h : heap) :
  value fire v h =
    Ret (Obj (S (next_oid h)) (length (cells h)) FutureC)
        (after_resolved (Success v) h).
Proof. munfold. hs. reflexivity. Qed.

Lemma exception_spec (fire : responder → obj → M unit) (e : exc) (h : heap) :
  exception fire e h =
    Ret (Obj (S (next_oid h)) (length (cells h)) FutureC)
        (after_resolved (Failure e) h).
Proof. munfold. hs. reflexivity. Qed.

(** ** The state probes *)

Lemma issuccess_spec (self : obj) (h : heap) :
  issuccess self h =
    Ret (match state_of h (ocell self) with
         | Some (Success _) => Some true
         | Some (Failure _) => Some false
         | _ => None
         end) h.
Proof.
  unfold issuccess, isdefined, done, state_of, try, bind, get, ret.
  destruct (cells h !! ocell self) as [pc|]; simpl; [|done].
  by destruct (st pc).
Qed.

(** C10: [issuccess] and [isfailure] both return at once and leave the heap
    as it is; both give [None] exactly when the promise is not resolved, and
    otherwise [isfailure()] is [not issuccess()]. *)
Theorem issuccess_isfailure_dual (self : obj) (h : heap) :
  ∃ r : option bool,
    issuccess self h = Ret r h ∧
    isfailure self h = Ret (negb <$> r) h ∧
    (r = None ↔ isdefined self h = false).
Proof.
  eexists. split; [apply issuccess_spec|]. split.
  - unfold isfailure, bind. rewrite issuccess_spec.
    unfold state_of. destruct (cells h !! ocell self) as [pc|]; simpl; [|done].
    by destruct (st pc).
  - unfold isdefined, done, state_of.
    destruct (cells h !! ocell self) as [pc|]; simpl; [|done].
    destruct (st pc); simpl; split; congruence.
Qed.

(** ** [collect] of nothing *)

(** C6: [Promise.collect([])] returns a future whose promise is already
    resolved to the empty list; no callback is registered or run, and the
    cells that were there are as they were. *)
Theorem collect_empty (fire : responder → obj → M unit) (h : heap) :
  collect fire [] h =
    Ret (Obj (S (next_oid h)) (length (cells h)) FutureC)
        (after_resolved (Success (VList [])) h).
Proof. unfold collect. simpl. apply value_spec. Qed.

(** ** [select] of nothing, [or_] with no others *)

Lemma bind_no_raise {A B} (m : M A) (k : A → M B) (h : heap) :
  no_raise (m h) → (∀ a h', no_raise (k a h')) → no_raise (bind m k h).
Proof. unfold bind. destruct (m h); simpl; auto. Qed.

Lemma respond_no_raise fire self fn h : no_raise (respond fire self fn h).
Proof.
  apply bind_no_raise; [|done].
  unfold add_done_callback, done_callback.
  destruct (cells h !! ocell self) as [pc|]; simpl; [|done].
  destruct (defined (st pc)); simpl; [|done].
  by destruct (fire fn self h).
Qed.

Lemma select_loop_no_raise fire p fs rest h :
  no_raise (select_loop fire p fs rest h).
Proof.
  revert h. induction rest as [|f rest IH]; intros h; simpl; [done|].
  apply bind_no_raise; auto using respond_no_raise.
Qed.

Lemma flatmap_no_raise fire self fn h : no_raise (flatmap fire self fn h).
Proof.
  unfold flatmap, transform.
  apply bind_no_raise; [done|]. intros p h'.
  apply bind_no_raise; [apply respond_no_raise|done].
Qed.

Lemma or_no_raise fire self others h : no_raise (or_ fire self others h).
Proof.
  unfold or_, select.
  apply bind_no_raise; [|auto using flatmap_no_raise].
  apply bind_no_raise; [done|]. intros p h'. cbn [length Nat.eqb].
  apply bind_no_raise; [apply select_loop_no_raise|done].
Qed.

(** C5 as stated fails: [p.or_()] with no other promise returns. *)
Lemma or_of_nothing_returns :
  ∃ r h', (p <~ init; or_ (run 2) p []) empty_heap = Ret r h'.
Proof. eexists _, _. vm_compute. reflexivity. Qed.

(** ** Resolved states are never overwritten *)

Lemma extends_refl h : extends h h.
Proof. intros c pc H. eauto. Qed.

Lemma extends_trans h1 h2 h3 : extends h1 h2 → extends h2 h3 → extends h1 h3.
Proof.
  intros H12 H23 c pc H.
  destruct (H12 c pc H) as (pc2 & H2 & E2).
  destruct (H23 c pc2 H2) as (pc3 & H3 & E3).
  exists pc3. split; [done|]. intros D.
  rewrite <- (E2 D). apply E3. by rewrite (E2 D).
Qed.

Lemma extends_same_cells h h' : cells h' = cells h → extends h h'.
Proof. intros E c pc H. rewrite E. eauto. Qed.

Lemma extends_alloc h pc : extends h (with_cells (λ l, l ++ [pc]) h).
Proof. intros c pc' H. exists pc'. split; [|done]. simpl. by apply lookup_old. Qed.

Lemma extends_alter h c f :
  (∀ pc, cells h !! c = Some pc → defined (st pc) = true → st (f pc) = st pc) →
  extends h (alter_cell c f h).
Proof.
  intros Hf c' pc H. simpl. destruct (decide (c = c')) as [->|Hne].
  - rewrite list_lookup_alter_eq, H. simpl. eauto.
  - rewrite list_lookup_alter_ne by done. eauto.
Qed.

Lemma mono_ret {A} (a : A) : mono (ret a).
Proof. intros h h' [= <-]. apply extends_refl. Qed.

Lemma mono_raise {A} e : mono (@raise A e).
Proof. intros h h' [= <-]. apply extends_refl. Qed.

Lemma mono_bind {A B} (m : M A) (k : A → M B) :
  mono m → (∀ a, mono (k a)) → mono (bind m k).
Proof.
  intros Hm Hk h h'. unfold bind. specialize (Hm h).
  destruct (m h) as [a h1|e h1|h1|s]; simpl in *; intros E.
  - eapply extends_trans; [by apply Hm|]. by eapply Hk.
  - by apply Hm.
  - by apply Hm.
  - done.
Qed.

Lemma mono_try {A} (m : M A) (k : exc → M A) :
  mono m → (∀ e, mono (k e)) → mono (try m k).
Proof.
  intros Hm Hk h h'. unfold try. specialize (Hm h).
  destruct (m h) as [a h1|e h1|h1|s]; simpl in *; intros E.
  - by apply Hm.
  - eapply extends_trans; [by apply Hm|]. by eapply Hk.
  - by apply Hm.
  - done.
Qed.

Lemma mono_fun {A} (m : M A) :
  (∀ h, ∀ h', heap_of (m h) = Some h' → extends h h') → mono m.
Proof. done. Qed.

Create HintDb mono.

Section Mono.
Variable fire : responder → obj → M unit.
Hypothesis fire_mono : ∀ fn fut, mono (fire fn fut).

Lemma mono_done_callback cb : mono (done_callback fire cb).
Proof.
  intros h h'. unfold done_callback. pose proof (fire_mono cb.1 cb.2 h) as H.
  destruct (fire cb.1 cb.2 h); simpl in *; auto.
Qed.

Lemma mono_invoke_callbacks l : mono (invoke_callbacks fire l).
Proof.
  induction l as [|cb l IH]; [apply mono_ret|].
  intros h h'. simpl. pose proof (mono_done_callback cb h) as H.
  destruct (done_callback fire cb h) as [a h1|e h1|h1|s]; simpl in *; intros E.
  - eapply extends_trans; [by apply H|]. by apply IH.
  - eapply extends_trans; [by apply H|]. by apply IH.
  - by apply H.
  - done.
Qed.

(** The one place where a state is written: sound when the cell is pending. *)
Lemma set_state_extends c s h h' :
  done c h = false →
  heap_of (set_state fire c s h) = Some h' → extends h h'.
Proof.
  unfold set_state, done. destruct (cells h !! c) as [pc|] eqn:E; [|done].
  intros Hd Hh. eapply extends_trans; [|by eapply mono_invoke_callbacks].
  apply extends_alter. intros pc' E' D. congruence.
Qed.

Lemma mono_add_done_callback c cb : mono (add_done_callback fire c cb).
Proof.
  intros h h'. unfold add_done_callback.
  destruct (cells h !! c) as [pc|] eqn:E; [|done].
  destruct (defined (st pc)); [apply mono_done_callback|].
  intros [= <-]. by apply extends_alter.
Qed.

Lemma mono_respond self fn : mono (respond fire self fn).
Proof. apply mono_bind; [apply mono_add_done_callback|intros; apply mono_ret]. Qed.

Lemma mono_init : mono init.
Proof. intros h h' [= <-]. apply (extends_alloc h). Qed.

Lemma mono_future self : mono (future self).
Proof. intros h h' [= <-]. by apply extends_same_cells. Qed.

Lemma mono_with_lock_resolve self s :
  mono (with_lock self
          (λ h, if isdefined self h then Raise already_resolved h
                else (set_state fire (ocell self) s ;; ret self) h)).
Proof.
  intros h h'. unfold with_lock.
  destruct (cells h !! ocell self) as [pc|] eqn:E; [|done].
  destruct (lck pc); [done|].
  set (h1 := alter_cell (ocell self) (set_lck true) h).
  assert (extends h h1) as H1 by by apply extends_alter.
  unfold finally.
  destruct (isdefined self h1) eqn:D; simpl.
  - intros [= <-]. eapply extends_trans; [done|]. by apply extends_alter.
  - unfold bind. pose proof (set_state_extends (ocell self) s h1) as H2.
    unfold isdefined in D.
    destruct (set_state fire (ocell self) s h1) as [a h2|e h2|h2|st2];
      simpl in *; intros [= <-];
      (eapply extends_trans; [done|]);
      (eapply extends_trans; [by apply H2|]); by apply extends_alter.
Qed.

Lemma mono_setvalue self v : mono (setvalue fire self v).
Proof. apply mono_with_lock_resolve. Qed.
Lemma mono_setexception self e : mono (setexception fire self e).
Proof. apply mono_with_lock_resolve. Qed.

Lemma mono_dot_setvalue o v : mono (dot_setvalue fire o v).
Proof. unfold dot_setvalue. destruct (oclass o); [apply mono_setvalue|apply mono_raise]. Qed.
Lemma mono_dot_setexception o e : mono (dot_setexception fire o e).
Proof. unfold dot_setexception. destruct (oclass o); [apply mono_setexception|apply mono_raise]. Qed.

Hint Resolve mono_add_done_callback mono_ret mono_raise mono_respond mono_init mono_future
  mono_setvalue mono_setexception mono_dot_setvalue mono_dot_setexception
  : mono.

Ltac mono_tac :=
  repeat first
    [ solve [eauto with mono]
    | apply mono_bind; [|intros ?]
    | apply mono_try; [|intros ?] ].

Lemma mono_onsuccess self fn : mono (onsuccess fire self fn).
Proof. apply mono_respond. Qed.
Lemma mono_onfailure self fn : mono (onfailure fire self fn).
Proof. apply mono_respond. Qed.
Hint Resolve mono_onsuccess mono_onfailure : mono.

Lemma mono_proxyto self other : mono (proxyto fire self other).
Proof. unfold proxyto. mono_tac. Qed.
Hint Resolve mono_proxyto : mono.

Lemma mono_update self other : mono (update fire self other).
Proof. unfold update. mono_tac. Qed.

Lemma mono_updateifempty self other : mono (updateifempty fire self other).
Proof. unfold updateifempty. mono_tac. Qed.

Lemma mono_transform self fn : mono (transform fire self fn).
Proof. unfold transform. mono_tac. Qed.

Lemma mono_flatmap self fn : mono (flatmap fire self fn).
Proof. apply mono_transform. Qed.

Lemma mono_value v : mono (value fire v).
Proof. unfold value. mono_tac. Qed.

Lemma mono_exception e : mono (exception fire e).
Proof. unfold exception. mono_tac. Qed.
Hint Resolve mono_update mono_updateifempty mono_transform mono_flatmap
  mono_value mono_exception : mono.

Lemma mono_same_cells {A} (m : M A) :
  (∀ h h', heap_of (m h) = Some h' → cells h' = cells h) → mono m.
Proof. intros H h h' E. apply extends_same_cells. eauto. Qed.

Lemma mono_list_setitem xs i x : mono (list_setitem xs i x).
Proof.
  apply mono_same_cells. intros h h'. unfold list_setitem.
  destruct (lists h !! xs); [|done]. by destruct (i <? length _); intros [= <-].
Qed.
Lemma mono_box_decr c : mono (box_decr c).
Proof.
  apply mono_same_cells. intros h h'. unfold box_decr.
  by destruct (boxes h !! c); intros [= <-].
Qed.
Lemma mono_box_get c : mono (box_get c).
Proof.
  apply mono_same_cells. intros h h'. unfold box_get.
  by destruct (boxes h !! c); intros [= <-].
Qed.
Lemma mono_apply_client f v : mono (apply_client f v).
Proof.
  apply mono_same_cells. intros h h'. unfold apply_client.
  by destruct (fbody f v); intros [= <-].
Qed.
Lemma mono_get self t : mono (get self t).
Proof.
  apply mono_same_cells. intros h h'. unfold get.
  destruct (cells h !! ocell self) as [pc|]; [|done].
  destruct (st pc); [destruct t|..]; by intros [= <-].
Qed.
Lemma mono_assert fut : mono (assert_isdefined fut).
Proof.
  apply mono_same_cells. intros h h'. unfold assert_isdefined.
  by destruct (isdefined fut h); intros [= <-].
Qed.
Lemma mono_unpack2 v : mono (unpack2 v).
Proof.
  apply mono_same_cells. intros h h'. unfold unpack2.
  destruct v as [| | | |l|l|r|]; try by intros [= <-].
  - by destruct l as [|? [|? [|]]]; intros [= <-].
  - by destruct l as [|? [|? [|]]]; intros [= <-].
  - destruct (lists h !! r) as [l|]; [|done].
    by destruct l as [|? [|? [|]]]; intros [= <-].
Qed.
Hint Resolve mono_list_setitem mono_box_decr mono_box_get mono_apply_client
  mono_get mono_assert mono_unpack2 : mono.

Lemma mono_call_vfun fn v : mono (call_vfun fire fn v).
Proof.
  destruct fn; simpl; mono_tac.
  - destruct e; mono_tac.
  - destruct (_ =? _)%Z; mono_tac.
Qed.

Lemma mono_call_efun fn e : mono (call_efun fire fn e).
Proof.
  destruct fn; simpl; mono_tac.
  destruct e0; mono_tac.
Qed.

Lemma mono_call_kfun fn v : mono (call_kfun fire fn v).
Proof.
  destruct fn; simpl; mono_tac.
  intros h h'. destruct (truthy (lists h) a); revert h h'; fold (mono (A:=val)); mono_tac.
Qed.

Hint Resolve mono_call_vfun mono_call_efun mono_call_kfun : mono.

Lemma mono_call_tfun fn fut : mono (call_tfun fire fn fut).
Proof. destruct fn; simpl; mono_tac. Qed.

Lemma mono_update_with p q : mono (update_with fire p q).
Proof. destruct q; simpl; mono_tac. Qed.
Hint Resolve mono_call_tfun mono_update_with : mono.

Lemma mono_apply_responder fn fut : mono (apply_responder fire fn fut).
Proof.
  destruct fn; simpl; mono_tac.
  - intros h h'. pose proof (mono_get fut None h) as H.
    destruct (get fut None h) as [v h1|e h1|h1|s]; simpl in *; auto.
    intros E. eapply extends_trans; [by apply H|]. by eapply mono_call_vfun.
  - intros h h'. pose proof (mono_get fut None h) as H.
    destruct (get fut None h) as [v h1|e h1|h1|s]; simpl in *; auto.
    intros E. eapply extends_trans; [by apply H|]. by eapply mono_call_efun.
  - intros h h'. pose proof (mono_call_tfun fn fut h) as H.
    destruct (call_tfun fire fn fut h) as [v h1|e h1|h1|s]; simpl in *; auto.
    + intros E. eapply extends_trans; [by apply H|]. by eapply mono_update_with.
    + intros E. eapply extends_trans; [by apply H|].
      revert E. apply (mono_bind (dot_setexception fire p e) (λ _, ret tt)); mono_tac.
Qed.

Lemma mono_collect_loop xs count p i fs : mono (collect_loop fire xs count p i fs).
Proof. revert i. induction fs as [|f fs IH]; intros i; simpl; mono_tac. Qed.

Lemma mono_new_list l : mono (new_list l).
Proof. apply mono_same_cells. by intros h h' [= <-]. Qed.
Lemma mono_new_box z : mono (new_box z).
Proof. apply mono_same_cells. by intros h h' [= <-]. Qed.
Hint Resolve mono_collect_loop mono_new_list mono_new_box : mono.

Lemma mono_collect fs : mono (collect fire fs).
Proof. unfold collect. destruct (length fs =? 0); mono_tac. Qed.

Lemma mono_select_loop p fs rest : mono (select_loop fire p fs rest).
Proof. induction rest as [|f rest IH]; simpl; mono_tac. Qed.
Hint Resolve mono_select_loop : mono.

Lemma mono_select fs : mono (select fire fs).
Proof. unfold select. mono_tac. destruct (length fs =? 0); mono_tac. Qed.
Hint Resolve mono_select mono_collect : mono.

Lemma mono_or_ self others : mono (or_ fire self others).
Proof. unfold or_. mono_tac. Qed.
Hint Resolve mono_or_ : mono.

Lemma mono_Future_init : mono Future_init.
Proof. intros h h' [= <-]. apply (extends_alloc h). Qed.
Lemma mono_new_oid : mono new_oid.
Proof. apply mono_same_cells. by intros h h' [= <-]. Qed.
Hint Resolve mono_Future_init mono_new_oid : mono.

Lemma mono_call_wait d : mono (call_wait d).
Proof.
  unfold call_wait. mono_tac.
  apply mono_same_cells. by intros h h' [= <-].
Qed.
Hint Resolve mono_call_wait : mono.

Lemma mono_wait d : mono (wait d).
Proof. unfold wait. mono_tac. Qed.
Hint Resolve mono_wait : mono.

Lemma mono_within self d : mono (within fire self d).
Proof. unfold within. mono_tac. Qed.

Lemma mono_run_tasks l : mono (run_tasks fire l).
Proof.
  induction l as [|[c due] l IH]; simpl; [apply mono_ret|].
  intros h h'. destruct (due <=? now h); simpl; [|apply IH].
  destruct (done c h) eqn:D; simpl; [apply IH|].
  unfold bind. pose proof (set_state_extends c (Success VNone) h) as H.
  destruct (set_state fire c (Success VNone) h) as [a h1|e h1|h1|s];
    simpl in *; auto.
  intros E. eapply extends_trans; [by apply H|]. by apply IH.
Qed.

Lemma mono_pool_run : mono (pool_run fire).
Proof. intros h h'. apply mono_run_tasks. Qed.

End Mono.

Lemma mono_run n fn fut : mono (run n fn fut).
Proof.
  revert fn fut. induction n as [|n IH]; intros fn fut; [done|].
  simpl. by apply mono_apply_responder.
Qed.

(** Once resolved, always resolved to the same outcome: whatever is called,
    with whatever arguments, a resolved promise keeps its state. *)
Lemma resolved_for_good {A} (m : M A) (h h' : heap) (c : nat) (s : rstate) :
  mono m → heap_of (m h) = Some h' →
  state_of h c = Some s → defined s = true → state_of h' c = Some s.
Proof.
  intros Hm Hh Hs Hd. unfold state_of in *.
  destruct (cells h !! c) as [pc|] eqn:E; [|done].
  destruct (Hm h h' Hh c pc E) as (pc' & -> & Hst). simpl in *.
  injection Hs as <-. by rewrite Hst.
Qed.

(** ** Resolving twice *)

Lemma alter_lock_unlock (l : list pcell) c pc :
  l !! c = Some pc → lck pc = false →
  alter (set_lck false) c (alter (set_lck true) c l) = l.
Proof.
  intros H L. apply list_eq. intros i.
  destruct (decide (c = i)) as [<-|Hne].
  - rewrite !list_lookup_alter_eq, H. simpl. destruct pc. simpl in *. by subst.
  - by rewrite !list_lookup_alter_ne.
Qed.

Lemma heap_eq_cells h l : l = cells h → with_cells (λ _, l) h = h.
Proof. intros ->. by destruct h. Qed.

(** Outside the promise's own dispatch (its lock is free), [setvalue] and
    [setexception] on a resolved promise raise [AlreadyResolvedError] and
    leave the heap as it was. *)
Lemma setvalue_resolved fire p v h pc :
  cells h !! ocell p = Some pc → lck pc = false → defined (st pc) = true →
  setvalue fire p v h = Raise already_resolved h.
Proof.
  intros H L D. unfold setvalue, with_lock, finally, isdefined, done. rewrite H, L.
  simpl. rewrite list_lookup_alter_eq, H. simpl. rewrite D.
  f_equal. unfold alter_cell, with_cells. simpl.
  rewrite (alter_lock_unlock _ _ _ H L). by destruct h.
Qed.

Lemma setexception_resolved fire p e h pc :
  cells h !! ocell p = Some pc → lck pc = false → defined (st pc) = true →
  setexception fire p e h = Raise already_resolved h.
Proof.
  intros H L D. unfold setexception, with_lock, finally, isdefined, done. rewrite H, L.
  simpl. rewrite list_lookup_alter_eq, H. simpl. rewrite D.
  f_equal. unfold alter_cell, with_cells. simpl.
  rewrite (alter_lock_unlock _ _ _ H L). by destruct h.
Qed.

(** C1 at its failing input: [a.updateifempty(b); b.updateifempty(a);
    a.setvalue(v)].  [a.setvalue(v)] resolves [a] and, still holding
    [a._lock], runs [a]'s callback, which resolves [b], whose callback calls
    [a.setvalue(v)] on the now resolved [a]: that call waits for [a._lock]
    for ever instead of raising [AlreadyResolvedError]. *)
Theorem setvalue_from_own_callback_deadlocks (n : nat) (v : val) :
  (a <~ init; b <~ init;
   updateifempty (run (2 + n)) a b ;;
   updateifempty (run (2 + n)) b a ;;
   setvalue (run (2 + n)) a v) empty_heap = Stop Deadlock.
Proof. reflexivity. Qed.

(** ** A future is read-only *)

Lemma same_states_refl h : same_states h h.
Proof. by intros c s. Qed.

Lemma same_states_trans h1 h2 h3 :
  same_states h1 h2 → same_states h2 h3 → same_states h1 h3.
Proof. intros H12 H23 c s H. eauto. Qed.

Lemma same_states_same_cells h h' : cells h' = cells h → same_states h h'.
Proof. intros E c s. unfold state_of. by rewrite E. Qed.

Lemma same_states_alloc h pc : same_states h (with_cells (λ l, l ++ [pc]) h).
Proof.
  intros c s. unfold state_of. simpl.
  destruct (cells h !! c) as [pc'|] eqn:E; [|done].
  by rewrite (lookup_old _ _ _ _ E).
Qed.

Lemma same_states_alter h c f :
  (∀ pc, st (f pc) = st pc) → same_states h (alter_cell c f h).
Proof.
  intros Hf c' s. unfold state_of. simpl.
  destruct (decide (c = c')) as [->|Hne].
  - rewrite list_lookup_alter_eq. destruct (cells h !! c'); simpl; [|done].
    by rewrite Hf.
  - by rewrite list_lookup_alter_ne.
Qed.

Lemma quiet_ret {A} (a : A) : quiet (ret a).
Proof. intros h h' [= <-]. apply same_states_refl. Qed.

Lemma quiet_raise {A} e : quiet (@raise A e).
Proof. intros h h' [= <-]. apply same_states_refl. Qed.

Lemma quiet_bind {A B} (m : M A) (k : A → M B) :
  quiet m → (∀ a, quiet (k a)) → quiet (bind m k).
Proof.
  intros Hm Hk h h'. unfold bind. specialize (Hm h).
  destruct (m h) as [a h1|e h1|h1|s]; simpl in *; intros E; auto.
  eapply same_states_trans; [by apply Hm|]. by eapply Hk.
Qed.

Lemma quiet_same_cells {A} (m : M A) :
  (∀ h h', heap_of (m h) = Some h' → cells h' = cells h) → quiet m.
Proof. intros H h h' E. apply same_states_same_cells. eauto. Qed.

Lemma quiet_same_heap {A} (m : M A) :
  (∀ h h', heap_of (m h) = Some h' → h' = h) → quiet m.
Proof. intros H h h' E. rewrite (H h h' E). apply same_states_refl. Qed.

Lemma get_same_heap self t h h' : heap_of (get self t h) = Some h' → h' = h.
Proof.
  unfold get. destruct (cells h !! ocell self) as [pc|]; [|done].
  destruct (st pc); [destruct t|..]; by intros [= <-].
Qed.

Lemma quiet_get self t : quiet (get self t).
Proof. apply quiet_same_heap, get_same_heap. Qed.

Lemma quiet_getorelse self d : quiet (getorelse self d).
Proof.
  apply quiet_same_heap. intros h h'. unfold getorelse, try.
  pose proof (get_same_heap self (Some 0) h) as H.
  destruct (get self (Some 0) h); simpl in *; intros [= <-]; auto.
Qed.

Lemma quiet_issuccess self : quiet (issuccess self).
Proof. apply quiet_same_heap. intros h h'. rewrite issuccess_spec. by intros [= <-]. Qed.

Lemma quiet_isfailure self : quiet (isfailure self).
Proof.
  apply quiet_bind; [apply quiet_issuccess|].
  intros [b|]; apply quiet_ret.
Qed.

Lemma quiet_future self : quiet (future self).
Proof. apply quiet_same_cells. by intros h h' [= <-]. Qed.

Lemma quiet_init : quiet init.
Proof. intros h h' [= <-]. apply (same_states_alloc h). Qed.

(** The four callables that write to [f] raise when [f] is a future. *)
Definition writes_to (f : obj) (fn : responder) : Prop :=
  fn = OnsuccessRespond (BoundSetvalue f) ∨
  fn = OnsuccessRespond (UieSetvalue f) ∨
  fn = OnfailureRespond (BoundSetexception f) ∨
  fn = OnfailureRespond (UieSetexception f).

Lemma write_to_future_same_heap fire f fn fut h h' :
  oclass f = FutureC → writes_to f fn →
  heap_of (apply_responder fire fn fut h) = Some h' → h' = h.
Proof.
  intros Hf Hw. unfold apply_responder.
  destruct Hw as [-> | [-> | [-> | ->]]];
    unfold bind, assert_isdefined; destruct (isdefined fut h); simpl;
    try (by intros [= <-]);
    pose proof (get_same_heap fut None h) as H;
    destruct (get fut None h) as [v h1|e h1|h1|s]; simpl in *; try done;
    specialize (H h1 eq_refl); subst h1;
    unfold try, bind, dot_setvalue, dot_setexception; rewrite ?Hf; simpl;
    by intros [= <-].
Qed.

Lemma quiet_respond_write_to_future n f fn other :
  oclass f = FutureC → writes_to f fn → quiet (respond (run n) other fn).
Proof.
  intros Hf Hw. apply quiet_bind; [|intros; apply quiet_ret].
  intros h h'. unfold add_done_callback.
  destruct (cells h !! ocell other) as [pc|]; [|done].
  destruct (defined (st pc)).
  - unfold done_callback. simpl. destruct n as [|n]; [done|]. simpl.
    pose proof (write_to_future_same_heap (run n) f fn other h) as H.
    destruct (apply_responder (run n) fn other h); simpl in *;
      intros [= <-]; rewrite H; auto using same_states_refl.
  - intros [= <-]. by apply same_states_alter.
Qed.

Lemma respond_returns_self fire self fn h r h' :
  respond fire self fn h = Ret r h' → r = self.
Proof.
  unfold respond, bind, ret.
  destruct (add_done_callback _ _ _ _); by intros [= <-].
Qed.

Lemma respond_pending_same_states fire f fn h h' :
  state_of h (ocell f) = Some Pending →
  heap_of (respond fire f fn h) = Some h' → same_states h h'.
Proof.
  unfold state_of, respond, bind, add_done_callback.
  destruct (cells h !! ocell f) as [pc|]; [|done]. simpl. intros [= ->]. simpl.
  intros [= <-]. by apply same_states_alter.
Qed.

Lemma bind_same_states {A B} (m : M A) (k : A → M B) h h' :
  (∀ h1, heap_of (m h) = Some h1 → same_states h h1) →
  (∀ a h1 h2, m h = Ret a h1 → heap_of (k a h1) = Some h2 → same_states h1 h2) →
  heap_of (bind m k h) = Some h' → same_states h h'.
Proof.
  intros Hm Hk. unfold bind.
  destruct (m h) as [a h1|e h1|h1|s] eqn:E; simpl in *; intros E'; auto.
  eapply same_states_trans; [by apply Hm|]. by eapply Hk.
Qed.

Lemma transform_pending_same_states fire f fn h h' :
  state_of h (ocell f) = Some Pending →
  heap_of (transform fire f fn h) = Some h' → same_states h h'.
Proof.
  intros Hp. unfold transform. apply bind_same_states.
  - apply quiet_init.
  - intros p h1 h2 [= <- <-]. apply bind_same_states.
    + intros h3. apply respond_pending_same_states. by apply (same_states_alloc h).
    + intros. by eapply quiet_ret.
Qed.

Lemma pending_future_op n f op h h' :
  oclass f = FutureC → state_of h (ocell f) = Some Pending →
  heap_of (do_op (run n) f op h) = Some h' → same_states h h'.
Proof.
  intros Hf Hp.
  assert (∀ m : M obj, (∀ h1, heap_of (m h) = Some h1 → same_states h h1) →
          heap_of ((m ;; ret tt) h) = Some h' → same_states h h') as Hdrop.
  { intros m Hm. apply bind_same_states; [done|]. intros. by eapply quiet_ret. }
  destruct op; simpl.
  - unfold dot_setvalue. rewrite Hf. intros [= <-]. apply same_states_refl.
  - unfold dot_setexception. rewrite Hf. intros [= <-]. apply same_states_refl.
  - apply (quiet_bind (get f timeout) (λ _, ret tt)); auto using quiet_get, quiet_ret.
  - apply (quiet_bind (getorelse f default) (λ _, ret tt)); auto using quiet_getorelse, quiet_ret.
  - apply (quiet_bind (issuccess f) (λ _, ret tt)); auto using quiet_issuccess, quiet_ret.
  - apply (quiet_bind (isfailure f) (λ _, ret tt)); auto using quiet_isfailure, quiet_ret.
  - apply (quiet_bind (future f) (λ _, ret tt)); auto using quiet_future, quiet_ret.
  - apply Hdrop. intros h1. by apply respond_pending_same_states.
  - apply Hdrop. intros h1. by apply respond_pending_same_states.
  - apply Hdrop. intros h1. by apply respond_pending_same_states.
  - apply Hdrop. intros hx. unfold proxyto. apply bind_same_states.
    + intros h1. by apply respond_pending_same_states.
    + intros r h1 h2 E. assert (r = f ∧ same_states h h1) as [-> Hs].
      { pose proof (respond_pending_same_states (run n) f
                      (OnsuccessRespond (BoundSetvalue other)) h h1 Hp) as H.
        unfold onsuccess in E. rewrite E in H. split; [|by apply H].
        by eapply respond_returns_self. }
      apply respond_pending_same_states. by apply Hs.
  - apply Hdrop. intros hx. unfold update. apply bind_same_states; [|intros; by eapply quiet_ret].
    apply (quiet_bind (onsuccess (run n) other (BoundSetvalue f))
             (λ r, onfailure (run n) r (BoundSetexception f))).
    + apply quiet_respond_write_to_future with f; [done|]. by left.
    + intros r. apply quiet_respond_write_to_future with f; [done|]. by right; right; left.
  - apply Hdrop. intros hx. unfold updateifempty. apply bind_same_states; [|intros; by eapply quiet_ret].
    apply (quiet_bind (onsuccess (run n) other (UieSetvalue f))
             (λ r, onfailure (run n) r (UieSetexception f))).
    + apply quiet_respond_write_to_future with f; [done|]. by right; left.
    + intros r. apply quiet_respond_write_to_future with f; [done|]. by right; right; right.
  - apply Hdrop. intros h1. by apply transform_pending_same_states.
  - apply Hdrop. intros h1. by apply transform_pending_same_states.
  - apply Hdrop. intros h1. by apply transform_pending_same_states.
  - apply Hdrop. intros h1. by apply transform_pending_same_states.
  - apply Hdrop. intros h1. by apply transform_pending_same_states.
Qed.

Lemma mono_issuccess self : mono (issuccess self).
Proof. apply mono_same_cells. intros h h'. rewrite issuccess_spec. by intros [= <-]. Qed.

Lemma mono_isfailure self : mono (isfailure self).
Proof. apply mono_bind; [apply mono_issuccess|]. intros [b|]; apply mono_ret. Qed.

Lemma mono_getorelse self d : mono (getorelse self d).
Proof. apply mono_try; [apply mono_get|intros; apply mono_ret]. Qed.

Lemma mono_do_op n f op : mono (do_op (run n) f op).
Proof.
  destruct op; simpl; (apply mono_bind; [|intros; apply mono_ret]);
    unfold andthen, map, filter;
    eauto using mono_run, mono_dot_setvalue, mono_dot_setexception, mono_get,
      mono_future, mono_respond, mono_onsuccess, mono_onfailure, mono_proxyto,
      mono_update, mono_updateifempty, mono_transform, mono_flatmap,
      mono_issuccess, mono_isfailure, mono_getorelse.
Qed.

(** C7: [setvalue] and [setexception] on a future raise [AttributeError]
    and change nothing; every read through the future is the read of the
    promise it is bound to; and nothing that is called on the future changes
    the state of that promise. *)
Theorem future_is_read_only (n : nat) (f p : obj) (h : heap) :
  oclass f = FutureC → ocell f = ocell p →
  (∀ v, dot_setvalue (run n) f v h =
        Raise (AttributeError (Lit "Futures are read only; Promises are writable")) h) ∧
  (∀ e, dot_setexception (run n) f e h =
        Raise (AttributeError (Lit "Futures are read only; Promises are writable")) h) ∧
  (∀ t, get f t h = get p t h) ∧
  (∀ d, getorelse f d h = getorelse p d h) ∧
  isdefined f h = isdefined p h ∧
  issuccess f h = issuccess p h ∧
  isfailure f h = isfailure p h ∧
  (∀ op h' s, heap_of (do_op (run n) f op h) = Some h' →
              state_of h (ocell p) = Some s → state_of h' (ocell p) = Some s).
Proof.
  intros Hf Hc. repeat split.
  - intros v. unfold dot_setvalue. by rewrite Hf.
  - intros e. unfold dot_setexception. by rewrite Hf.
  - intros t. unfold get. by rewrite Hc.
  - intros d. unfold getorelse, try, get. by rewrite Hc.
  - unfold isdefined. by rewrite Hc.
  - by rewrite !issuccess_spec, Hc.
  - unfold isfailure, bind. by rewrite !issuccess_spec, Hc.
  - intros op h' s Hh Hs. rewrite <- Hc in *.
    destruct (defined s) eqn:D.
    + eapply resolved_for_good; eauto using mono_do_op.
    + destruct s; try done. eapply pending_future_op; eauto.
Qed.

Lemma future_is_read_only_witness :
  let p := Obj 0 0 PromiseC in
  let f := Obj 1 0 FutureC in
  let h := Heap [PCell Pending [] false] [] [] 2 [] [] 0 in
  (∀ v, dot_setvalue (run 3) f v h =
        Raise (AttributeError (Lit "Futures are read only; Promises are writable")) h) ∧
  (∀ e, dot_setexception (run 3) f e h =
        Raise (AttributeError (Lit "Futures are read only; Promises are writable")) h) ∧
  (∀ t, get f t h = get p t h) ∧
  (∀ d, getorelse f d h = getorelse p d h) ∧
  isdefined f h = isdefined p h ∧
  issuccess f h = issuccess p h ∧
  isfailure f h = isfailure p h ∧
  (∀ op h' s, heap_of (do_op (run 3) f op h) = Some h' →
              state_of h (ocell p) = Some s → state_of h' (ocell p) = Some s).
Proof.
  apply (future_is_read_only 3 (Obj 1 0 FutureC) (Obj 0 0 PromiseC)); reflexivity.
Defined.

(** ** Symbolic execution in a heap with named cells *)

Lemma lookup_new_plus {A} (l s : list A) k : (l ++ s) !! (length l + k) = s !! k.
Proof. rewrite lookup_app_r by lia. f_equal. lia. Qed.

Lemma alter_new_plus {A} (f : A → A) (l s : list A) k :
  alter f (length l + k) (l ++ s) = l ++ alter f k s.
Proof. rewrite alter_app_r_alt by lia. f_equal. f_equal. lia. Qed.

Lemma run_S n fn fut : run (S n) fn fut = apply_responder (run n) fn fut.
Proof. reflexivity. Qed.

(** From here on [run] unfolds by [run_S] only. *)
Opaque run.

Ltac use_hyps :=
  repeat match goal with
    | H : cells ?h !! ?c = Some ?pc |- context [(cells ?h ++ _) !! ?c] =>
        rewrite (lookup_old _ _ _ _ H)
    | H : cells ?h !! ?c = Some ?pc |- context [alter _ ?c (cells ?h ++ _)] =>
        rewrite (alter_old _ _ _ _ _ H)
    | H : cells ?h !! ?c = Some ?pc |- context [cells ?h !! ?c] => rewrite H
    | H : st ?pc = _ |- context [st ?pc] => rewrite H
    | H : cbs ?pc = _ |- context [cbs ?pc] => rewrite H
    | H : lck ?pc = _ |- context [lck ?pc] => rewrite H
    | H : oclass ?o = _ |- context [oclass ?o] => rewrite H
    end.

Ltac sym1 :=
  first
    [ progress munfold
    | progress unfold done_callback, call_tfun, call_kfun, call_vfun, call_efun,
        update_with, apply_client, unpack2
    | rewrite run_S
    | progress cbn [apply_responder invoke_callbacks]
    | progress simpl
    | rewrite alter_new
    | rewrite lookup_new
    | rewrite alter_new_plus
    | rewrite lookup_new_plus
    | rewrite <- app_assoc
    | rewrite length_app
    | rewrite list_lookup_alter_eq
    | rewrite list_lookup_alter_ne by (done || congruence || lia)
    | rewrite length_alter
    | rewrite lookup_app_l by (rewrite ?length_alter; lia)
    | rewrite alter_app_l by (rewrite ?length_alter; lia)
    | rewrite lookup_app_r by (rewrite ?length_alter; lia)
    | rewrite alter_app_r_alt by (rewrite ?length_alter; lia)
    | rewrite Nat.sub_diag
    | rewrite Nat.add_sub'
    | progress use_hyps ].

Ltac sym := repeat sym1.

(** ** [map] and [filter] *)

Lemma flatmap_failed n p k h pc e :
  cells h !! ocell p = Some pc → st pc = Failure e →
  flatmap (run (S n)) p k h =
    Ret (Obj (next_oid h) (length (cells h)) PromiseC)
        (with_next_oid S (with_cells (λ l, l ++ [PCell (Failure e) [] false]) h)).
Proof. intros H Hst. sym. reflexivity. Qed.

Lemma map_succeeded n p f h pc v :
  cells h !! ocell p = Some pc → st pc = Success v →
  ∃ h', map (run (2 + n)) p f h =
          Ret (Obj (next_oid h) (length (cells h)) PromiseC) h' ∧
        state_of h' (length (cells h)) = Some (mapped f (Success v)) ∧
        calls h' = calls h ++ [(fname f, v)].
Proof.
  intros H Hst. unfold map, mapped.
  destruct (fbody f v) as [r|e] eqn:E; eexists; (split; [sym; rewrite E; sym; reflexivity|]);
    unfold state_of; sym; done.
Qed.

Lemma filter_succeeded n p f h pc v :
  cells h !! ocell p = Some pc → st pc = Success v →
  ∃ h', filter (run (2 + n)) p f h =
          Ret (Obj (next_oid h) (length (cells h)) PromiseC) h' ∧
        state_of h' (length (cells h)) = Some (filtered (lists h) f (Success v)) ∧
        calls h' = calls h ++ [(fname f, v)].
Proof.
  intros H Hst. unfold filter, filtered.
  destruct (fbody f v) as [r|e] eqn:E; [destruct (truthy (lists h) r) eqn:T|];
    eexists; (split; [sym; rewrite E; sym; rewrite ?T; sym; reflexivity|]);
    unfold state_of; sym; done.
Qed.

Lemma flatmap_pending fire p k h pc :
  cells h !! ocell p = Some pc → st pc = Pending →
  flatmap fire p k h =
    let q := Obj (next_oid h) (length (cells h)) PromiseC in
    Ret q (with_next_oid S
             (with_cells (λ l, alter (add_cb (TransformRespond q (FlatmapTransform k), p))
                                     (ocell p) l ++ [PCell Pending [] false]) h)).
Proof. intros H Hst. sym. reflexivity. Qed.

Lemma fail_then_flatmap n p q k e h pc pcq :
  oclass p = PromiseC → oclass q = PromiseC → ocell q ≠ ocell p →
  cells h !! ocell p = Some pc → st pc = Pending → lck pc = false →
  cbs pc = [(TransformRespond q (FlatmapTransform k), p)] →
  cells h !! ocell q = Some pcq → st pcq = Pending → lck pcq = false →
  cbs pcq = [] →
  ∃ h', setexception (run (S n)) p e h = Ret p h' ∧
        state_of h' (ocell p) = Some (Failure e) ∧
        state_of h' (ocell q) = Some (Failure e) ∧
        calls h' = calls h.
Proof.
  intros Hp Hq Hne H Hst Hl Hc H' Hst' Hl' Hc'.
  eexists. split; [sym; reflexivity|].
  unfold state_of. sym. done.
Qed.

Lemma succeed_then_map n p q f v h pc pcq :
  oclass p = PromiseC → oclass q = PromiseC → ocell q ≠ ocell p →
  cells h !! ocell p = Some pc → st pc = Pending → lck pc = false →
  cbs pc = [(TransformRespond q (FlatmapTransform (MapLam f)), p)] →
  cells h !! ocell q = Some pcq → st pcq = Pending → lck pcq = false →
  cbs pcq = [] →
  ∃ h', setvalue (run (2 + n)) p v h = Ret p h' ∧
        state_of h' (ocell p) = Some (Success v) ∧
        state_of h' (ocell q) = Some (mapped f (Success v)) ∧
        calls h' = calls h ++ [(fname f, v)].
Proof.
  intros Hp Hq Hne H Hst Hl Hc H' Hst' Hl' Hc'. unfold mapped.
  assert (ocell q < length (cells h)) by by eapply lookup_lt_Some.
  assert (ocell p < length (cells h)) by by eapply lookup_lt_Some.
  destruct (fbody f v) as [r|e] eqn:E; eexists;
    (split; [sym; rewrite E; sym; reflexivity|]); unfold state_of; sym; done.
Qed.

Lemma succeed_then_filter n p q f v h pc pcq :
  oclass p = PromiseC → oclass q = PromiseC → ocell q ≠ ocell p →
  cells h !! ocell p = Some pc → st pc = Pending → lck pc = false →
  cbs pc = [(TransformRespond q (FlatmapTransform (FilterLam f)), p)] →
  cells h !! ocell q = Some pcq → st pcq = Pending → lck pcq = false →
  cbs pcq = [] →
  ∃ h', setvalue (run (2 + n)) p v h = Ret p h' ∧
        state_of h' (ocell p) = Some (Success v) ∧
        state_of h' (ocell q) = Some (filtered (lists h) f (Success v)) ∧
        calls h' = calls h ++ [(fname f, v)].
Proof.
  intros Hp Hq Hne H Hst Hl Hc H' Hst' Hl' Hc'. unfold filtered.
  assert (ocell q < length (cells h)) by by eapply lookup_lt_Some.
  assert (ocell p < length (cells h)) by by eapply lookup_lt_Some.
  destruct (fbody f v) as [r|e] eqn:E; [destruct (truthy (lists h) r) eqn:T|];
    eexists; (split; [sym; rewrite E; sym; rewrite ?T; sym; reflexivity|]);
    unfold state_of; sym; done.
Qed.

(** The heap in which [p.flatmap(k)] has just registered on the pending,
    callback-free promise [p] meets what the two lemmas above ask for. *)
Lemma flatmap_fresh fire p k h :
  cells h !! ocell p = Some (PCell Pending [] false) →
  ∃ q h1 pc pcq,
    flatmap fire p k h = Ret q h1 ∧
    oclass q = PromiseC ∧ ocell q ≠ ocell p ∧ state_of h (ocell q) = None ∧
    cells h1 !! ocell p = Some pc ∧ st pc = Pending ∧ lck pc = false ∧
    cbs pc = [(TransformRespond q (FlatmapTransform k), p)] ∧
    cells h1 !! ocell q = Some pcq ∧ st pcq = Pending ∧ lck pcq = false ∧
    cbs pcq = [] ∧
    calls h1 = calls h ∧ lists h1 = lists h.
Proof.
  intros H. assert (ocell p < length (cells h)) by by eapply lookup_lt_Some.
  set (q := Obj (next_oid h) (length (cells h)) PromiseC).
  exists q, (with_next_oid S
    (with_cells (λ l, alter (add_cb (TransformRespond q (FlatmapTransform k), p))
                            (ocell p) l ++ [PCell Pending [] false]) h)),
    (PCell Pending [(TransformRespond q (FlatmapTransform k), p)] false),
    (PCell Pending [] false).
  split; [by erewrite flatmap_pending|]. simpl.
  split; [done|]. split; [lia|]. split.
  { unfold state_of. by rewrite lookup_ge_None_2. }
  split; [by sym|]. do 3 (split; [done|]).
  split; [by sym|]. done.
Qed.

(** C3: on a promise [p] that has failed, or that fails after the call,
    [p.map(f)] never applies [f] and the derived promise fails with [p]'s
    exception; in general the derived promise ends as the promise
    [Promise.value(f(v))] that [flatmap] adopts: resolved to [f(v)], or
    failed with what [f(v)] raised. *)
Theorem map_propagates_failure (n : nat) (p : obj) (f : clientfn) (h : heap) :
  (∀ e, state_of h (ocell p) = Some (Failure e) →
     ∃ q h', map (run (1 + n)) p f h = Ret q h' ∧
             state_of h (ocell q) = None ∧
             state_of h' (ocell q) = Some (Failure e) ∧
             calls h' = calls h) ∧
  (oclass p = PromiseC → cells h !! ocell p = Some (PCell Pending [] false) →
     ∃ q h1, map (run n) p f h = Ret q h1 ∧
             state_of h (ocell q) = None ∧
             state_of h1 (ocell q) = Some Pending ∧
             calls h1 = calls h ∧
             (∀ e, ∃ h2, setexception (run (1 + n)) p e h1 = Ret p h2 ∧
                         state_of h2 (ocell q) = Some (Failure e) ∧
                         calls h2 = calls h) ∧
             (∀ v, ∃ h2, setvalue (run (2 + n)) p v h1 = Ret p h2 ∧
                         state_of h2 (ocell q) = Some (mapped f (Success v)) ∧
                         calls h2 = calls h ++ [(fname f, v)])) ∧
  (∀ s, state_of h (ocell p) = Some s → defined s = true →
     ∃ q h', map (run (2 + n)) p f h = Ret q h' ∧
             state_of h (ocell q) = None ∧
             state_of h' (ocell q) = Some (mapped f s)) ∧
  (∀ fire, map fire p f = flatmap fire p (MapLam f)) ∧
  (∀ e, mapped f (Failure e) = Failure e).
Proof.
  repeat split.
  - intros e Hs. unfold state_of in Hs.
    destruct (cells h !! ocell p) as [pc|] eqn:E; [|done]. simpl in Hs.
    injection Hs as Hs. unfold map.
    eexists _, _. split; [by erewrite flatmap_failed|]. simpl.
    unfold state_of. sym. by rewrite lookup_ge_None_2.
  - intros Hp Hc. unfold map.
    destruct (flatmap_fresh (run n) p (MapLam f) h Hc)
      as (q & h1 & pc & pcq & E & Hq & Hne & Hnew & H1 & ? & ? & ? & H2 & ? & ? & ? & Hcalls & _).
    exists q, h1. split; [done|]. split; [done|]. split.
    { unfold state_of. rewrite H2. simpl. by f_equal. }
    split; [done|]. split.
    + intros e. destruct (fail_then_flatmap n p q (MapLam f) e h1 pc pcq)
        as (h2 & E2 & _ & Hq2 & Hc2); try done.
      exists h2. split; [exact E2|]. split; [exact Hq2|]. congruence.
    + intros v. destruct (succeed_then_map n p q f v h1 pc pcq)
        as (h2 & E2 & _ & Hq2 & Hc2); try done.
      exists h2. split; [exact E2|]. split; [exact Hq2|]. congruence.
  - intros s Hs Hd. unfold state_of in Hs.
    destruct (cells h !! ocell p) as [pc|] eqn:E; [|done]. simpl in Hs.
    injection Hs as Hs. destruct s as [|v|e]; [done|..].
    + destruct (map_succeeded n p f h pc v E Hs) as (h' & ? & ? & ?).
      eexists _, h'. split; [done|]. simpl. split; [|done].
      unfold state_of. by rewrite lookup_ge_None_2.
    + unfold map. eexists _, _. split; [by erewrite (flatmap_failed (S n))|]. simpl.
      unfold state_of. sym. by rewrite lookup_ge_None_2.
Qed.

Lemma map_propagates_failure_witness :
  let p := Obj 0 0 PromiseC in
  let f := ClientFn "f" (λ v, Ok (VTuple [v; v])) in
  let e := ClientError "boom" in
  let h := Heap [PCell (Failure e) [] false] [] [] 1 [] [] 0 in
  ∃ q h', map (run 1) p f h = Ret q h' ∧
          state_of h (ocell q) = None ∧
          state_of h' (ocell q) = Some (Failure e) ∧
          calls h' = calls h.
Proof.
  apply (proj1 (map_propagates_failure 0 (Obj 0 0 PromiseC)
                  (ClientFn "f" (λ v, Ok (VTuple [v; v])))
                  (Heap [PCell (Failure (ClientError "boom")) [] false]
                        [] [] 1 [] [] 0))).
  reflexivity.
Defined.

Lemma filtered_success ls f s w :
  filtered ls f s = Success w ↔
  s = Success w ∧ ∃ r, fbody f w = Ok r ∧ truthy ls r = true.
Proof.
  unfold filtered. split.
  - destruct s as [|v|e]; try done.
    destruct (fbody f v) as [r|e] eqn:E; [|done].
    destruct (truthy ls r) eqn:T; [|done].
    intros [= ->]. eauto.
  - intros [-> (r & -> & ->)]. done.
Qed.

(** C8: the promise derived by [p.filter(fn)] succeeds, with [p]'s value,
    exactly when [p] succeeds and [fn] of that value is truthy; when [fn]
    gives a falsy result it fails with the [MiraiError] whose message is
    ["Value {} was filtered out"] formatted with the value; when [p] fails
    it fails with the same exception.  This holds for a [p] resolved before
    the call and for a [p] resolved after it. *)
Theorem filter_outcome (n : nat) (p : obj) (f : clientfn) (h : heap) :
  (∀ s, state_of h (ocell p) = Some s → defined s = true →
     ∃ q h', filter (run (2 + n)) p f h = Ret q h' ∧
             state_of h (ocell q) = None ∧
             state_of h' (ocell q) = Some (filtered (lists h) f s)) ∧
  (oclass p = PromiseC → cells h !! ocell p = Some (PCell Pending [] false) →
     ∃ q h1, filter (run n) p f h = Ret q h1 ∧
             state_of h (ocell q) = None ∧
             state_of h1 (ocell q) = Some Pending ∧
             (∀ v, ∃ h2, setvalue (run (2 + n)) p v h1 = Ret p h2 ∧
                         state_of h2 (ocell q) =
                           Some (filtered (lists h) f (Success v))) ∧
             (∀ e, ∃ h2, setexception (run (1 + n)) p e h1 = Ret p h2 ∧
                         state_of h2 (ocell q) = Some (Failure e))) ∧
  (∀ ls s w, filtered ls f s = Success w ↔
             s = Success w ∧ ∃ r, fbody f w = Ok r ∧ truthy ls r = true) ∧
  (∀ ls v r, fbody f v = Ok r → truthy ls r = false →
             filtered ls f (Success v) =
               Failure (MiraiError (Format "Value {} was filtered out" v))) ∧
  (∀ ls e, filtered ls f (Failure e) = Failure e).
Proof.
  split; [|split; [|split; [|split]]].
  - intros s Hs Hd. unfold state_of in Hs.
    destruct (cells h !! ocell p) as [pc|] eqn:E; [|done]. simpl in Hs.
    injection Hs as Hs. destruct s as [|v|e]; [done|..].
    + destruct (filter_succeeded n p f h pc v E Hs) as (h' & ? & ? & ?).
      eexists _, h'. split; [done|]. simpl. split; [|done].
      unfold state_of. by rewrite lookup_ge_None_2.
    + unfold filter. eexists _, _. split; [by erewrite (flatmap_failed (S n))|]. simpl.
      unfold state_of. sym. by rewrite lookup_ge_None_2.
  - intros Hp Hc. unfold filter.
    destruct (flatmap_fresh (run n) p (FilterLam f) h Hc)
      as (q & h1 & pc & pcq & E & Hq & Hne & Hnew & H1 & ? & ? & ? & H2 & ? & ? & ? & Hcalls & Hlists).
    exists q, h1. split; [done|]. split; [done|]. split.
    { unfold state_of. rewrite H2. simpl. by f_equal. }
    split.
    + intros v. destruct (succeed_then_filter n p q f v h1 pc pcq)
        as (h2 & E2 & _ & Hq2 & Hc2); try done.
      exists h2. split; [exact E2|]. by rewrite <- Hlists.
    + intros e. destruct (fail_then_flatmap n p q (FilterLam f) e h1 pc pcq)
        as (h2 & E2 & _ & Hq2 & Hc2); try done.
      exists h2. split; [exact E2|]. exact Hq2.
  - intros ls s w. apply filtered_success.
  - intros ls v r E T. unfold filtered. by rewrite E, T.
  - done.
Qed.

Lemma filter_outcome_witness :
  let p := Obj 0 0 PromiseC in
  let f := ClientFn "positive" (λ v, match v with
                                      | VInt z => Ok (VBool (0 <? z)%Z)
                                      | _ => Err (TypeError (Lit "not a number"))
                                      end) in
  let h := Heap [PCell (Success (VInt (-3))) [] false] [] [] 1 [] [] 0 in
  ∃ q h', filter (run 2) p f h = Ret q h' ∧
          state_of h (ocell q) = None ∧
          state_of h' (ocell q) =
            Some (Failure (MiraiError (Format "Value {} was filtered out" (VInt (-3))))).
Proof.
  apply (proj1 (filter_outcome 0 (Obj 0 0 PromiseC)
    (ClientFn "positive" (λ v, match v with
                               | VInt z => Ok (VBool (0 <? z)%Z)
                               | _ => Err (TypeError (Lit "not a number"))
                               end))
    (Heap [PCell (Success (VInt (-3))) [] false] [] [] 1 [] [] 0))
    (Success (VInt (-3)))); reflexivity.
Defined.

(** ** [select] *)

Ltac bounds :=
  repeat match goal with
    | H : cells ?h !! ?c = Some _ |- _ =>
        lazymatch goal with
        | _ : c < length (cells h) |- _ => fail
        | _ => assert (c < length (cells h)) by exact (lookup_lt_Some _ _ _ H)
        end
    end.

Ltac symb := bounds; sym.


(** What the lambda of [select] does when it is applied: it resolves [p]
    if [p] is pending, and leaves every other cell as it is. *)
Lemma select_lam_fires n p f fs fut h pcp :
  oclass p = PromiseC →
  cells h !! ocell p = Some pcp → lck pcp = false → cbs pcp = [] →
  ∃ h', apply_responder (run (1 + n)) (SelectLam p f fs) fut h = Ret tt h' ∧
        cells h' !! ocell p =
          Some (PCell (if defined (st pcp) then st pcp else selected f fs) [] false) ∧
        (∀ c pc, c ≠ ocell p → cells h !! c = Some pc → cells h' !! c = Some pc).
Proof.
  intros Hp H Hl Hc.
  assert (ocell p < length (cells h)) by by eapply lookup_lt_Some.
  destruct pcp as [s cb l]. simpl in *. subst cb l.
  destruct s as [|v|e]; simpl.
  - eexists. split; [sym; reflexivity|]. split; [by sym|].
    intros c pc Hne Hc. symb. done.
  - eexists. split; [sym; reflexivity|]. split; [by sym|].
    intros c pc Hne Hc. symb. done.
  - eexists. split; [sym; reflexivity|]. split; [by sym|].
    intros c pc Hne Hc. symb. done.
Qed.

Lemma select_cbs_run n p fs l h w :
  oclass p = PromiseC →
  cells h !! ocell p = Some (PCell w [] false) →
  ∃ h', invoke_callbacks (run (2 + n)) (sel_cbs p fs l) h = Ret tt h' ∧
        cells h' !! ocell p =
          Some (PCell (if defined w then w
                       else match l with f :: _ => selected f fs | [] => w end)
                      [] false) ∧
        (∀ c pc, c ≠ ocell p → cells h !! c = Some pc → cells h' !! c = Some pc).
Proof.
  intros Hp. revert h w. induction l as [|f l IH]; intros h w H.
  - exists h. split; [done|]. split; [by destruct w|done].
  - simpl. unfold done_callback. simpl. rewrite run_S.
    destruct (select_lam_fires n p f fs f h _ Hp H eq_refl eq_refl)
      as (h1 & E1 & Hp1 & Hf1). simpl in *. rewrite E1.
    destruct (IH h1 _ Hp1) as (h2 & E2 & Hp2 & Hf2).
    exists h2. split; [done|]. split; [|by auto].
    rewrite Hp2. by destruct w.
Qed.

Lemma on_cell_app c l1 l2 : on_cell c (l1 ++ l2) = on_cell c l1 ++ on_cell c l2.
Proof. unfold on_cell. apply List.filter_app. Qed.

Lemma sel_cbs_app p fs l1 l2 :
  sel_cbs p fs (l1 ++ l2) = sel_cbs p fs l1 ++ sel_cbs p fs l2.
Proof. unfold sel_cbs. apply fmap_app. Qed.

Lemma find_app_single {A} (P : A → bool) l x :
  List.find P (l ++ [x]) =
    match List.find P l with
    | Some y => Some y
    | None => if P x then Some x else None
    end.
Proof. induction l as [|y l IH]; simpl; [done|]. by destruct (P y). Qed.

Lemma find_on_cell c l :
  List.find (λ g, ocell g =? c) l = head (on_cell c l).
Proof.
  induction l as [|f l IH]; simpl; [done|]. by destruct (ocell f =? c).
Qed.

(** One round of the loop of [select]. *)
Lemma sel_register_step n p fs pre f res w h :
  oclass p = PromiseC → f ∈ fs →
  sel_inv p fs pre res w h →
  ∃ h', respond (run (2 + n)) f (SelectLam p f fs) h = Ret f h' ∧
        sel_inv p fs (pre ++ [f]) res
          (if defined w then w else if res f then selected f fs else w) h'.
Proof.
  intros Hp Hf [Hw Hin].
  destruct (Hin f Hf) as (Hne & pc & Hc & Hl & Hd & Hcb).
  unfold respond, bind, add_done_callback. rewrite Hc.
  destruct (defined (st pc)) eqn:D.
  - (* resolved: the lambda runs at once *)
    unfold done_callback. simpl. rewrite run_S.
    destruct (select_lam_fires n p f fs f h _ Hp Hw eq_refl eq_refl)
      as (h1 & E1 & Hp1 & Hf1). simpl in *. rewrite E1.
    exists h1. split; [done|]. split.
    + rewrite Hp1. rewrite <- Hd. by destruct (defined w).
    + intros g Hg. destruct (Hin g Hg) as (Hne' & pc' & Hc' & Hl' & Hd' & Hcb').
      split; [done|]. exists pc'. split; [by apply Hf1|].
      split; [done|]. split; [done|]. intros Hpend.
      rewrite on_cell_app, (Hcb' Hpend). simpl.
      destruct (ocell f =? ocell g) eqn:Eq; [|by rewrite app_nil_r].
      apply Nat.eqb_eq in Eq. rewrite Eq in Hc. simplify_eq.
      by rewrite Hpend in D.
  - (* pending: the lambda is appended *)
    eexists. split; [done|]. split.
    + simpl. rewrite list_lookup_alter_ne by done. rewrite Hw.
      rewrite <- Hd. by destruct (defined w).
    + intros g Hg. destruct (Hin g Hg) as (Hne' & pc' & Hc' & Hl' & Hd' & Hcb').
      split; [done|]. simpl.
      destruct (decide (ocell f = ocell g)) as [Eq|Eq].
      * rewrite <- Eq, list_lookup_alter_eq, Hc. simpl.
        eexists. split; [done|]. simpl. rewrite Eq in Hc. simplify_eq.
        split; [done|]. split; [done|]. intros Hpend.
        rewrite on_cell_app, sel_cbs_app, (Hcb Hpend). simpl.
        by rewrite Eq, Nat.eqb_refl.
      * rewrite list_lookup_alter_ne by done. exists pc'.
        split; [done|]. split; [done|]. split; [done|]. intros Hpend.
        rewrite on_cell_app, (Hcb' Hpend). simpl.
        apply Nat.eqb_neq in Eq. by rewrite Eq, app_nil_r.
Qed.

Lemma select_loop_spec n p fs rest :
  oclass p = PromiseC → (∀ f, f ∈ rest → f ∈ fs) →
  ∀ pre res w h,
    sel_inv p fs pre res w h →
    ∃ h', select_loop (run (2 + n)) p fs rest h = Ret tt h' ∧
          sel_inv p fs (pre ++ rest) res
            (if defined w then w
             else match List.find res rest with
                  | Some f => selected f fs
                  | None => w
                  end) h'.
Proof.
  intros Hp. induction rest as [|f rest IH]; intros Hsub pre res w h Hinv.
  - exists h. split; [done|]. rewrite app_nil_r. by destruct (defined w).
  - destruct (sel_register_step n p fs pre f res w h Hp) as (h1 & E1 & Hinv1);
      [apply Hsub; by left|done|].
    destruct (IH (λ g Hg, Hsub g (list_elem_of_further _ _ _ Hg)) _ _ _ _ Hinv1)
      as (h2 & E2 & Hinv2).
    exists h2. split.
    + cbn [select_loop]. unfold bind at 1. by rewrite E1.
    + rewrite <- app_assoc in Hinv2. cbn [List.find app] in *.
      destruct (defined w) eqn:D; [by rewrite D in Hinv2|].
      destruct (res f) eqn:R; [done|]. by rewrite D in Hinv2.
Qed.

(** Resolving a pending promise whose lock is free: the state is stored
    under the lock, the callbacks run, the lock is released. *)
Lemma resolve_pending fire r h pc h3 :
  oclass (target r) = PromiseC →
  cells h !! ocell (target r) = Some pc → st pc = Pending → lck pc = false →
  invoke_callbacks fire (cbs pc)
    (alter_cell (ocell (target r)) (set_st (outcome_of r))
       (alter_cell (ocell (target r)) (set_lck true) h)) = Ret tt h3 →
  resolve fire r h =
    Ret (target r) (alter_cell (ocell (target r)) (set_lck false) h3).
Proof.
  intros Ho Hc Hst Hl E.
  destruct r as [o v|o e]; simpl in *; unfold dot_setvalue, dot_setexception;
    rewrite Ho; unfold setvalue, setexception, with_lock, finally, isdefined,
      done, bind, set_state; rewrite Hc, Hl; simpl;
    rewrite !list_lookup_alter_eq, Hc; simpl; rewrite Hst; simpl;
    unfold alter_cell, with_cells in *; simpl in *; by rewrite E.
Qed.

Lemma resolve_resolved fire r h pc :
  oclass (target r) = PromiseC →
  cells h !! ocell (target r) = Some pc → defined (st pc) = true →
  lck pc = false →
  resolve fire r h = Raise already_resolved h.
Proof.
  intros Ho Hc Hd Hl.
  destruct r as [o v|o e]; simpl in *; unfold dot_setvalue, dot_setexception;
    rewrite Ho; eauto using setvalue_resolved, setexception_resolved.
Qed.

(** One resolution of an input after [select] has registered. *)
Lemma sel_resolve_step n p fs res w h r :
  oclass p = PromiseC → sel_inv p fs fs res w h →
  (defined w = false → ∀ g, g ∈ fs → res g = false) →
  resolves_input fs r →
  ∃ h' res' w',
    (resolve (run (2 + n)) r h = Ret (target r) h' ∨
     resolve (run (2 + n)) r h = Raise already_resolved h') ∧
    sel_inv p fs fs res' w' h' ∧ defined w' = true ∧
    w' = if defined w then w
         else match List.find (λ g, ocell g =? ocell (target r)) fs with
              | Some f => selected f fs
              | None => w
              end.
Proof.
  intros Hp [Hw Hin] Hpend (Ho & f0 & Hf0 & Hcell).
  destruct (Hin f0 Hf0) as (Hne & pc & Hc & Hl & Hd & Hcb).
  rewrite Hcell in Hc, Hne, Hcb.
  destruct (defined (st pc)) eqn:D.
  - (* already resolved *)
    assert (defined w = true) as Dw.
    { destruct (defined w) eqn:Dw; [done|]. rewrite (Hpend eq_refl f0 Hf0) in Hd. done. }
    exists h, res, w. split; [right; by eapply resolve_resolved|].
    split; [done|]. split; [done|]. by rewrite Dw.
  - (* pending: its lambdas run *)
    assert (st pc = Pending) as Hst by by destruct (st pc).
    set (c := ocell (target r)) in *.
    set (h2 := alter_cell c (set_st (outcome_of r)) (alter_cell c (set_lck true) h)).
    assert (cells h2 !! ocell p = Some (PCell w [] false)) as Hw2.
    { unfold h2. simpl. by rewrite !list_lookup_alter_ne. }
    destruct (select_cbs_run n p fs (on_cell c fs) h2 w Hp Hw2)
      as (h3 & E3 & Hp3 & Hf3).
    rewrite <- (Hcb Hst) in E3.
    pose proof (resolve_pending (run (2 + n)) r h pc h3 Ho Hc Hst Hl E3) as E.
    fold c in E.
    set (w' := if defined w then w
               else match on_cell c fs with f :: _ => selected f fs | [] => w end) in *.
    assert (f0 ∈ on_cell c fs) as Hf0c.
    { unfold on_cell. apply list_elem_of_In, List.filter_In.
      split; [by apply list_elem_of_In|]. by apply Nat.eqb_eq. }
    exists (alter_cell c (set_lck false) h3),
           (λ g, if ocell g =? c then true else res g), w'.
    split; [by left|]. split; [|split].
    + split.
      * simpl. by rewrite list_lookup_alter_ne.
      * intros g Hg. destruct (Hin g Hg) as (Hne' & pc' & Hc' & Hl' & Hd' & Hcb').
        split; [done|]. simpl.
        destruct (ocell g =? c) eqn:Eq.
        -- apply Nat.eqb_eq in Eq. rewrite Eq, list_lookup_alter_eq.
           rewrite (Hf3 c (set_st (outcome_of r) (set_lck true pc))); [|done|].
           ++ simpl. eexists. split; [done|]. simpl.
              split; [done|]. split; [by destruct r|]. by destruct r.
           ++ unfold h2. simpl. by rewrite !list_lookup_alter_eq, Hc.
        -- apply Nat.eqb_neq in Eq. rewrite list_lookup_alter_ne by done.
           exists pc'. split; [|done]. apply Hf3; [done|].
           unfold h2. simpl. by rewrite !list_lookup_alter_ne.
    + unfold w'. destruct (defined w) eqn:Dw; [done|].
      destruct (on_cell c fs); [by apply elem_of_nil in Hf0c|done].
    + unfold w'. rewrite find_on_cell. by destruct (on_cell c fs).
Qed.

Lemma sel_resolve_all n p fs rs :
  oclass p = PromiseC → Forall (resolves_input fs) rs →
  ∀ res w h,
    sel_inv p fs fs res w h →
    (defined w = false → ∀ g, g ∈ fs → res g = false) →
    ∃ h', resolve_all (run (2 + n)) rs h = Ret tt h' ∧
          state_of h' (ocell p) =
            Some (if defined w then w
                  else match rs with
                       | [] => w
                       | r :: _ =>
                           match List.find (λ g, ocell g =? ocell (target r)) fs with
                           | Some f => selected f fs
                           | None => w
                           end
                       end).
Proof.
  intros Hp Hrs. induction Hrs as [|r rs Hr Hrs IH]; intros res w h Hinv Hpend.
  - exists h. split; [done|]. destruct Hinv as [Hw _].
    unfold state_of. rewrite Hw. simpl. by destruct (defined w).
  - destruct (sel_resolve_step n p fs res w h r Hp Hinv Hpend Hr)
      as (h1 & res1 & w1 & E1 & Hinv1 & Dw1 & Hw1).
    destruct (IH res1 w1 h1 Hinv1) as (h2 & E2 & Hs2); [by rewrite Dw1|].
    exists h2. split.
    + cbn [resolve_all]. by destruct E1 as [-> | ->].
    + rewrite Hs2, Dw1. by rewrite Hw1.
Qed.

(** C4, as amended: let [fs] be non-empty, every input of [fs] have its
    lock free and, while it is pending, no callback yet, and let [rs] be any
    [setvalue] and [setexception] calls made afterwards on promises of the
    inputs.  [Promise.select(fs)] returns a new promise that is pending
    until an input fires, and that from then on holds the pair of the first
    input to fire and of [fs] without that input, in the order of [fs],
    whether that input succeeded or failed and whatever is resolved
    afterwards.  The first input to fire is the first in [fs] that is
    resolved when [select] is called, if there is one, and else the first in
    [fs] that the first call of [rs] resolves. *)
Theorem select_first_to_fire (n : nat) (fs : list obj) (h : heap)
    (rs : list resolution) :
  fs ≠ [] → Forall (input_ok h) fs → Forall (resolves_input fs) rs →
  ∃ p h1 h2,
    select (run (2 + n)) fs h = Ret p h1 ∧
    state_of h (ocell p) = None ∧
    resolve_all (run (2 + n)) rs h1 = Ret tt h2 ∧
    state_of h2 (ocell p) =
      Some (match first_to_fire h fs rs with
            | Some f => selected f fs
            | None => Pending
            end).
Proof.
  intros Hne Hin Hrs.
  set (p := Obj (next_oid h) (length (cells h)) PromiseC).
  set (res := λ g : obj, done (ocell g) h).
  assert (sel_inv p fs [] res Pending (after_init h)) as Hinv0.
  { split.
    - simpl. by rewrite lookup_new.
    - intros g Hg. rewrite Forall_forall in Hin.
      destruct (Hin g Hg) as (pc & Hc & Hl & Hcb).
      pose proof (lookup_lt_Some _ _ _ Hc). split; [simpl; lia|].
      exists pc. split; [simpl; by apply lookup_old|]. split; [done|].
      split; [unfold res, done; by rewrite Hc|]. done. }
  destruct (select_loop_spec n p fs fs eq_refl (λ f Hf, Hf) [] res Pending _ Hinv0)
    as (h1 & E1 & Hinv1).
  cbn [app defined] in Hinv1.
  set (w1 := match List.find res fs with
             | Some f => selected f fs
             | None => Pending
             end) in *.
  destruct (sel_resolve_all n p fs rs eq_refl Hrs res w1 h1 Hinv1) as (h2 & E2 & Hs2).
  { unfold w1. destruct (List.find res fs) eqn:F; [done|]. intros _ g Hg.
    apply (List.find_none _ _ F). by apply list_elem_of_In. }
  exists p, h1, h2. split; [|split; [|split]].
  - unfold select. unfold bind at 1. rewrite init_spec.
    destruct fs as [|f fs']; [done|]. cbn [length Nat.eqb].
    unfold bind at 1. unfold p in E1 |- *. by rewrite E1.
  - unfold state_of. by rewrite lookup_ge_None_2.
  - done.
  - rewrite Hs2. unfold first_to_fire, w1. fold res.
    destruct (List.find res fs); [done|]. simpl. by destruct rs.
Qed.

Lemma select_first_to_fire_witness :
  let a := Obj 0 0 PromiseC in
  let b := Obj 1 1 PromiseC in
  let h := Heap [PCell Pending [] false; PCell Pending [] false] [] [] 2 [] [] 0 in
  let rs := [Setexception b (ClientError "late"); Setvalue a (VInt 7)] in
  ∃ p h1 h2,
    select (run 2) [a; b] h = Ret p h1 ∧
    state_of h (ocell p) = None ∧
    resolve_all (run 2) rs h1 = Ret tt h2 ∧
    state_of h2 (ocell p) = Some (selected b [a; b]).
Proof.
  apply (select_first_to_fire 0
           [Obj 0 0 PromiseC; Obj 1 1 PromiseC]
           (Heap [PCell Pending [] false; PCell Pending [] false] [] [] 2 [] [] 0)
           [Setexception (Obj 1 1 PromiseC) (ClientError "late");
            Setvalue (Obj 0 0 PromiseC) (VInt 7)]).
  - done.
  - apply List.Forall_cons; [|apply List.Forall_cons; [|apply List.Forall_nil]];
      eexists; (split; [reflexivity|done]).
  - apply List.Forall_cons; [|apply List.Forall_cons; [|apply List.Forall_nil]];
      (split; [reflexivity|]); eexists; (split; [|reflexivity]);
      apply list_elem_of_In; simpl; auto.
Defined.

(** C4 as stated fails on an input that already has a callback: in
    [m = a.map(f); p = Promise.select([a, m]); a.setvalue(1)] the input [a]
    is the first to be resolved, yet [p] holds the pair of [m] and [[a]]:
    the callback of [map], registered on [a] before the one of [select],
    resolves [m], and the callback of [select] on [m] runs first. *)
Lemma select_of_dependent_inputs :
  let a := Obj 0 0 PromiseC in
  let f := ClientFn "f" (λ _, Ok (VInt 101)) in
  let h := Heap [PCell Pending [] false] [] [] 1 [] [] 0 in
  ∃ m h1 p h2 h3,
    map (run 0) a f h = Ret m h1 ∧
    select (run 0) [a; m] h1 = Ret p h2 ∧
    first_to_fire h1 [a; m] [Setvalue a (VInt 1)] = Some a ∧
    setvalue (run 4) a (VInt 1) h2 = Ret a h3 ∧
    state_of h3 (ocell a) = Some (Success (VInt 1)) ∧
    state_of h3 (ocell p) = Some (selected m [a; m]) ∧
    selected m [a; m] ≠ selected a [a; m].
Proof.
  eexists _, _, _, _, _.
  split; [vm_compute; reflexivity|]. split; [vm_compute; reflexivity|].
  split; [vm_compute; reflexivity|]. split; [vm_compute; reflexivity|].
  split; [vm_compute; reflexivity|]. split; [vm_compute; reflexivity|].
  vm_compute. discriminate.
Qed.

(** ** [collect] *)

Ltac use_store :=
  repeat match goal with
    | H : lists ?h !! ?c = Some _ |- context [lists ?h !! ?c] => rewrite H
    | H : boxes ?h !! ?c = Some _ |- context [boxes ?h !! ?c] => rewrite H
    end.

Ltac symc1 :=
  first
    [ progress unfold list_setitem, box_decr, box_get
    | progress use_store
    | sym1 ].

Ltac symc := bounds; repeat symc1.

(** The [onsuccess] closure of [collect] applied to a promise resolved to
    [v]: slot [i] is written, the counter goes down, and at zero [p] is
    resolved to the list unless it is resolved already. *)
Lemma col_onsuccess_fires n xs count i p fut h w pcf v l z :
  oclass p = PromiseC →
  cells h !! ocell p = Some (PCell w [] false) →
  cells h !! ocell fut = Some pcf → st pcf = Success v →
  lists h !! xs = Some l → i < length l →
  boxes h !! count = Some z →
  ∃ h', apply_responder (run (1 + n))
          (OnsuccessRespond (CollectOnsuccess xs count i p)) fut h = Ret tt h' ∧
        cells h' !! ocell p =
          Some (PCell (if (z - 1 =? 0)%Z
                       then if defined w then w else Success (VListRef xs)
                       else w) [] false) ∧
        (∀ c pc, c ≠ ocell p → cells h !! c = Some pc → cells h' !! c = Some pc) ∧
        lists h' !! xs = Some (<[i:=v]> l) ∧
        boxes h' !! count = Some (z - 1)%Z.
Proof.
  intros Hp Hw Hf Hst Hl Hi Hz.
  apply Nat.ltb_lt in Hi.
  destruct ((z - 1 =? 0)%Z) eqn:Z0.
  - destruct w as [|x|e]; simpl.
    + eexists. split; [symc; rewrite Hi; symc; rewrite Z0; symc; reflexivity|].
      split; [by symc|]. split; [|by symc]. intros c pc Hne Hc. by symc.
    + eexists. split; [symc; rewrite Hi; symc; rewrite Z0; symc; reflexivity|].
      split; [by symc|]. split; [|by symc]. intros c pc Hne Hc. by symc.
    + eexists. split; [symc; rewrite Hi; symc; rewrite Z0; symc; reflexivity|].
      split; [by symc|]. split; [|by symc]. intros c pc Hne Hc. by symc.
  - eexists. split; [symc; rewrite Hi; symc; rewrite Z0; symc; reflexivity|].
    split; [by symc|]. split; [|by symc]. intros c pc Hne Hc. by symc.
Qed.

Lemma col_onsuccess_skips fire fn fut h pcf e :
  cells h !! ocell fut = Some pcf → st pcf = Failure e →
  apply_responder fire (OnsuccessRespond fn) fut h = Ret tt h.
Proof. intros Hf Hst. by symc. Qed.

Lemma col_onfailure_skips fire fn fut h pcf v :
  cells h !! ocell fut = Some pcf → st pcf = Success v →
  apply_responder fire (OnfailureRespond fn) fut h = Ret tt h.
Proof. intros Hf Hst. by symc. Qed.

(** The [onfailure] closure of [collect] applied to a promise that failed
    with [e]: [p] fails with [e] unless it is resolved already. *)
Lemma col_onfailure_fires n p fut h w pcf e :
  oclass p = PromiseC →
  cells h !! ocell p = Some (PCell w [] false) →
  cells h !! ocell fut = Some pcf → st pcf = Failure e →
  ∃ h', apply_responder (run (1 + n))
          (OnfailureRespond (CollectOnfailure p)) fut h = Ret tt h' ∧
        cells h' !! ocell p =
          Some (PCell (if defined w then w else Failure e) [] false) ∧
        (∀ c pc, c ≠ ocell p → cells h !! c = Some pc → cells h' !! c = Some pc) ∧
        lists h' = lists h ∧ boxes h' = boxes h.
Proof.
  intros Hp Hw Hf Hst.
  destruct w as [|x|e']; simpl.
  - eexists. split; [symc; reflexivity|].
    split; [by symc|]. split; [|by symc]. intros c pc Hne Hc. by symc.
  - eexists. split; [symc; reflexivity|].
    split; [by symc|]. split; [|by symc]. intros c pc Hne Hc. by symc.
  - eexists. split; [symc; reflexivity|].
    split; [by symc|]. split; [|by symc]. intros c pc Hne Hc. by symc.
Qed.

Lemma nodup_bounded_length (D : list nat) n :
  NoDup D → (∀ j, j ∈ D → j < n) → length D ≤ n.
Proof.
  intros Hnd Hb.
  assert (length D ≤ length (seq 0 n)) as H; [|by rewrite length_seq in H].
  apply submseteq_length, NoDup_submseteq; [done|].
  intros j Hj. apply elem_of_seq. specialize (Hb j Hj). lia.
Qed.

Lemma state_of_frame h h' p c s :
  (∀ c pc, c ≠ ocell p → cells h !! c = Some pc → cells h' !! c = Some pc) →
  c ≠ ocell p → state_of h c = Some s → state_of h' c = Some s.
Proof.
  intros Hfr Hne. unfold state_of.
  destruct (cells h !! c) as [pc|] eqn:E; [|done].
  by rewrite (Hfr c pc Hne E).
Qed.

(** The callbacks of index [i] run on the resolved input [f]. *)
Lemma col_deliver n xs count p fs k k' D w h i f pcf :
  oclass p = PromiseC →
  (∀ j g, fs !! j = Some g → ocell g ≠ ocell p) →
  col_data xs count p fs k D w h →
  fs !! i = Some f → i ∉ D → k ≤ k' → i < k' →
  cells h !! ocell f = Some pcf → defined (st pcf) = true →
  ∃ h' D' w',
    invoke_callbacks (run (2 + n)) (col_cbs xs count p i f) h = Ret tt h' ∧
    col_data xs count p fs k' D' w' h' ∧
    (∀ c pc, c ≠ ocell p → cells h !! c = Some pc → cells h' !! c = Some pc) ∧
    D' = (if st pcf is Success _ then i :: D else D) ∧
    (defined w = true → w' = w) ∧
    (∀ e, st pcf = Failure e → defined w = false → w' = Failure e) ∧
    (∀ e, w' = Failure e → w = Failure e ∨ st pcf = Failure e).
Proof.
  intros Hp Hne (Hw & Hz & Hnd & Hb & (l & Hl & Hlen & HD) & R1 & R2 & R3)
    Hf Hi Hk Hik Hc Hd.
  assert (i < length fs) as Hin by by eapply lookup_lt_Some.
  assert (∀ j, j ∈ D → j < length fs) as HbD.
  { intros j Hj. destruct (HD j Hj) as (g & v & Hg & _). by eapply lookup_lt_Some. }
  unfold col_cbs. cbn [invoke_callbacks]. unfold done_callback. cbn [fst snd].
  replace (2 + n) with (S (1 + n)) by done. rewrite !run_S.
  destruct (st pcf) as [|v|e] eqn:Hst; [done|..].
  - (* the input succeeded *)
    destruct (col_onsuccess_fires n xs count i p f h w pcf v l _ Hp Hw Hc Hst Hl
                ltac:(lia) Hz) as (h1 & E1 & Hp1 & Hf1 & Hl1 & Hz1).
    rewrite E1.
    assert (cells h1 !! ocell f = Some pcf) as Hc1 by (apply Hf1; eauto).
    rewrite (col_onfailure_skips _ _ f h1 pcf v Hc1 Hst).
    eexists h1, (i :: D), _. split; [done|]. split; [|split; [done|split; [done|]]].
    + split; [exact Hp1|]. split.
      { rewrite Hz1. f_equal. simpl. lia. }
      split; [by constructor|]. split.
      { intros j [->|Hj]%elem_of_cons; [done|]. specialize (Hb j Hj). lia. }
      split.
      { exists (<[i:=v]> l). split; [done|]. split; [by rewrite length_insert|].
        intros j [->|Hj]%elem_of_cons.
        - exists f, v. split; [done|]. split.
          + unfold state_of. rewrite Hc1. simpl. by rewrite Hst.
          + apply list_lookup_insert_eq. lia.
        - destruct (HD j Hj) as (g & u & Hg & Hs & Hlj).
          exists g, u. split; [done|]. split.
          + eapply state_of_frame; eauto.
          + rewrite list_lookup_insert_ne; [done|]. intros ->. done. }
      assert (length D < length fs) as Hlt.
      { pose proof (nodup_bounded_length (i :: D) (length fs)) as Hpg.
        simpl in Hpg. apply Hpg; [by constructor|].
        intros j [->|Hj]%elem_of_cons; auto. }
      split; [|split].
      * intros x Hx. destruct ((_ - 1 =? 0)%Z) eqn:Z0.
        -- apply Z.eqb_eq in Z0. split; [|simpl; lia].
           destruct w; simpl in Hx; try by simplify_eq.
           by destruct (R1 _ Hx).
        -- destruct (R1 _ Hx) as [_ Habs]. lia.
      * simpl. intros Hlen'.
        assert ((Z.of_nat (length fs) - Z.of_nat (length D) - 1 =? 0)%Z = true) as ->
          by (apply Z.eqb_eq; lia).
        by destruct w.
      * intros e He. destruct ((_ - 1 =? 0)%Z); [destruct w; try done|];
          simpl in He; destruct (R3 e He) as (j & g & Hj & Hg & Hs);
          exists j, g; (split; [lia|]); (split; [done|]);
          eapply state_of_frame; eauto.
    + split; [|split; [done|]].
      * intros Dw. destruct ((_ - 1 =? 0)%Z); by rewrite ?Dw.
      * intros e He. left. destruct ((_ - 1 =? 0)%Z); [|done]. by destruct w.
  - (* the input failed *)
    rewrite (col_onsuccess_skips _ _ f h pcf e Hc Hst).
    destruct (col_onfailure_fires n p f h w pcf e Hp Hw Hc Hst)
      as (h1 & E1 & Hp1 & Hf1 & Hl1 & Hz1).
    rewrite E1.
    assert (cells h1 !! ocell f = Some pcf) as Hc1 by (apply Hf1; eauto).
    eexists h1, D, _. split; [done|]. split; [|split; [done|split; [done|]]].
    + split; [exact Hp1|]. split; [by rewrite Hz1|]. split; [done|]. split.
      { intros j Hj. specialize (Hb j Hj). lia. }
      split.
      { exists l. split; [by rewrite Hl1|]. split; [done|].
        intros j Hj. destruct (HD j Hj) as (g & u & Hg & Hs & Hlj).
        exists g, u. split; [done|]. split; [|done].
        eapply state_of_frame; eauto. }
      split; [|split].
      * intros x Hx. destruct w; simpl in Hx; try done. by apply R1.
      * intros Hlen'. rewrite (R2 Hlen'). by apply R2.
      * intros e' He'. destruct w as [|x|e'']; simpl in He'; try done.
        -- injection He' as <-. exists i, f. split; [done|]. split; [done|].
           unfold state_of. rewrite Hc1. simpl. by rewrite Hst.
        -- destruct (R3 e' He') as (j & g & Hj & Hg & Hs).
           exists j, g. split; [lia|]. split; [done|].
           eapply state_of_frame; eauto.
    + split; [|split].
      * intros Dw. by rewrite Dw.
      * intros e' [= <-] Dw. by rewrite Dw.
      * intros e' He'. destruct w; simpl in He'; [right; congruence|done|by left].
Qed.

Lemma col_registered_S xs count p fs k f c :
  fs !! k = Some f →
  col_registered xs count p fs (S k) c =
    col_registered xs count p fs k c ++
    (if ocell f =? c then col_cbs xs count p k f else []).
Proof.
  intros Hf. unfold col_registered, on_cell_i, indexed.
  rewrite (take_S_r _ _ (k, f)) by by rewrite list_lookup_imap, Hf.
  rewrite List.filter_app, List.flat_map_app. simpl.
  destruct (ocell f =? c); simpl; by rewrite ?app_nil_r.
Qed.

Lemma done_callback_no_raise fire cb h : no_raise (done_callback fire cb h).
Proof. unfold done_callback. by destruct (fire _ _ _). Qed.

(** Registering two callables on a resolved promise runs them at once, one
    after the other. *)
Lemma respond_pair_resolved n f a b h pcf h2 :
  cells h !! ocell f = Some pcf → defined (st pcf) = true →
  invoke_callbacks (run n) [(a, f); (b, f)] h = Ret tt h2 →
  (r <~ respond (run n) f a; respond (run n) r b) h = Ret f h2.
Proof.
  intros Hc Hd. cbn [invoke_callbacks].
  unfold respond, bind, add_done_callback, ret. rewrite Hc, Hd.
  pose proof (done_callback_no_raise (run n) (a, f) h) as Hn1.
  pose proof (mono_done_callback (run n) (mono_run n) (a, f) h) as Hm1.
  destruct (done_callback (run n) (a, f) h) as [[] h1|e1 h1|h1|s1]; try done.
  destruct (Hm1 h1 eq_refl (ocell f) pcf Hc) as (pc1 & Hc1 & Hs1).
  rewrite Hc1, (Hs1 Hd), Hd.
  pose proof (done_callback_no_raise (run n) (b, f) h1) as Hn2.
  destruct (done_callback (run n) (b, f) h1) as [[] h2'|e2 h2'|h2'|s2]; try done.
  by intros [= ->].
Qed.

(** One round of the loop of [collect]. *)
Lemma col_register_step n xs count p fs k f D w h :
  oclass p = PromiseC → fs !! k = Some f →
  col_data xs count p fs k D w h → col_reg xs count p fs k D h →
  ∃ h' D' w',
    (r <~ onsuccess (run (2 + n)) f (CollectOnsuccess xs count k p);
     onfailure (run (2 + n)) r (CollectOnfailure p)) h = Ret f h' ∧
    col_data xs count p fs (S k) D' w' h' ∧
    col_reg xs count p fs (S k) D' h' ∧
    (∀ g, g ∈ fs → state_of h' (ocell g) = state_of h (ocell g)) ∧
    (defined w = true → w' = w) ∧
    (∀ e, state_of h (ocell f) = Some (Failure e) → defined w = false →
          w' = Failure e) ∧
    (∀ e, w' = Failure e →
          w = Failure e ∨ state_of h (ocell f) = Some (Failure e)).
Proof.
  intros Hp Hf Hdata Hreg.
  assert (∀ j g, fs !! j = Some g → ocell g ≠ ocell p) as Hne
    by (intros j g Hg; by destruct (Hreg j g Hg)).
  destruct (Hreg k f Hf) as (Hnef & pc & Hc & Hl & Hcb & Hcomp).
  destruct (defined (st pc)) eqn:Dpc.
  - (* resolved: both closures run at once *)
    destruct (col_deliver n xs count p fs k (S k) D w h k f pc Hp Hne Hdata Hf)
      as (h1 & D1 & w1 & E1 & Hdata1 & Hfr & HD1 & Hw1 & Hw1' & Hw1'');
      [|lia|lia|done|done|].
    { intros Hk. destruct Hdata as (_ & _ & _ & Hb & _). specialize (Hb k Hk). lia. }
    exists h1, D1, w1. split.
    { unfold onsuccess, onfailure. by eapply respond_pair_resolved. }
    split; [done|]. split; [|split; [|split; [done|split]]].
    + intros j g Hg. destruct (Hreg j g Hg) as (Hneg & pcg & Hcg & Hlg & Hcbg & Hcompg).
      split; [done|]. exists pcg. split; [by apply Hfr|]. split; [done|]. split.
      * intros Hpend. rewrite (col_registered_S _ _ _ _ _ f) by done.
        rewrite (Hcbg Hpend).
        destruct (ocell f =? ocell g) eqn:Eq; [|by rewrite app_nil_r].
        apply Nat.eqb_eq in Eq. rewrite Eq in Hc. simplify_eq.
        by rewrite Hpend in Dpc.
      * intros v Hv Hj. rewrite HD1.
        destruct (decide (j = k)) as [->|Hjk].
        -- simplify_eq. rewrite Hv. by left.
        -- assert (j ∈ D) by (eapply Hcompg; [done|lia]).
           destruct (st pc); [done|by right|done].
    + intros g Hg. apply list_elem_of_lookup_1 in Hg as [j Hg].
      specialize (Hne j g Hg). unfold state_of.
      destruct (Hreg j g Hg) as (_ & pcg & Hcg & _).
      by rewrite Hcg, (Hfr _ _ Hne Hcg).
    + intros e He. apply Hw1'. unfold state_of in He. rewrite Hc in He.
      simpl in He. by injection He.
    + intros e He. destruct (Hw1'' e He) as [?|Hst]; [by left|right].
      unfold state_of. rewrite Hc. simpl. by rewrite Hst.
  - (* pending: both closures are appended *)
    assert (st pc = Pending) as Hst by by destruct (st pc).
    set (succ := (OnsuccessRespond (CollectOnsuccess xs count k p), f)).
    set (fail := (OnfailureRespond (CollectOnfailure p), f)).
    exists (alter_cell (ocell f) (add_cb fail) (alter_cell (ocell f) (add_cb succ) h)), D, w.
    split.
    { unfold onsuccess, onfailure, respond, bind, add_done_callback, ret.
      rewrite Hc, Dpc. simpl. rewrite list_lookup_alter_eq, Hc. simpl.
      by rewrite Dpc. }
    assert (∀ c s, state_of (alter_cell (ocell f) (add_cb fail)
                              (alter_cell (ocell f) (add_cb succ) h)) c = Some s ↔
                   state_of h c = Some s) as Hsame.
    { intros c s. unfold state_of. simpl.
      destruct (decide (ocell f = c)) as [<-|Hnc].
      - rewrite !list_lookup_alter_eq. destruct (cells h !! ocell f); simpl; tauto.
      - rewrite !list_lookup_alter_ne by done. tauto. }
    split; [|split; [|split; [|split; [done|split]]]].
    + destruct Hdata as (Hw & Hz & Hnd & Hb & (l & Hl' & Hlen & HD) & R1 & R2 & R3).
      split; [simpl; by rewrite !list_lookup_alter_ne|].
      split; [done|]. split; [done|]. split.
      { intros j Hj. specialize (Hb j Hj). lia. }
      split.
      { exists l. split; [done|]. split; [done|]. intros j Hj.
        destruct (HD j Hj) as (g & v & Hg & Hs & Hlj).
        exists g, v. split; [done|]. split; [by apply Hsame|done]. }
      split; [done|]. split; [done|].
      intros e He. destruct (R3 e He) as (j & g & Hj & Hg & Hs).
      exists j, g. split; [lia|]. split; [done|]. by apply Hsame.
    + intros j g Hg. destruct (Hreg j g Hg) as (Hneg & pcg & Hcg & Hlg & Hcbg & Hcompg).
      split; [done|]. simpl.
      rewrite (col_registered_S _ _ _ _ _ f) by done.
      destruct (decide (ocell f = ocell g)) as [Eq|Eq].
      * rewrite <- Eq, !list_lookup_alter_eq, Hc. simpl.
        eexists. split; [done|]. simpl. rewrite Eq in Hc. simplify_eq.
        split; [done|]. split.
        -- intros _. rewrite (Hcbg Hst), Nat.eqb_refl. unfold col_cbs.
           by rewrite <- app_assoc, Eq.
        -- intros v Hv. by rewrite Hst in Hv.
      * rewrite !list_lookup_alter_ne by done. exists pcg.
        split; [done|]. split; [done|]. split.
        -- intros Hpend. rewrite (Hcbg Hpend).
           apply Nat.eqb_neq in Eq. by rewrite Eq, app_nil_r.
        -- intros v Hv Hj. destruct (decide (j = k)) as [->|Hjk].
           ++ by simplify_eq.
           ++ eapply Hcompg; [done|lia].
    + intros g Hg. apply option_eq. intros s. apply Hsame.
    + intros e He. unfold state_of in He. rewrite Hc in He. simpl in He.
      rewrite Hst in He. done.
    + intros e He. by left.
Qed.

Lemma col_registered_ge xs count p fs k c :
  length fs ≤ k →
  col_registered xs count p fs k c = col_registered xs count p fs (length fs) c.
Proof.
  intros Hk. unfold col_registered, indexed.
  by rewrite !take_ge by (rewrite length_imap; lia).
Qed.

Lemma col_data_ge xs count p fs k D w h :
  length fs ≤ k → col_data xs count p fs k D w h →
  col_data xs count p fs (length fs) D w h.
Proof.
  intros Hk (Hw & Hz & Hnd & Hb & (l & Hl & Hlen & HD) & R1 & R2 & R3).
  split; [done|]. split; [done|]. split; [done|]. split.
  { intros i Hi. destruct (HD i Hi) as (f & v & Hf & _). by eapply lookup_lt_Some. }
  split; [by exists l|]. split; [done|]. split; [done|].
  intros e He. destruct (R3 e He) as (i & f & Hi & Hf & Hs).
  exists i, f. split; [by eapply lookup_lt_Some|done].
Qed.

Lemma col_reg_ge xs count p fs k D h :
  length fs ≤ k → col_reg xs count p fs k D h →
  col_reg xs count p fs (length fs) D h.
Proof.
  intros Hk Hreg i f Hf.
  destruct (Hreg i f Hf) as (Hne & pc & Hc & Hl & Hcb & Hcomp).
  split; [done|]. exists pc. split; [done|]. split; [done|]. split.
  - intros Hp. rewrite <- (col_registered_ge _ _ _ _ k) by done. by apply Hcb.
  - intros v Hv Hi. eapply Hcomp; [done|lia].
Qed.

Lemma collect_loop_spec n xs count p fs :
  oclass p = PromiseC →
  ∀ rest k D w h,
    drop k fs = rest →
    col_data xs count p fs k D w h → col_reg xs count p fs k D h →
    ∃ h' D' w',
      collect_loop (run (2 + n)) xs count p k rest h = Ret tt h' ∧
      col_data xs count p fs (length fs) D' w' h' ∧
      col_reg xs count p fs (length fs) D' h' ∧
      (∀ g, g ∈ fs → state_of h' (ocell g) = state_of h (ocell g)) ∧
      (defined w = true → w' = w) ∧
      (∀ e, w' = Failure e →
            w = Failure e ∨
            ∃ i f, k ≤ i ∧ fs !! i = Some f ∧
                   state_of h (ocell f) = Some (Failure e)) ∧
      (∀ i f e,
         k ≤ i → fs !! i = Some f → state_of h (ocell f) = Some (Failure e) →
         (∀ j g e', k ≤ j → j < i → fs !! j = Some g →
                    state_of h (ocell g) ≠ Some (Failure e')) →
         defined w = false → w' = Failure e).
Proof.
  intros Hp rest. induction rest as [|f rest IH]; intros k D w h Hdrop Hdata Hreg.
  - assert (length fs ≤ k) as Hk.
    { apply (f_equal length) in Hdrop. rewrite length_drop in Hdrop. simpl in Hdrop. lia. }
    exists h, D, w. split; [done|].
    split; [by eapply col_data_ge|]. split; [by eapply col_reg_ge|].
    split; [done|]. split; [done|]. split; [by left|].
    intros i g e Hi Hg. apply lookup_lt_Some in Hg. lia.
  - assert (fs !! k = Some f) as Hf.
    { rewrite <- (Nat.add_0_r k), <- lookup_drop, Hdrop. done. }
    assert (drop (S k) fs = rest) as Hdrop'.
    { rewrite (drop_S _ _ _ Hf) in Hdrop. by injection Hdrop. }
    destruct (col_register_step n xs count p fs k f D w h Hp Hf Hdata Hreg)
      as (h1 & D1 & w1 & E1 & Hdata1 & Hreg1 & Hst1 & Hw1 & Hw1' & Hw1'').
    destruct (IH (S k) D1 w1 h1 Hdrop' Hdata1 Hreg1)
      as (h2 & D2 & w2 & E2 & Hdata2 & Hreg2 & Hst2 & Hw2 & Hw2' & Hw2'').
    exists h2, D2, w2. split.
    { cbn [collect_loop]. unfold bind at 1. by rewrite E1. }
    split; [done|]. split; [done|]. split.
    { intros g Hg. by rewrite (Hst2 g Hg), (Hst1 g Hg). }
    split.
    { intros Dw. pose proof (Hw1 Dw) as ->. by apply Hw2. }
    split.
    { intros e He. destruct (Hw2' e He) as [Hw|(i & g & Hi & Hg & Hs)].
      - destruct (Hw1'' e Hw) as [?|Hs]; [by left|].
        right. exists k, f. split; [lia|done].
      - right. exists i, g. split; [lia|]. split; [done|].
        rewrite <- (Hst1 g); [done|]. by eapply list_elem_of_lookup_2. }
    intros i g e Hi Hg Hs Hmin Dw.
    destruct (decide (i = k)) as [->|Hik].
    + simplify_eq. pose proof (Hw1' e Hs Dw) as ->. by rewrite (Hw2 eq_refl).
    + assert (defined w1 = false) as Dw1.
      { destruct w1 as [|x|e']; [done|..].
        - destruct Hdata1 as (_ & _ & Hnd1 & Hb1 & _ & R1 & _).
          destruct (R1 x eq_refl) as [_ Hlen].
          pose proof (nodup_bounded_length D1 (S k) Hnd1 Hb1).
          apply lookup_lt_Some in Hg. lia.
        - destruct (Hw1'' e' eq_refl) as [->|Hs']; [done|].
          exfalso. eapply (Hmin k f e'); [lia|lia|done|done]. }
      apply (Hw2'' i g e); [lia|done| |  |done].
      * rewrite (Hst1 g); [done|]. by eapply list_elem_of_lookup_2.
      * intros j g' e' Hj Hji Hg'. rewrite (Hst1 g'); [|by eapply list_elem_of_lookup_2].
        apply (Hmin j g' e'); [lia|done|done].
Qed.

Lemma invoke_callbacks_app fire l1 l2 h h1 :
  invoke_callbacks fire l1 h = Ret tt h1 →
  invoke_callbacks fire (l1 ++ l2) h = invoke_callbacks fire l2 h1.
Proof.
  revert h. induction l1 as [|cb l1 IH]; intros h; simpl.
  - by intros [= ->].
  - destruct (done_callback fire cb h); try done; apply IH.
Qed.

(** All the callbacks that [collect] put on one cell run when it resolves. *)
Lemma col_deliver_all n xs count p fs c pcf :
  oclass p = PromiseC →
  (∀ j g, fs !! j = Some g → ocell g ≠ ocell p) →
  defined (st pcf) = true →
  ∀ J D w h,
    col_data xs count p fs (length fs) D w h →
    cells h !! c = Some pcf → NoDup (J.*1) →
    (∀ x, x ∈ J → fs !! x.1 = Some x.2 ∧ (x.1 ∉ D) ∧ ocell x.2 = c) →
    ∃ h' D' w',
      invoke_callbacks (run (2 + n))
        (flat_map (λ x, col_cbs xs count p x.1 x.2) J) h = Ret tt h' ∧
      col_data xs count p fs (length fs) D' w' h' ∧
      (∀ c pc, c ≠ ocell p → cells h !! c = Some pc → cells h' !! c = Some pc) ∧
      (∀ i, i ∈ D' ↔ i ∈ D ∨ (∃ v, st pcf = Success v) ∧ i ∈ J.*1) ∧
      (defined w = true → w' = w) ∧
      (∀ e, st pcf = Failure e → J ≠ [] → defined w = false → w' = Failure e) ∧
      (∀ e, w' = Failure e → w = Failure e ∨ st pcf = Failure e).
Proof.
  intros Hp Hne Hd J. induction J as [|x J IH]; intros D w h Hdata Hc Hnd HJ.
  - exists h, D, w. split; [done|]. split; [done|]. split; [done|]. split.
    { intros i. split; [by left|]. intros [?|[_ Hi]]; [done|].
      by apply elem_of_nil in Hi. }
    split; [done|]. split; [done|]. by left.
  - destruct (HJ x ltac:(by left)) as (Hx & HxD & Hxc).
    apply NoDup_cons in Hnd as [Hx1 Hnd].
    assert (c ≠ ocell p) as Hcp by (rewrite <- Hxc; by eapply Hne).
    assert (x.1 < length fs) as Hlt by by eapply lookup_lt_Some.
    destruct (col_deliver n xs count p fs (length fs) (length fs) D w h x.1 x.2 pcf
                Hp Hne Hdata Hx HxD ltac:(lia) Hlt ltac:(by rewrite Hxc) Hd)
      as (h1 & D1 & w1 & E1 & Hdata1 & Hfr1 & HD1 & Hw1 & Hw1' & Hw1'').
    destruct (IH D1 w1 h1 Hdata1 (Hfr1 _ _ Hcp Hc) Hnd)
      as (h2 & D2 & w2 & E2 & Hdata2 & Hfr2 & HD2 & Hw2 & Hw2' & Hw2'').
    { intros y Hy. destruct (HJ y ltac:(by right)) as (Hy1 & HyD & Hyc).
      split; [done|]. split; [|done]. rewrite HD1.
      assert (y.1 ≠ x.1).
      { intros Heq. apply Hx1. rewrite <- Heq. apply list_elem_of_fmap. eauto. }
      destruct (st pcf); [done| |done].
      intros [?|?]%elem_of_cons; done. }
    exists h2, D2, w2. split.
    { cbn [flat_map]. by rewrite (invoke_callbacks_app _ _ _ _ _ E1). }
    split; [done|]. split; [by auto|]. split.
    { intros i. rewrite HD2, HD1. cbn [fmap list_fmap]. rewrite elem_of_cons.
      destruct (st pcf) as [|v|e]; [done|..].
      - rewrite elem_of_cons. split.
        + intros [[->|?]|[_ ?]]; eauto.
        + intros [?|[_ [->|?]]]; eauto.
      - split.
        + intros [?|[[v ?] _]]; [by left|done].
        + intros [?|[[v ?] _]]; [by left|done]. }
    split.
    { intros Dw. pose proof (Hw1 Dw) as ->. by apply Hw2. }
    split.
    { intros e He _ Dw. pose proof (Hw1' e He Dw) as ->. by apply Hw2. }
    intros e He. destruct (Hw2'' e He) as [Hw|?]; [|by right]. by apply Hw1''.
Qed.

Lemma filter_fst_NoDup {A} (P : nat * A → bool) (l : list (nat * A)) :
  NoDup l.*1 → NoDup (List.filter P l).*1.
Proof.
  induction l as [|x l IH]; simpl; [done|].
  intros [Hx Hnd]%NoDup_cons. destruct (P x); simpl; [|by auto].
  apply NoDup_cons. split; [|by auto].
  intros (y & Hy1 & Hy)%list_elem_of_fmap. apply Hx.
  apply list_elem_of_fmap. exists y. split; [done|].
  apply list_elem_of_In in Hy. apply List.filter_In in Hy as [Hy _].
  by apply list_elem_of_In.
Qed.

Lemma indexed_lookup fs i x :
  indexed fs !! i = Some x ↔ x.1 = i ∧ fs !! i = Some x.2.
Proof.
  unfold indexed. rewrite list_lookup_imap. destruct x as [j f]. simpl.
  destruct (fs !! i) as [g|]; simpl; split; try done.
  - by intros [= <- <-].
  - by intros [-> [= ->]].
  - by intros [_ ?].
Qed.

Lemma indexed_NoDup fs : NoDup (indexed fs).*1.
Proof.
  apply NoDup_alt. intros i j k. rewrite !list_lookup_fmap.
  destruct (indexed fs !! i) as [x|] eqn:Ei; [|done].
  destruct (indexed fs !! j) as [y|] eqn:Ej; [|done].
  apply indexed_lookup in Ei as [Ei _]. apply indexed_lookup in Ej as [Ej _].
  simpl. intros [= E1] [= E2]. congruence.
Qed.

Lemma elem_of_on_cell_i c fs x :
  x ∈ on_cell_i c (indexed fs) ↔ fs !! x.1 = Some x.2 ∧ ocell x.2 = c.
Proof.
  unfold on_cell_i. rewrite list_elem_of_In, List.filter_In, <- list_elem_of_In.
  rewrite list_elem_of_lookup, Nat.eqb_eq. split.
  - intros [[i Hi] Hc]. apply indexed_lookup in Hi as [E Hi]. by rewrite E.
  - intros [Hx Hc]. split; [|done]. exists x.1. by apply indexed_lookup.
Qed.

Lemma col_data_transfer xs count p fs k D w h h' :
  col_data xs count p fs k D w h →
  cells h' !! ocell p = cells h !! ocell p →
  lists h' = lists h → boxes h' = boxes h →
  (∀ c s, state_of h c = Some s → defined s = true → state_of h' c = Some s) →
  col_data xs count p fs k D w h'.
Proof.
  intros (Hw & Hz & Hnd & Hb & (l & Hl & Hlen & HD) & R1 & R2 & R3) Hp Hls Hbs Hs.
  split; [by rewrite Hp|]. split; [by rewrite Hbs|]. split; [done|].
  split; [done|]. split.
  { exists l. split; [by rewrite Hls|]. split; [done|]. intros i Hi.
    destruct (HD i Hi) as (f & v & Hf & Hsf & Hli). exists f, v. eauto. }
  split; [done|]. split; [done|]. intros e He.
  destruct (R3 e He) as (i & f & Hi & Hf & Hsf). exists i, f. eauto.
Qed.

(** One resolution of an input after [collect] has registered. *)
Lemma col_resolve_step n xs count p fs D w h r :
  oclass p = PromiseC →
  col_data xs count p fs (length fs) D w h →
  col_reg xs count p fs (length fs) D h →
  resolves_input fs r →
  ∃ h' D' w',
    (resolve (run (2 + n)) r h = Ret (target r) h' ∨
     resolve (run (2 + n)) r h = Raise already_resolved h') ∧
    col_data xs count p fs (length fs) D' w' h' ∧
    col_reg xs count p fs (length fs) D' h' ∧
    (defined w = true → w' = w) ∧
    (∀ e, w' = Failure e → w = Failure e ∨ outcome_of r = Failure e) ∧
    (∀ e, outcome_of r = Failure e →
          state_of h (ocell (target r)) = Some Pending →
          defined w = false → w' = Failure e) ∧
    (∀ g, g ∈ fs →
          state_of h' (ocell g) = state_of h (ocell g) ∨
          (ocell (target r) = ocell g ∧
           state_of h' (ocell g) = Some (outcome_of r))).
Proof.
  intros Hp Hdata Hreg (Ho & f0 & Hf0 & Hcell).
  assert (∀ j g, fs !! j = Some g → ocell g ≠ ocell p) as Hne
    by (intros j g Hg; by destruct (Hreg j g Hg)).
  apply list_elem_of_lookup_1 in Hf0 as [i0 Hf0].
  destruct (Hreg i0 f0 Hf0) as (Hnec & pc & Hc & Hl & Hcb & Hcomp).
  rewrite Hcell in Hc, Hnec, Hcb. set (c := ocell (target r)) in *.
  destruct (defined (st pc)) eqn:Dpc.
  - exists h, D, w. split; [right; by eapply resolve_resolved|].
    split; [done|]. split; [done|]. split; [done|]. split; [by left|]. split.
    + intros e _ Hs. unfold state_of in Hs. rewrite Hc in Hs. simpl in Hs.
      injection Hs as Hs. by rewrite Hs in Dpc.
    + intros g _. by left.
  - assert (st pc = Pending) as Hst by by destruct (st pc).
    set (pcf := set_st (outcome_of r) (set_lck true pc)).
    set (h2 := alter_cell c (set_st (outcome_of r)) (alter_cell c (set_lck true) h)).
    assert (cells h2 !! c = Some pcf) as Hc2.
    { unfold h2. simpl. by rewrite !list_lookup_alter_eq, Hc. }
    assert (∀ c', c' ≠ c → cells h2 !! c' = cells h !! c') as Hoth2.
    { intros c' Hc'. unfold h2. simpl. by rewrite !list_lookup_alter_ne. }
    assert (defined (st pcf) = true) as Dpcf by by destruct r.
    assert (col_data xs count p fs (length fs) D w h2) as Hdata2.
    { eapply col_data_transfer; [done|by apply Hoth2|done|done|].
      intros c' s Hs Ds. unfold state_of in *.
      destruct (decide (c' = c)) as [->|Hc'].
      - rewrite Hc in Hs. simpl in Hs. injection Hs as <-. by rewrite Hst in Ds.
      - by rewrite Hoth2. }
    set (J := on_cell_i c (indexed fs)).
    destruct (col_deliver_all n xs count p fs c pcf Hp Hne Dpcf J D w h2 Hdata2 Hc2)
      as (h3 & D3 & w3 & E3 & Hdata3 & Hfr3 & HD3 & Hw3 & Hw3' & Hw3'').
    { apply filter_fst_NoDup, indexed_NoDup. }
    { intros x [Hx Hxc]%elem_of_on_cell_i. split; [done|]. split; [|done].
      intros HxD. destruct Hdata as (_ & _ & _ & _ & (l & _ & _ & HD) & _).
      destruct (HD _ HxD) as (f & v & Hf & Hs & _). simplify_eq.
      unfold state_of in Hs. rewrite Hxc, Hc in Hs. simpl in Hs.
      by rewrite Hst in Hs. }
    assert (cbs pc = flat_map (λ x, col_cbs xs count p x.1 x.2) J) as HcbJ.
    { rewrite (Hcb Hst). unfold col_registered, J.
      by rewrite take_ge by (unfold indexed; rewrite length_imap; lia). }
    rewrite <- HcbJ in E3.
    pose proof (resolve_pending (run (2 + n)) r h pc h3 Ho Hc Hst Hl E3) as E.
    fold c in E. set (h4 := alter_cell c (set_lck false) h3) in *.
    assert (cells h4 !! c = Some (set_lck false pcf)) as Hc4.
    { unfold h4. simpl. by rewrite list_lookup_alter_eq, (Hfr3 _ _ Hnec Hc2). }
    assert (∀ c' pc', c' ≠ c → c' ≠ ocell p → cells h !! c' = Some pc' →
                      cells h4 !! c' = Some pc') as Hoth4.
    { intros c' pc' Hc' Hcp Hpc'. unfold h4. simpl.
      rewrite list_lookup_alter_ne by done. apply Hfr3; [done|]. by rewrite Hoth2. }
    exists h4, D3, w3. split; [by left|]. split; [|split; [|split; [done|split; [|split]]]].
    + eapply col_data_transfer; [exact Hdata3| | | |].
      * unfold h4. simpl. by rewrite list_lookup_alter_ne.
      * done.
      * done.
      * intros c' s Hs _. unfold state_of in *. unfold h4. simpl.
        destruct (decide (c = c')) as [<-|Hc'].
        -- rewrite list_lookup_alter_eq. by destruct (cells h3 !! c).
        -- by rewrite list_lookup_alter_ne.
    + intros j g Hg. destruct (Hreg j g Hg) as (Hneg & pcg & Hcg & Hlg & Hcbg & Hcompg).
      split; [done|].
      destruct (decide (ocell g = c)) as [Eq|Eq].
      * rewrite Eq. exists (set_lck false pcf). split; [done|]. split; [done|].
        split; [by destruct r|]. intros v Hv _. apply HD3. right.
        split; [by exists v|]. apply list_elem_of_fmap. exists (j, g).
        split; [done|]. by apply elem_of_on_cell_i.
      * exists pcg. split; [by apply Hoth4|]. split; [done|]. split; [done|].
        intros v Hv Hj. apply HD3. left. by eapply Hcompg.
    + intros e He. destruct (Hw3'' e He) as [?|Hf]; [by left|right]. by destruct r.
    + intros e He _ Dw. apply Hw3'; [by destruct r| |done].
      intros HJ. assert ((i0, f0) ∈ J) as Hin by by apply elem_of_on_cell_i.
      rewrite HJ in Hin. by apply elem_of_nil in Hin.
    + intros g Hg. apply list_elem_of_lookup_1 in Hg as [j Hg].
      destruct (Hreg j g Hg) as (Hneg & pcg & Hcg & _).
      destruct (decide (ocell g = c)) as [Eq|Eq].
      * right. split; [done|]. unfold state_of. rewrite Eq, Hc4. by destruct r.
      * left. unfold state_of. by rewrite Hcg, (Hoth4 _ _ Eq Hneg Hcg).
Qed.

Lemma col_resolve_all n xs count p fs rs :
  oclass p = PromiseC → Forall (resolves_input fs) rs →
  ∀ D w h,
    col_data xs count p fs (length fs) D w h →
    col_reg xs count p fs (length fs) D h →
    ∃ h' D' w',
      resolve_all (run (2 + n)) rs h = Ret tt h' ∧
      col_data xs count p fs (length fs) D' w' h' ∧
      col_reg xs count p fs (length fs) D' h' ∧
      (defined w = true → w' = w) ∧
      (∀ e, w' = Failure e →
            w = Failure e ∨ ∃ r, r ∈ rs ∧ outcome_of r = Failure e) ∧
      (∀ g, g ∈ fs →
            state_of h' (ocell g) = state_of h (ocell g) ∨
            ∃ r, r ∈ rs ∧ ocell (target r) = ocell g ∧
                 state_of h' (ocell g) = Some (outcome_of r)).
Proof.
  intros Hp Hrs. induction Hrs as [|r rs Hr Hrs IH]; intros D w h Hdata Hreg.
  - exists h, D, w. split; [done|]. split; [done|]. split; [done|].
    split; [done|]. split; [by left|]. intros g _. by left.
  - destruct (col_resolve_step n xs count p fs D w h r Hp Hdata Hreg Hr)
      as (h1 & D1 & w1 & E1 & Hdata1 & Hreg1 & Hw1 & Hw1' & _ & Hst1).
    destruct (IH D1 w1 h1 Hdata1 Hreg1)
      as (h2 & D2 & w2 & E2 & Hdata2 & Hreg2 & Hw2 & Hw2' & Hst2).
    exists h2, D2, w2. split.
    { cbn [resolve_all]. by destruct E1 as [-> | ->]. }
    split; [done|]. split; [done|]. split.
    { intros Dw. pose proof (Hw1 Dw) as ->. by apply Hw2. }
    split.
    { intros e He. destruct (Hw2' e He) as [Hw|(r' & Hr' & Ho)].
      - destruct (Hw1' e Hw) as [?|?]; [by left|]. right. exists r.
        split; [by left|done].
      - right. exists r'. split; [by right|done]. }
    intros g Hg. destruct (Hst2 g Hg) as [Hs2|(r' & Hr' & Hc' & Hs2)].
    + rewrite Hs2. destruct (Hst1 g Hg) as [?|[Hc Hs1]]; [by left|].
      right. exists r. split; [by left|done].
    + right. exists r'. split; [by right|done].
Qed.

Lemma resolve_all_app fire l1 l2 h h1 :
  resolve_all fire l1 h = Ret tt h1 →
  resolve_all fire (l1 ++ l2) h = resolve_all fire l2 h1.
Proof.
  revert h. induction l1 as [|r l1 IH]; intros h; simpl.
  - by intros [= ->].
  - destruct (resolve fire r h); try done; apply IH.
Qed.

Lemma nodup_full (D : list nat) n i :
  NoDup D → (∀ j, j ∈ D → j < n) → length D = n → i < n → i ∈ D.
Proof.
  intros Hnd Hb Hlen Hi.
  assert (D ⊆+ seq 0 n) as Hsub.
  { apply NoDup_submseteq; [done|]. intros j Hj. apply elem_of_seq.
    specialize (Hb j Hj). lia. }
  apply submseteq_length_Permutation in Hsub; [|rewrite length_seq; lia].
  rewrite Hsub. apply elem_of_seq. lia.
Qed.

Lemma nodup_covering_length (D : list nat) n :
  (∀ i, i < n → i ∈ D) → n ≤ length D.
Proof.
  intros Hall.
  assert (length (seq 0 n) ≤ length D) as H; [|by rewrite length_seq in H].
  apply submseteq_length, NoDup_submseteq; [apply NoDup_seq|].
  intros j Hj%elem_of_seq. apply Hall. lia.
Qed.

(** The heap in which [collect] starts its loop. *)
Lemma col_start fs h :
  fs ≠ [] → Forall (input_ok h) fs →
  let xs := length (lists h) in
  let count := length (boxes h) in
  let p := Obj (next_oid h) (length (cells h)) PromiseC in
  let h0 := after_init
              (with_boxes (λ bs, bs ++ [Z.of_nat (length fs)])
                 (with_lists (λ ls, ls ++ [replicate (length fs) VNone]) h)) in
  col_data xs count p fs 0 [] Pending h0 ∧ col_reg xs count p fs 0 [] h0 ∧
  (∀ c s, state_of h c = Some s → state_of h0 c = Some s).
Proof.
  intros Hne Hin xs count p h0. subst xs count p h0. split; [|split].
  - split; [simpl; by rewrite lookup_new|].
    split; [simpl; rewrite lookup_new; simpl; f_equal; lia|].
    split; [constructor|]. split; [by intros i ?%elem_of_nil|]. split.
    { exists (replicate (length fs) VNone). split; [simpl; by rewrite lookup_new|].
      split; [by rewrite length_replicate|]. by intros i ?%elem_of_nil. }
    split; [done|]. split; [|done].
    simpl. intros Hlen. destruct fs; [done|]. done.
  - intros i f Hf. rewrite Forall_forall in Hin.
    destruct (Hin f (list_elem_of_lookup_2 _ _ _ Hf)) as (pc & Hc & Hl & Hcb).
    pose proof (lookup_lt_Some _ _ _ Hc). split; [simpl; lia|].
    exists pc. split; [simpl; by apply lookup_old|]. split; [done|].
    split; [|lia]. intros Hp. by rewrite (Hcb Hp).
  - intros c s. unfold state_of. simpl.
    destruct (cells h !! c) as [pc|] eqn:E; [|done].
    by rewrite (lookup_old _ _ _ _ E).
Qed.

Lemma collect_nonempty fire fs h :
  fs ≠ [] →
  collect fire fs h =
    let p := Obj (next_oid h) (length (cells h)) PromiseC in
    (collect_loop fire (length (lists h)) (length (boxes h)) p 0 fs ;; ret p)
      (after_init
         (with_boxes (λ bs, bs ++ [Z.of_nat (length fs)])
            (with_lists (λ ls, ls ++ [replicate (length fs) VNone]) h))).
Proof. intros Hne. destruct fs; [done|]. reflexivity. Qed.

(** [collect] of a non-empty [fs]: the promise it returns, after the
    resolutions [rs] of inputs. *)
Lemma collect_nonempty_outcome (n : nat) (fs : list obj) (h : heap)
    (rs : list resolution) :
  fs ≠ [] → Forall (input_ok h) fs → Forall (resolves_input fs) rs →
  ∃ p h1 h2,
    collect (run (2 + n)) fs h = Ret p h1 ∧
    state_of h (ocell p) = None ∧
    resolve_all (run (2 + n)) rs h1 = Ret tt h2 ∧
    (∀ vs, Forall2 (λ f v, state_of h2 (ocell f) = Some (Success v)) fs vs →
           ∃ xs, state_of h2 (ocell p) = Some (Success (VListRef xs)) ∧
                 lists h2 !! xs = Some vs) ∧
    (∀ i f e,
       fs !! i = Some f → state_of h (ocell f) = Some (Failure e) →
       (∀ j g e', j < i → fs !! j = Some g →
                  state_of h (ocell g) ≠ Some (Failure e')) →
       state_of h2 (ocell p) = Some (Failure e)) ∧
    (∀ pre o e post,
       rs = pre ++ Setexception o e :: post →
       (∀ g e', g ∈ fs → state_of h (ocell g) ≠ Some (Failure e')) →
       state_of h (ocell o) = Some Pending →
       Forall (λ r, (∃ o' v, r = Setvalue o' v) ∧
                    ocell (target r) ≠ ocell o) pre →
       state_of h2 (ocell p) = Some (Failure e)).
Proof.
  intros Hne Hin Hrs.
  destruct (col_start fs h Hne Hin) as (Hdata0 & Hreg0 & Hs0).
  set (xs := length (lists h)) in *. set (count := length (boxes h)) in *.
  set (p := Obj (next_oid h) (length (cells h)) PromiseC) in *.
  set (h0 := after_init _) in *.
  destruct (collect_loop_spec n xs count p fs eq_refl fs 0 [] Pending h0
              eq_refl Hdata0 Hreg0)
    as (h1 & D1 & w1 & E1 & Hdata1 & Hreg1 & Hst1 & _ & Hw1 & Hfirst1).
  destruct (col_resolve_all n xs count p fs rs eq_refl Hrs D1 w1 h1 Hdata1 Hreg1)
    as (h2 & D2 & w2 & E2 & Hdata2 & Hreg2 & Hw2 & Hw2' & Hst2).
  assert (∀ g, g ∈ fs → state_of h1 (ocell g) = state_of h (ocell g)) as Hst01.
  { intros g Hg. rewrite (Hst1 g Hg). apply list_elem_of_lookup_1 in Hg as [i Hg].
    destruct (Hreg0 i g Hg) as (_ & pc & Hc & _).
    rewrite Forall_forall in Hin.
    destruct (Hin g (list_elem_of_lookup_2 _ _ _ Hg)) as (pc' & Hc' & _).
    unfold state_of at 2. rewrite Hc'. simpl. apply Hs0.
    unfold state_of. by rewrite Hc'. }
  assert (state_of h2 (ocell p) = Some w2) as Hp2.
  { destruct Hdata2 as (Hw & _). unfold state_of. by rewrite Hw. }
  exists p, h1, h2. split; [|split; [|split; [done|split; [|split]]]].
  - rewrite collect_nonempty by done. cbv zeta. fold xs count p h0.
    unfold bind. by rewrite E1.
  - unfold state_of. by rewrite lookup_ge_None_2.
  - (* every input has succeeded *)
    intros vs Hall. exists xs. rewrite Hp2.
    destruct Hdata2 as (_ & _ & Hnd & Hb & (l & Hl & Hlen & HD) & R1 & R2 & R3).
    assert (∀ i, i < length fs → i ∈ D2) as Hfull.
    { intros i Hi. destruct (lookup_lt_is_Some_2 fs i Hi) as [f Hf].
      destruct (Forall2_lookup_l _ _ _ _ _ Hall Hf) as (v & Hv & Hs).
      destruct (Hreg2 i f Hf) as (_ & pc & Hc & _ & _ & Hcomp).
      unfold state_of in Hs. rewrite Hc in Hs. simpl in Hs.
      injection Hs as Hs. by eapply Hcomp. }
    assert (length D2 = length fs) as HlenD.
    { pose proof (nodup_bounded_length D2 (length fs) Hnd Hb).
      pose proof (nodup_covering_length D2 (length fs) Hfull). lia. }
    split.
    + specialize (R2 HlenD). destruct w2 as [|x|e]; [done|..].
      * by destruct (R1 x eq_refl) as [-> _].
      * destruct (R3 e eq_refl) as (i & f & Hi & Hf & Hs).
        destruct (Forall2_lookup_l _ _ _ _ _ Hall Hf) as (v & Hv & Hs').
        congruence.
    + rewrite Hl. f_equal. apply list_eq. intros i.
      destruct (decide (i < length fs)) as [Hi|Hi].
      * destruct (HD i (Hfull i Hi)) as (f & v & Hf & Hs & Hli).
        destruct (Forall2_lookup_l _ _ _ _ _ Hall Hf) as (v' & Hv' & Hs').
        rewrite Hli, Hv'. congruence.
      * rewrite !lookup_ge_None_2; [done| |lia].
        rewrite <- (Forall2_length _ _ _ Hall). lia.
  - (* an input had failed before the call *)
    intros i f e Hf Hs Hmin. rewrite Hp2. f_equal.
    assert (w1 = Failure e) as Hw1e.
    { apply (Hfirst1 i f e); [lia|done| | |done].
      - apply Hs0. done.
      - intros j g e' _ Hji Hg Hsg. apply (Hmin j g e' Hji Hg).
        rewrite <- Hst01 by by eapply list_elem_of_lookup_2.
        rewrite Hst1 by by eapply list_elem_of_lookup_2. done. }
    rewrite (Hw2 ltac:(by rewrite Hw1e)). done.
  - (* no input had failed before the call *)
    intros pre o e post -> Hnone Ho Hpre. rewrite Hp2. f_equal.
    apply Forall_app in Hrs as [Hrs_pre Hrs_post].
    apply Forall_cons in Hrs_post as [Hr Hrs_post].
    destruct (col_resolve_all n xs count p fs pre eq_refl Hrs_pre D1 w1 h1 Hdata1 Hreg1)
      as (ha & Da & wa & Ea & Hdataa & Hrega & Hwa & Hwa' & Hsta).
    destruct (col_resolve_step n xs count p fs Da wa ha (Setexception o e)
                eq_refl Hdataa Hrega Hr)
      as (hb & Db & wb & Eb & Hdatab & Hregb & Hwb & _ & Hwb' & _).
    destruct (col_resolve_all n xs count p fs post eq_refl Hrs_post Db wb hb Hdatab Hregb)
      as (hc & Dc & wc & Ec & Hdatac & Hregc & Hwc & _ & _).
    assert (h2 = hc ∧ w2 = wc) as [-> ->].
    { rewrite (resolve_all_app _ _ _ _ _ Ea) in E2. cbn [resolve_all] in E2.
      assert (resolve_all (run (2 + n)) post hb = Ret tt h2) as E2'
        by by destruct Eb as [Eb | Eb]; rewrite Eb in E2.
      rewrite Ec in E2'. injection E2' as <-. split; [done|].
      destruct Hdata2 as (Hw2c & _). destruct Hdatac as (Hwcc & _).
      rewrite Hw2c in Hwcc. by injection Hwcc. }
    destruct Hr as (_ & f & Hf & Hcell). simpl in Hcell.
    assert (state_of ha (ocell o) = Some Pending) as Hoa.
    { rewrite <- Hcell. destruct (Hsta f Hf) as [->|(r & Hr & Hc & _)].
      - rewrite Hst01, Hcell; done.
      - rewrite Forall_forall in Hpre. destruct (Hpre r Hr) as [_ Hno].
        congruence. }
    assert (defined wa = false) as Dwa.
    { destruct wa as [|x|e']; [done|..].
      - exfalso. destruct Hdataa as (_ & _ & Hnd & Hb & (l & _ & _ & HD) & R1 & _).
        destruct (R1 x eq_refl) as [_ HlenD].
        apply list_elem_of_lookup_1 in Hf as [i Hf].
        pose proof (nodup_full Da (length fs) i Hnd Hb HlenD
                      (lookup_lt_Some _ _ _ Hf)) as HiD.
        destruct (HD i HiD) as (f' & v & Hf' & Hs & _). simplify_eq.
        rewrite Hcell in Hs. congruence.
      - exfalso. destruct (Hwa' e' eq_refl) as [Hw1e|(r & Hr & Hor)].
        + destruct (Hw1 e' Hw1e) as [?|(i & g & _ & Hg & Hs)]; [done|].
          apply (Hnone g e'); [by eapply list_elem_of_lookup_2|].
          rewrite <- Hst01 by by eapply list_elem_of_lookup_2.
          rewrite Hst1 by by eapply list_elem_of_lookup_2.
          assert (state_of h0 (ocell g) = Some (Failure e')) by done. done.
        + rewrite Forall_forall in Hpre.
          destruct (Hpre r Hr) as [(o' & v & ->) _]. done. }
    rewrite (Hwc ltac:(by rewrite (Hwb' e eq_refl Hoa Dwa))).
    by apply Hwb'.
Qed.

(** C2, as amended: let every input of [fs] have its lock free and, while
    it is pending, no callback yet, and let [rs] be any [setvalue] and
    [setexception] calls made afterwards on promises of the inputs, in any
    order.  Once every input has succeeded, the promise of
    [Promise.collect(fs)] holds the list of their values in the order of
    [fs] (the empty list for an empty [fs]).  If some inputs had failed when
    [collect] was called, it fails with the exception of the first of them in
    the order of [fs], whichever of them failed first in time; if none had,
    it fails with the exception of the first [setexception] of [rs], when
    that call is on an input that is still pending then. *)
Theorem collect_outcome (n : nat) (fs : list obj) (h : heap)
    (rs : list resolution) :
  Forall (input_ok h) fs → Forall (resolves_input fs) rs →
  ∃ p h1 h2,
    collect (run (2 + n)) fs h = Ret p h1 ∧
    state_of h (ocell p) = None ∧
    resolve_all (run (2 + n)) rs h1 = Ret tt h2 ∧
    (∀ vs, Forall2 (λ f v, state_of h2 (ocell f) = Some (Success v)) fs vs →
           ∃ v, state_of h2 (ocell p) = Some (Success v) ∧
                holds_list h2 v vs) ∧
    (∀ i f e,
       fs !! i = Some f → state_of h (ocell f) = Some (Failure e) →
       (∀ j g e', j < i → fs !! j = Some g →
                  state_of h (ocell g) ≠ Some (Failure e')) →
       state_of h2 (ocell p) = Some (Failure e)) ∧
    (∀ pre o e post,
       rs = pre ++ Setexception o e :: post →
       (∀ g e', g ∈ fs → state_of h (ocell g) ≠ Some (Failure e')) →
       state_of h (ocell o) = Some Pending →
       Forall (λ r, (∃ o' v, r = Setvalue o' v) ∧
                    ocell (target r) ≠ ocell o) pre →
       state_of h2 (ocell p) = Some (Failure e)).
Proof.
  intros Hin Hrs. destruct fs as [|f0 fs0].
  - assert (rs = []) as ->.
    { destruct rs as [|r rs']; [done|].
      apply Forall_cons in Hrs as [(_ & g & Hg & _) _].
      by apply elem_of_nil in Hg. }
    eexists _, _, _.
    split; [unfold collect; cbn [length Nat.eqb]; apply value_spec|].
    split; [unfold state_of; simpl; by rewrite lookup_ge_None_2|].
    split; [reflexivity|]. split; [|split].
    + intros vs HF. inversion HF; subst. exists (VList []).
      split; [|done]. unfold state_of, after_resolved. simpl.
      by rewrite lookup_new.
    + intros i f e Hf. by rewrite lookup_nil in Hf.
    + intros pre o e post E. by destruct pre.
  - destruct (collect_nonempty_outcome n (f0 :: fs0) h rs)
      as (p & h1 & h2 & E1 & Hn & E2 & Hv & Hf1 & Hf2); [done..|].
    exists p, h1, h2. split; [done|]. split; [done|]. split; [done|].
    split; [|by split].
    intros vs HF. destruct (Hv vs HF) as (xs & Hs & Hl).
    by exists (VListRef xs).
Qed.

Lemma collect_outcome_witness :
  let a := Obj 0 0 PromiseC in
  let b := Obj 1 1 PromiseC in
  let h := Heap [PCell Pending [] false; PCell Pending [] false] [] [] 2 [] [] 0 in
  let rs := [Setvalue b (VInt 2); Setvalue a (VInt 1)] in
  ∃ p h1 h2,
    collect (run 2) [a; b] h = Ret p h1 ∧
    resolve_all (run 2) rs h1 = Ret tt h2 ∧
    ∃ v, state_of h2 (ocell p) = Some (Success v) ∧
         holds_list h2 v [VInt 1; VInt 2].
Proof.
  cbv zeta.
  destruct (collect_outcome 0
              [Obj 0 0 PromiseC; Obj 1 1 PromiseC]
              (Heap [PCell Pending [] false; PCell Pending [] false] [] [] 2 [] [] 0)
              [Setvalue (Obj 1 1 PromiseC) (VInt 2);
               Setvalue (Obj 0 0 PromiseC) (VInt 1)])
    as (p & h1 & h2 & E1 & _ & E2 & Hall & _).
  - apply List.Forall_cons; [|apply List.Forall_cons; [|apply List.Forall_nil]];
      eexists; (split; [reflexivity|done]).
  - apply List.Forall_cons; [|apply List.Forall_cons; [|apply List.Forall_nil]];
      (split; [reflexivity|]); eexists; (split; [|reflexivity]);
      apply list_elem_of_In; simpl; auto.
  - exists p, h1, h2. split; [done|]. split; [done|]. apply Hall.
    vm_compute in E1. injection E1 as <- <-.
    vm_compute in E2. injection E2 as <-.
    apply List.Forall2_cons; [reflexivity|].
    apply List.Forall2_cons; [reflexivity|]. apply List.Forall2_nil.
Defined.

(** C2 as stated fails: [b] fails first in time, [a] second, and
    [collect([a, b])] fails with the exception of [a]. *)
Lemma collect_of_failed_takes_first_index :
  ∃ p h',
    (b <~ init; a <~ init;
     setexception (run 2) b (ClientError "first") ;;
     setexception (run 2) a (ClientError "second") ;;
     collect (run 2) [a; b]) empty_heap = Ret p h' ∧
    state_of h' (ocell p) = Some (Failure (ClientError "second")).
Proof. eexists _, _. split; vm_compute; reflexivity. Qed.

(** * Further properties of the methods *)

(** Symbolic execution that leaves the heap setters folded. *)
Ltac wunfold :=
  unfold within, wait, call_wait, or_, select, pool_run, elapse, resolve,
    value, exception, init, future, Future_init, new_oid, state_of,
    setvalue, setexception, dot_setvalue, dot_setexception,
    Future.setvalue, Future.setexception, with_lock, set_state,
    add_done_callback, respond, onsuccess, onfailure, proxyto, update,
    updateifempty, transform, flatmap, map, filter, andthen, isdefined, done,
    get, getorelse, issuccess, isfailure, assert_isdefined,
    already_resolved,
    finally, try, bind, ret, raise, done_callback, call_tfun, call_kfun,
    call_vfun, call_efun, update_with, apply_client, unpack2.

Ltac len := repeat (rewrite length_alter || rewrite length_app); simpl; lia.

Ltac wlist :=
  match goal with
  | |- context [ (?l1 ++ ?l2) !! ?i ] =>
      first [ rewrite (lookup_app_l l1 l2 i) by len
            | rewrite (lookup_app_r l1 l2 i) by len ]
  | |- context [ alter ?f ?i (?l1 ++ ?l2) ] =>
      first [ rewrite (alter_app_l f l1 l2 i) by len
            | rewrite (alter_app_r_alt f l1 l2 i) by len ]
  | |- context [ alter ?f ?i (alter ?g ?i ?l) !! ?i ] =>
      rewrite (list_lookup_alter_eq f (alter g i l) i)
  | |- context [ alter ?f ?i ?l !! ?i ] =>
      rewrite (list_lookup_alter_eq f l i)
  | |- context [ alter ?f ?i ?l !! ?j ] =>
      rewrite (list_lookup_alter_ne f l i j) by (done || congruence || lia)
  end.

Ltac wsym1 :=
  first
    [ progress wunfold
    | rewrite run_S
    | progress cbn [apply_responder invoke_callbacks select_loop run_tasks]
    | progress simpl
    | rewrite <- app_assoc
    | rewrite length_app
    | rewrite length_alter
    | wlist
    | rewrite Nat.sub_diag
    | rewrite Nat.add_sub'
    | progress use_hyps ].

Ltac wsym := bounds; repeat wsym1.

(** ** The constructors and the reads *)

(** X1: [Promise.value(v)] returns a [Future] whose [get] returns [v], and
    [Promise.exception(e)] a [Future] whose [get] raises [e], whatever the
    timeout and without changing anything. *)
Theorem value_exception_round_trip
    (fire : responder → obj → M unit) (t : option nat) (h : heap) :
  (∀ v, ∃ f h', value fire v h = Ret f h' ∧ oclass f = FutureC ∧
                get f t h' = Ret v h') ∧
  (∀ e, ∃ f h', exception fire e h = Ret f h' ∧ oclass f = FutureC ∧
                get f t h' = Raise e h').
Proof.
  split; intros x; eexists _, _.
  - rewrite value_spec. split; [done|]. split; [done|].
    unfold get, after_resolved. simpl. by rewrite lookup_new.
  - rewrite exception_spec. split; [done|]. split; [done|].
    unfold get, after_resolved. simpl. by rewrite lookup_new.
Qed.

(** X2: [getorelse(default)] never raises and never waits: it returns the
    value of a promise that succeeded, and [default] for one that failed or
    is still pending; the heap stays as it is. *)
Theorem getorelse_outcome (self : obj) (default : val) (h : heap) (pc : pcell) :
  cells h !! ocell self = Some pc →
  getorelse self default h =
    Ret (match st pc with Success v => v | _ => default end) h.
Proof.
  intros H. unfold getorelse, try, get, ret. rewrite H.
  by destruct (st pc).
Qed.

Lemma getorelse_outcome_witness :
  getorelse (Obj 0 0 PromiseC) (VInt 7) (after_init empty_heap) =
    Ret (VInt 7) (after_init empty_heap).
Proof.
  exact (getorelse_outcome (Obj 0 0 PromiseC) (VInt 7) (after_init empty_heap)
           (PCell Pending [] false) eq_refl).
Defined.

(** ** Callbacks *)

(** X3: [onsuccess(fn)] on a promise that has failed, and [onfailure(fn)] on
    one that has succeeded, return the promise and do nothing else: [fn] is
    not called and nothing is registered. *)
Theorem callbacks_skip_the_other_outcome (n : nat) (p : obj) (h : heap) :
  (∀ fn e, state_of h (ocell p) = Some (Failure e) →
     onsuccess (run (S n)) p fn h = Ret p h) ∧
  (∀ fn v, state_of h (ocell p) = Some (Success v) →
     onfailure (run (S n)) p fn h = Ret p h).
Proof.
  split; intros fn x Hs; unfold state_of in Hs;
    destruct (cells h !! ocell p) as [pc|] eqn:E; try done;
    simpl in Hs; injection Hs as Hs; sym; reflexivity.
Qed.

Lemma callbacks_skip_the_other_outcome_witness :
  let p := Obj 0 0 PromiseC in
  let q := Obj 1 1 PromiseC in
  let h := Heap [PCell (Failure (ClientError "boom")) [] false;
                 PCell Pending [] false] [] [] 2 [] [] 0 in
  onsuccess (run 1) p (BoundSetvalue q) h = Ret p h.
Proof.
  apply (proj1 (callbacks_skip_the_other_outcome 0 (Obj 0 0 PromiseC)
                  (Heap [PCell (Failure (ClientError "boom")) [] false;
                         PCell Pending [] false] [] [] 2 [] [] 0))
           (BoundSetvalue (Obj 1 1 PromiseC)) (ClientError "boom")).
  reflexivity.
Defined.

(** ** Resolving *)

(** X4: while the lock of a resolved promise is free (no dispatch of its own
    callbacks is under way), [setvalue] and [setexception] on it raise
    [AlreadyResolvedError] and leave the heap as it is. *)
Theorem second_resolution_is_rejected
    (fire : responder → obj → M unit) (r : resolution) (h : heap) (pc : pcell) :
  oclass (target r) = PromiseC →
  cells h !! ocell (target r) = Some pc → lck pc = false →
  defined (st pc) = true →
  resolve fire r h = Raise already_resolved h.
Proof.
  intros Hc H L D. destruct r as [o v|o e]; simpl in *;
    unfold dot_setvalue, dot_setexception; rewrite Hc.
  - by eapply setvalue_resolved.
  - by eapply setexception_resolved.
Qed.

Lemma second_resolution_is_rejected_witness :
  let h := after_resolved (Success (VInt 1)) empty_heap in
  resolve (run 1) (Setexception (Obj 0 0 PromiseC) (ClientError "late")) h =
    Raise already_resolved h.
Proof.
  exact (second_resolution_is_rejected (run 1)
           (Setexception (Obj 0 0 PromiseC) (ClientError "late"))
           (after_resolved (Success (VInt 1)) empty_heap)
           (PCell (Success (VInt 1)) [] false) eq_refl eq_refl eq_refl eq_refl).
Defined.

(** X5: a resolved promise keeps its outcome: no callback that runs, no
    [setvalue] or [setexception] on any promise and no worker of the executor
    changes the state of a cell that is resolved. *)
Theorem resolved_state_is_final (n : nat) (h : heap) (c : nat) (s : rstate) :
  state_of h c = Some s → defined s = true →
  (∀ fn fut h', heap_of (run n fn fut h) = Some h' → state_of h' c = Some s) ∧
  (∀ r h', heap_of (resolve (run n) r h) = Some h' → state_of h' c = Some s) ∧
  (∀ h', heap_of (pool_run (run n) h) = Some h' → state_of h' c = Some s).
Proof.
  intros Hs Hd. repeat split.
  - intros fn fut h' Hh.
    by eapply (resolved_for_good _ _ _ _ _ (mono_run n fn fut)).
  - intros [o v|o e] h' Hh; simpl in Hh.
    + eapply (resolved_for_good _ _ _ _ _
                (mono_dot_setvalue _ (mono_run n) o v)); eauto.
    + eapply (resolved_for_good _ _ _ _ _
                (mono_dot_setexception _ (mono_run n) o e)); eauto.
  - intros h' Hh.
    eapply (resolved_for_good _ _ _ _ _ (mono_pool_run _ (mono_run n))); eauto.
Qed.

Lemma resolved_state_is_final_witness :
  let h := after_resolved (Success (VInt 1)) empty_heap in
  (∀ fn fut h', heap_of (run 2 fn fut h) = Some h' →
                state_of h' 0 = Some (Success (VInt 1))) ∧
  (∀ r h', heap_of (resolve (run 2) r h) = Some h' →
           state_of h' 0 = Some (Success (VInt 1))) ∧
  (∀ h', heap_of (pool_run (run 2) h) = Some h' →
         state_of h' 0 = Some (Success (VInt 1))).
Proof.
  apply (resolved_state_is_final 2 (after_resolved (Success (VInt 1)) empty_heap)
           0 (Success (VInt 1))); reflexivity.
Defined.

(** ** [update] and [updateifempty] *)

(** X6: [p.update(q)] on a promise [p] that is already resolved is fatal
    once [q] is resolved: [p.setvalue] / [p.setexception] raises
    [AlreadyResolvedError] inside the callback, and [respond]'s
    [done_callback] answers with [sys.exit(1)].  [p.updateifempty(q)]
    swallows that error and returns [p]; neither changes the heap. *)
Theorem update_of_resolved_is_fatal (n : nat) (p q : obj) (h : heap)
    (pc pcq : pcell) :
  oclass p = PromiseC →
  cells h !! ocell p = Some pc → lck pc = false → defined (st pc) = true →
  cells h !! ocell q = Some pcq → defined (st pcq) = true →
  update (run (S n)) p q h = Exit h ∧
  updateifempty (run (S n)) p q h = Ret p h.
Proof.
  intros Hc Hp Hl Hd Hq Hdq.
  assert (∀ v, setvalue (run n) p v h = Raise already_resolved h) as Ev
    by (intros; by eapply setvalue_resolved).
  assert (∀ e, setexception (run n) p e h = Raise already_resolved h) as Ee
    by (intros; by eapply setexception_resolved).
  destruct (st pcq) as [|v|e] eqn:Hst; [done|..]; split;
    repeat first
      [ rewrite Ev | rewrite Ee | rewrite run_S | rewrite Hq | rewrite Hst
      | rewrite Hc | progress simpl
      | progress unfold update, updateifempty, proxyto, onsuccess, onfailure,
          respond, add_done_callback, done_callback, bind, ret, try,
          assert_isdefined, isdefined, done, get, call_vfun, call_efun,
          dot_setvalue, dot_setexception ];
    reflexivity.
Qed.

Lemma update_of_resolved_is_fatal_witness :
  let p := Obj 0 0 PromiseC in
  let q := Obj 1 1 PromiseC in
  let h := Heap [PCell (Success (VInt 1)) [] false;
                 PCell (Success (VInt 2)) [] false] [] [] 2 [] [] 0 in
  update (run 1) p q h = Exit h ∧ updateifempty (run 1) p q h = Ret p h.
Proof.
  apply (update_of_resolved_is_fatal 0 (Obj 0 0 PromiseC) (Obj 1 1 PromiseC)
           (Heap [PCell (Success (VInt 1)) [] false;
                  PCell (Success (VInt 2)) [] false] [] [] 2 [] [] 0)
           (PCell (Success (VInt 1)) [] false)
           (PCell (Success (VInt 2)) [] false)); reflexivity.
Defined.

(** X7: let [p] and [q] be two promises on different cells, both pending,
    with their locks free and without any callback yet.  [p.update(q)] and
    [p.updateifempty(q)] register on [q] and leave [p] pending; when [q] is
    resolved afterwards, to a value or to an exception, [p] takes that
    outcome. *)
Theorem update_follows_other (n : nat) (p q : obj) (h : heap) :
  oclass p = PromiseC → oclass q = PromiseC → ocell p ≠ ocell q →
  cells h !! ocell p = Some (PCell Pending [] false) →
  cells h !! ocell q = Some (PCell Pending [] false) →
  (∃ h1, update (run n) p q h = Ret p h1 ∧
         state_of h1 (ocell p) = Some Pending ∧
         ∀ r, target r = q →
           ∃ h2, resolve (run (1 + n)) r h1 = Ret q h2 ∧
                 state_of h2 (ocell p) = Some (outcome_of r) ∧
                 state_of h2 (ocell q) = Some (outcome_of r)) ∧
  (∃ h1, updateifempty (run n) p q h = Ret p h1 ∧
         state_of h1 (ocell p) = Some Pending ∧
         ∀ r, target r = q →
           ∃ h2, resolve (run (1 + n)) r h1 = Ret q h2 ∧
                 state_of h2 (ocell p) = Some (outcome_of r) ∧
                 state_of h2 (ocell q) = Some (outcome_of r)).
Proof.
  intros Hcp Hcq Hne Hp Hq.
  split; eexists; (split; [wsym; reflexivity|]);
    (split; [wsym; reflexivity|]);
    intros [o x|o x] Ht; simpl in Ht; subst o; eexists; simpl;
    (split; [wsym; reflexivity|]); split; wsym; reflexivity.
Qed.

Lemma update_follows_other_witness :
  let p := Obj 0 0 PromiseC in
  let q := Obj 1 1 PromiseC in
  let h := Heap [PCell Pending [] false; PCell Pending [] false]
                [] [] 2 [] [] 0 in
  ∃ h1, update (run 0) p q h = Ret p h1 ∧
        state_of h1 (ocell p) = Some Pending ∧
        ∀ r, target r = q →
          ∃ h2, resolve (run 1) r h1 = Ret q h2 ∧
                state_of h2 (ocell p) = Some (outcome_of r) ∧
                state_of h2 (ocell q) = Some (outcome_of r).
Proof.
  apply (proj1 (update_follows_other 0 (Obj 0 0 PromiseC) (Obj 1 1 PromiseC)
                  (Heap [PCell Pending [] false; PCell Pending [] false]
                        [] [] 2 [] [] 0)
                  eq_refl eq_refl (Nat.neq_succ_diag_r 0) eq_refl eq_refl)).
Defined.

(** ** [wait] *)

(** X8: [Promise.wait(duration)] returns a new [Future] that is pending.  It
    stays pending while less than [duration] has passed, and the worker that
    wakes up once [duration] has passed resolves it to [None]. *)
Theorem wait_resolves_after_duration (d : nat) (h : heap) :
  pool h = [] →
  ∃ w h1, wait d h = Ret w h1 ∧ oclass w = FutureC ∧
    state_of h (ocell w) = None ∧
    state_of h1 (ocell w) = Some Pending ∧
    (∀ n t, t < d → ∃ h2, after (run n) t h1 = Ret tt h2 ∧
                          state_of h2 (ocell w) = Some Pending) ∧
    (∀ n t, d ≤ t → ∃ h2, after (run n) t h1 = Ret tt h2 ∧
                          state_of h2 (ocell w) = Some (Success VNone)).
Proof.
  intros Hpool. eexists _, _. split; [wsym; reflexivity|].
  split; [done|]. split.
  { unfold state_of. simpl. by rewrite lookup_ge_None_2. }
  split; [wsym; reflexivity|].
  split; intros n t Ht; eexists; unfold after.
  - split.
    + wsym. rewrite Hpool. cbn [app run_tasks]. wsym.
      replace (now h + d <=? now h + t) with false
        by (symmetry; apply Nat.leb_gt; lia).
      wsym. reflexivity.
    + wsym. reflexivity.
  - split.
    + wsym. rewrite Hpool. cbn [app run_tasks]. wsym.
      replace (now h + d <=? now h + t) with true
        by (symmetry; apply Nat.leb_le; lia).
      wsym. reflexivity.
    + wsym. reflexivity.
Qed.

Lemma wait_resolves_after_duration_witness :
  ∃ w h1, wait 3 empty_heap = Ret w h1 ∧ oclass w = FutureC ∧
    state_of empty_heap (ocell w) = None ∧
    state_of h1 (ocell w) = Some Pending ∧
    (∀ n t, t < 3 → ∃ h2, after (run n) t h1 = Ret tt h2 ∧
                          state_of h2 (ocell w) = Some Pending) ∧
    (∀ n t, 3 ≤ t → ∃ h2, after (run n) t h1 = Ret tt h2 ∧
                          state_of h2 (ocell w) = Some (Success VNone)).
Proof. exact (wait_resolves_after_duration 3 empty_heap eq_refl). Defined.

(** ** Chains of callbacks *)

Lemma invoke_one fire fn fut h h' :
  fire fn fut h = Ret tt h' → invoke_callbacks fire [(fn, fut)] h = Ret tt h'.
Proof. intros E. simpl. unfold done_callback. simpl. by rewrite E. Qed.

Lemma extends_lookup h h' c pc :
  extends h h' → cells h !! c = Some pc → defined (st pc) = true →
  ∃ pc', cells h' !! c = Some pc' ∧ st pc' = st pc.
Proof. intros Hx H D. destruct (Hx c pc H) as (pc' & ? & ?). eauto. Qed.

(** [x.proxyto(q)] for a resolved [x] is the resolution of [q]. *)
Lemma proxyto_resolved n x r h pcx h' :
  cells h !! ocell x = Some pcx → st pcx = outcome_of r →
  resolve (run n) r h = Ret (target r) h' →
  proxyto (run (S n)) x (target r) h = Ret x h'.
Proof.
  intros Hx Hst E. destruct r as [q v|q e]; simpl in *.
  - assert (extends h h') as Hext
      by (apply (mono_dot_setvalue _ (mono_run n) q v); by rewrite E).
    destruct (extends_lookup h h' _ _ Hext Hx) as (pc' & Hx' & Hst');
      [by rewrite Hst|]. rewrite Hst in Hst'.
    repeat first
      [ rewrite run_S | rewrite E | rewrite Hx' | rewrite Hst' | progress use_hyps
      | progress cbn [apply_responder] | progress simpl
      | progress unfold proxyto, onsuccess, onfailure, respond,
          add_done_callback, done_callback, bind, ret, assert_isdefined,
          isdefined, done, get, call_vfun, call_efun ].
    reflexivity.
  - repeat first
      [ rewrite run_S | rewrite E | progress use_hyps
      | progress cbn [apply_responder] | progress simpl
      | progress unfold proxyto, onsuccess, onfailure, respond,
          add_done_callback, done_callback, bind, ret, assert_isdefined,
          isdefined, done, get, call_vfun, call_efun ].
    reflexivity.
Qed.

(** The callback that [flatmap(lambda v: Promise.exception(e))] registers. *)
Lemma within_lam_fires n t e w h pcw v h' :
  cells h !! ocell w = Some pcw → st pcw = Success v →
  proxyto (run n) (Obj (S (next_oid h)) (length (cells h)) FutureC) t
          (after_resolved (Failure e) h) =
    Ret (Obj (S (next_oid h)) (length (cells h)) FutureC) h' →
  run (S n) (TransformRespond t (FlatmapTransform (WithinLam e))) w h = Ret tt h'.
Proof.
  intros Hw Hst E.
  repeat first
    [ rewrite run_S | rewrite exception_spec | rewrite E | progress use_hyps
    | progress cbn [apply_responder] | progress simpl
    | progress unfold bind, ret, assert_isdefined, isdefined, done, get,
        call_tfun, call_kfun, update_with, update ].
  reflexivity.
Qed.

(** The callback that [select] registers. *)
Lemma select_lam_runs n s f fs fut h h' :
  updateifempty (run n) s (Obj (S (next_oid h)) (length (cells h)) FutureC)
                (after_resolved (selected f fs) h) = Ret s h' →
  run (S n) (SelectLam s f fs) fut h = Ret tt h'.
Proof.
  intros E. rewrite run_S. cbn [apply_responder]. unfold bind.
  rewrite value_spec. unfold selected in E. rewrite E. reflexivity.
Qed.

(** [s.updateifempty(y)] for a [y] that succeeded is [s.setvalue]. *)
Lemma updateifempty_of_value n s y v h pcy h' :
  cells h !! ocell y = Some pcy → st pcy = Success v →
  resolve (run n) (Setvalue s v) h = Ret s h' →
  updateifempty (run (S n)) s y h = Ret s h'.
Proof.
  intros Hy Hst E. simpl in E.
  assert (extends h h') as Hext
    by (apply (mono_dot_setvalue _ (mono_run n) s v); by rewrite E).
  destruct (extends_lookup h h' _ _ Hext Hy) as (pc' & Hy' & Hst');
    [by rewrite Hst|]. rewrite Hst in Hst'.
  repeat first
    [ rewrite run_S | rewrite E | rewrite Hy' | rewrite Hst' | progress use_hyps
    | progress cbn [apply_responder] | progress simpl
    | progress unfold updateifempty, onsuccess, onfailure, respond,
        add_done_callback, done_callback, bind, ret, try, assert_isdefined,
        isdefined, done, get, call_vfun, call_efun ].
  reflexivity.
Qed.

(** [s.updateifempty(y)] for a resolved [s] and a resolved [y]: nothing. *)
Lemma updateifempty_ignored n s y h pcs pcy :
  oclass s = PromiseC →
  cells h !! ocell s = Some pcs → lck pcs = false → defined (st pcs) = true →
  cells h !! ocell y = Some pcy → defined (st pcy) = true →
  updateifempty (run (S n)) s y h = Ret s h.
Proof.
  intros Hc Hp Hl Hd Hq Hdq.
  assert (∀ v, setvalue (run n) s v h = Raise already_resolved h) as Ev
    by (intros; by eapply setvalue_resolved).
  assert (∀ e, setexception (run n) s e h = Raise already_resolved h) as Ee
    by (intros; by eapply setexception_resolved).
  destruct (st pcy) as [|v|e] eqn:Hst; [done|..];
    repeat first
      [ rewrite Ev | rewrite Ee | rewrite run_S | rewrite Hq | rewrite Hst
      | rewrite Hc | progress simpl
      | progress unfold updateifempty, onsuccess, onfailure,
          respond, add_done_callback, done_callback, bind, ret, try,
          assert_isdefined, isdefined, done, get, call_vfun, call_efun,
          dot_setvalue, dot_setexception ];
    reflexivity.
Qed.

(** The callback that [or_]'s [flatmap(lambda (fut, futs): fut)] registers. *)
Lemma or_lam_fires n r s f rest h pcs h' :
  cells h !! ocell s = Some pcs → st pcs = Success (VTuple [VObj f; rest]) →
  proxyto (run n) f r h = Ret f h' →
  run (S n) (TransformRespond r (FlatmapTransform OrLam)) s h = Ret tt h'.
Proof.
  intros Hs Hst E.
  repeat first
    [ rewrite run_S | rewrite E | progress use_hyps
    | progress cbn [apply_responder] | progress simpl
    | progress unfold bind, ret, assert_isdefined, isdefined, done, get,
        call_tfun, call_kfun, unpack2, update_with, update ].
  reflexivity.
Qed.

(** ** Symbolic execution over a heap given by its fields *)

Ltac runfold :=
  unfold within, wait, call_wait, or_, select, pool_run, after, elapse, resolve,
    value, exception, init, future, Future_init, new_oid, state_of,
    setvalue, setexception, dot_setvalue, dot_setexception,
    Future.setvalue, Future.setexception, with_lock, set_state,
    add_done_callback, respond, onsuccess, onfailure, proxyto, update,
    updateifempty, transform, flatmap, map, filter, andthen, isdefined, done,
    get, getorelse, issuccess, isfailure, assert_isdefined,
    already_resolved,
    finally, try, bind, ret, raise, done_callback, call_tfun, call_kfun,
    call_vfun, call_efun, update_with, apply_client, unpack2,
    alter_cell, after_init, after_resolved,
    with_cells, with_lists, with_boxes, with_next_oid, with_calls, with_pool,
    with_now.

Ltac rbounds :=
  repeat match goal with
    | H : ?l !! ?c = Some _ |- _ =>
        lazymatch goal with
        | _ : c < length l |- _ => fail
        | _ => assert (c < length l) by exact (lookup_lt_Some _ _ _ H)
        end
    end.

Ltac rhyps :=
  match goal with
  | H : ?l !! ?c = Some _ |- context [ ?l !! ?c ] => rewrite H
  | H : oclass ?o = _ |- context [ oclass ?o ] => rewrite H
  end.

Ltac rsym1 :=
  first
    [ progress simpl
    | rewrite run_S
    | progress cbn [apply_responder invoke_callbacks select_loop run_tasks]
    | progress runfold
    | rewrite <- app_assoc
    | rewrite length_app
    | rewrite length_alter
    | wlist
    | rewrite Nat.sub_diag
    | rewrite Nat.add_sub'
    | rhyps ].

Ltac rsym := rbounds; repeat rsym1.

Lemma proxyto_failed n x q e h pcx h' :
  cells h !! ocell x = Some pcx → st pcx = Failure e →
  dot_setexception (run n) q e h = Ret q h' →
  proxyto (run (S n)) x q h = Ret x h'.
Proof. intros Hx Hst E. by apply (proxyto_resolved n x (Setexception q e) h pcx). Qed.

Lemma proxyto_succeeded n x q v h pcx h' :
  cells h !! ocell x = Some pcx → st pcx = Success v →
  dot_setvalue (run n) q v h = Ret q h' →
  proxyto (run (S n)) x q h = Ret x h'.
Proof. intros Hx Hst E. by apply (proxyto_resolved n x (Setvalue q v) h pcx). Qed.

Lemma dot_setexception_pending fire q e h pc h3 :
  oclass q = PromiseC →
  cells h !! ocell q = Some pc → st pc = Pending → lck pc = false →
  invoke_callbacks fire (cbs pc)
    (alter_cell (ocell q) (set_st (Failure e))
       (alter_cell (ocell q) (set_lck true) h)) = Ret tt h3 →
  dot_setexception fire q e h = Ret q (alter_cell (ocell q) (set_lck false) h3).
Proof. intros. by apply (resolve_pending fire (Setexception q e) h pc). Qed.

Lemma dot_setvalue_pending fire q v h pc h3 :
  oclass q = PromiseC →
  cells h !! ocell q = Some pc → st pc = Pending → lck pc = false →
  invoke_callbacks fire (cbs pc)
    (alter_cell (ocell q) (set_st (Success v))
       (alter_cell (ocell q) (set_lck true) h)) = Ret tt h3 →
  dot_setvalue fire q v h = Ret q (alter_cell (ocell q) (set_lck false) h3).
Proof. intros. by apply (resolve_pending fire (Setvalue q v) h pc). Qed.

(** The worker of the one sleeping task, once its time has come. *)
Lemma after_fires fire t c due h pc h' :
  pool h = [(c, due)] → due ≤ now h + t →
  cells h !! c = Some pc → st pc = Pending →
  invoke_callbacks fire (cbs pc)
    (alter_cell c (set_st (Success VNone)) (with_now (λ n, n + t) h)) =
    Ret tt h' →
  after fire t h = Ret tt h'.
Proof.
  intros Hpool Hdue Hc Hst E.
  unfold after, elapse, pool_run, bind. simpl. rewrite Hpool. simpl.
  replace (due <=? now h + t) with true by (symmetry; by apply Nat.leb_le).
  unfold done. simpl. rewrite Hc, Hst. simpl.
  unfold set_state, bind. simpl. rewrite Hc. rewrite E. reflexivity.
Qed.

(** Before that time the worker sleeps. *)
Lemma after_sleeps fire t c due h :
  pool h = [(c, due)] → now h + t < due →
  after fire t h = Ret tt (with_now (λ n, n + t) h).
Proof.
  intros Hpool Hdue.
  unfold after, elapse, pool_run, bind. simpl. rewrite Hpool. simpl.
  by replace (due <=? now h + t) with false by (symmetry; by apply Nat.leb_gt).
Qed.

Ltac canon :=
  unfold alter_cell, after_init, after_resolved, with_cells, with_lists,
    with_boxes, with_next_oid, with_calls, with_pool, with_now; simpl.

(** A lookup in a heap given by its fields. *)
Ltac lk :=
  rbounds; unfold state_of; canon;
  repeat first
    [ wlist | rhyps | rewrite Nat.sub_diag | rewrite Nat.add_sub'
    | rewrite length_app | rewrite length_alter | progress simpl ];
  reflexivity.

(** [o.setvalue] / [o.setexception] on a pending promise: its callbacks are
    left to run. *)
Ltac resolve_it :=
  simpl;
  first [ eapply dot_setvalue_pending | eapply dot_setexception_pending ];
  [ first [ assumption | reflexivity ] | lk | reflexivity | reflexivity | ];
  canon.

(** The lambda of [select] on the first input to resolve, up to the
    [proxyto] of [or_]'s lambda. *)
Ltac select_fires :=
  eapply invoke_one; eapply select_lam_runs; canon;
  eapply updateifempty_of_value; [ lk | reflexivity | ];
  resolve_it;
  eapply invoke_one; eapply or_lam_fires; [ lk | reflexivity | ].

(** The lambda of [select] on a later input. *)
Ltac select_ignored :=
  eapply invoke_one; eapply select_lam_runs; canon;
  eapply updateifempty_ignored;
  [ reflexivity | lk | reflexivity | reflexivity | lk | reflexivity ].

(** [x.proxyto(q)] for a resolved [x] and a pending [q] without callbacks. *)
Ltac proxy_it :=
  first [ eapply proxyto_failed; [ lk | reflexivity | ]
        | eapply proxyto_succeeded; [ lk | reflexivity | ] ];
  resolve_it; reflexivity.

(** The timer of [within]: its worker wakes up and the lambda of [flatmap]
    fails [t], whose callback is left to run. *)
Ltac timer_fires :=
  eapply after_fires; [ reflexivity | simpl; lia | lk | reflexivity | ];
  canon; eapply invoke_one;
  eapply within_lam_fires; [ lk | reflexivity | ]; canon;
  eapply proxyto_failed; [ lk | reflexivity | ];
  resolve_it.

(** ** [within] *)

(** X9: [p.within(d)] on a pending [p] returns a new pending promise [r].
    While less than [d] has passed, the worker of the timer sleeps and [r]
    stays pending; once [d] has passed (at once for [d = 0]) the worker wakes
    up and [r] fails with [TimeoutError("Promise did not finish in d
    seconds")], while [p] is still pending. *)
Theorem within_times_out (n : nat) (p : obj) (d : nat) (h : heap) (pc : pcell) :
  cells h !! ocell p = Some pc → st pc = Pending → pool h = [] →
  ∃ r h1, within (run n) p d h = Ret r h1 ∧
    state_of h (ocell r) = None ∧
    state_of h1 (ocell r) = Some Pending ∧
    (∀ t, t < d → ∃ h2, after (run (6 + n)) t h1 = Ret tt h2 ∧
                        state_of h2 (ocell r) = Some Pending) ∧
    (∀ t, d ≤ t → ∃ h2, after (run (6 + n)) t h1 = Ret tt h2 ∧
                        state_of h2 (ocell r) = Some (timed_out d) ∧
                        state_of h2 (ocell p) = Some Pending).
Proof.
  intros Hp Hst Hpool. destruct h as [c l b i cl pl nw].
  destruct pc as [s cb lo]. simpl in *. subst s pl.
  eexists _, _. split; [rsym; reflexivity|].
  split. { unfold state_of. simpl. rewrite lookup_ge_None_2; [done|lia]. }
  split; [lk|].
  split; intros t Ht; eexists.
  - split; [eapply after_sleeps; [reflexivity|simpl; lia]|lk].
  - split; [simpl; timer_fires; select_fires; proxy_it|split; lk].
Qed.

Lemma within_times_out_witness :
  let p := Obj 0 0 PromiseC in
  let h := Heap [PCell Pending [] false] [] [] 1 [] [] 0 in
  ∃ r h1, within (run 0) p 0 h = Ret r h1 ∧
    state_of h (ocell r) = None ∧
    state_of h1 (ocell r) = Some Pending ∧
    (∀ t, t < 0 → ∃ h2, after (run (6 + 0)) t h1 = Ret tt h2 ∧
                        state_of h2 (ocell r) = Some Pending) ∧
    (∀ t, 0 ≤ t → ∃ h2, after (run (6 + 0)) t h1 = Ret tt h2 ∧
                        state_of h2 (ocell r) = Some (timed_out 0) ∧
                        state_of h2 (ocell p) = Some Pending).
Proof.
  exact (within_times_out 0 (Obj 0 0 PromiseC) 0
           (Heap [PCell Pending [] false] [] [] 1 [] [] 0)
           (PCell Pending [] false) eq_refl eq_refl eq_refl).
Defined.

(** X10: when [p] is resolved, to a value or to an exception, before the
    timer of [p.within(d)], the promise [r] of [within] takes the outcome of
    [p]; the timer, whenever its worker wakes up afterwards, raises nothing
    and leaves [r] as it is. *)
Theorem within_follows_self (n : nat) (p : obj) (d : nat) (h : heap) :
  oclass p = PromiseC →
  cells h !! ocell p = Some (PCell Pending [] false) → pool h = [] →
  ∃ r h1, within (run n) p d h = Ret r h1 ∧
    ∀ x, target x = p →
      ∃ h2, resolve (run (4 + n)) x h1 = Ret p h2 ∧
            state_of h2 (ocell r) = Some (outcome_of x) ∧
            ∀ t, ∃ h3, after (run (6 + n)) t h2 = Ret tt h3 ∧
                       state_of h3 (ocell r) = Some (outcome_of x).
Proof.
  intros Hc Hp Hpool. destruct h as [c l b i cl pl nw].
  simpl in *. subst pl.
  eexists _, _. split; [rsym; reflexivity|].
  intros [o x|o x] Ho; simpl in Ho; subst o; eexists;
    (split; [resolve_it; select_fires; proxy_it|]);
    (split; [lk|]);
    intros t; destruct (nw + d <=? nw + t) eqn:E;
    [ apply Nat.leb_le in E | apply Nat.leb_gt in E
    | apply Nat.leb_le in E | apply Nat.leb_gt in E ];
    eexists;
    (split;
       [ first [ eapply after_sleeps; [reflexivity|simpl; lia]
               | simpl; timer_fires; select_ignored ]
       | lk ]).
Qed.

Lemma within_follows_self_witness :
  let p := Obj 0 0 PromiseC in
  let h := Heap [PCell Pending [] false] [] [] 1 [] [] 0 in
  ∃ r h1, within (run 0) p 2 h = Ret r h1 ∧
    ∀ x, target x = p →
      ∃ h2, resolve (run (4 + 0)) x h1 = Ret p h2 ∧
            state_of h2 (ocell r) = Some (outcome_of x) ∧
            ∀ t, ∃ h3, after (run (6 + 0)) t h2 = Ret tt h3 ∧
                       state_of h3 (ocell r) = Some (outcome_of x).
Proof.
  exact (within_follows_self 0 (Obj 0 0 PromiseC) 2
           (Heap [PCell Pending [] false] [] [] 1 [] [] 0)
           eq_refl eq_refl eq_refl).
Defined.

(** X11: [p.within(d)] on a promise [p] that is already resolved returns a
    promise that holds the outcome of [p] at once; the timer, whenever its
    worker wakes up, raises nothing and leaves it as it is. *)
Theorem within_of_resolved (n : nat) (p : obj) (d : nat) (h : heap) (pc : pcell) :
  cells h !! ocell p = Some pc → defined (st pc) = true → pool h = [] →
  ∃ r h1, within (run (4 + n)) p d h = Ret r h1 ∧
    state_of h (ocell r) = None ∧
    state_of h1 (ocell r) = Some (st pc) ∧
    ∀ t, ∃ h2, after (run (6 + n)) t h1 = Ret tt h2 ∧
               state_of h2 (ocell r) = Some (st pc).
Proof.
  intros Hp Hd Hpool. destruct h as [c l b i cl pl nw].
  destruct pc as [s cb lo]. simpl in *. subst pl.
  destruct s as [|v|e]; [done|..]; eexists _, _;
    (split; [rsym; reflexivity|]);
    (split; [unfold state_of; simpl; rewrite lookup_ge_None_2; [done|lia]|]);
    (split; [lk|]);
    intros t; destruct (nw + d <=? nw + t) eqn:E;
    [ apply Nat.leb_le in E | apply Nat.leb_gt in E
    | apply Nat.leb_le in E | apply Nat.leb_gt in E ];
    eexists;
    (split;
       [ first [ eapply after_sleeps; [reflexivity|simpl; lia]
               | simpl; timer_fires; select_ignored ]
       | lk ]).
Qed.

Lemma within_of_resolved_witness :
  let p := Obj 0 0 PromiseC in
  let h := Heap [PCell (Success (VInt 1)) [] false] [] [] 1 [] [] 0 in
  ∃ r h1, within (run (4 + 0)) p 2 h = Ret r h1 ∧
    state_of h (ocell r) = None ∧
    state_of h1 (ocell r) = Some (Success (VInt 1)) ∧
    ∀ t, ∃ h2, after (run (6 + 0)) t h1 = Ret tt h2 ∧
               state_of h2 (ocell r) = Some (Success (VInt 1)).
Proof.
  exact (within_of_resolved 0 (Obj 0 0 PromiseC) 2
           (Heap [PCell (Success (VInt 1)) [] false] [] [] 1 [] [] 0)
           (PCell (Success (VInt 1)) [] false) eq_refl eq_refl eq_refl).
Defined.

(** ** [or_] *)

(** X12: let [p] and [q] be two promises on different cells, both pending,
    with their locks free and without any callback yet.  [p.or_(q)] returns
    a new pending promise [r]; the first of [p] and [q] to be resolved, to a
    value or to an exception, gives [r] its outcome, and the resolution of
    the other one afterwards returns normally and leaves [r] as it is. *)
Theorem or_first_wins (n : nat) (p q : obj) (h : heap) :
  oclass p = PromiseC → oclass q = PromiseC → ocell p ≠ ocell q →
  cells h !! ocell p = Some (PCell Pending [] false) →
  cells h !! ocell q = Some (PCell Pending [] false) →
  ∃ r h1, or_ (run n) p [q] h = Ret r h1 ∧
    state_of h (ocell r) = None ∧
    state_of h1 (ocell r) = Some Pending ∧
    ∀ x y, ((target x = p ∧ target y = q) ∨ (target x = q ∧ target y = p)) →
      ∃ h2 h3,
        resolve (run (4 + n)) x h1 = Ret (target x) h2 ∧
        state_of h2 (ocell r) = Some (outcome_of x) ∧
        resolve (run (2 + n)) y h2 = Ret (target y) h3 ∧
        state_of h3 (ocell r) = Some (outcome_of x).
Proof.
  intros Hcp Hcq Hne Hp Hq. destruct h as [c l b i cl pl nw]. simpl in *.
  eexists _, _. split; [rsym; reflexivity|].
  split. { unfold state_of. simpl. rewrite lookup_ge_None_2; [done|lia]. }
  split; [lk|].
  intros [o x|o x] [o' y|o' y] [[Ho Ho']|[Ho Ho']]; simpl in Ho, Ho';
    subst o o'; eexists _, _;
    (split; [resolve_it; select_fires; proxy_it|]);
    (split; [lk|]);
    (split; [resolve_it; select_ignored|lk]).
Qed.

Lemma or_first_wins_witness :
  let p := Obj 0 0 PromiseC in
  let q := Obj 1 1 PromiseC in
  let h := Heap [PCell Pending [] false; PCell Pending [] false]
                [] [] 2 [] [] 0 in
  ∃ r h1, or_ (run 0) p [q] h = Ret r h1 ∧
    state_of h (ocell r) = None ∧
    state_of h1 (ocell r) = Some Pending ∧
    ∀ x y, ((target x = p ∧ target y = q) ∨ (target x = q ∧ target y = p)) →
      ∃ h2 h3,
        resolve (run (4 + 0)) x h1 = Ret (target x) h2 ∧
        state_of h2 (ocell r) = Some (outcome_of x) ∧
        resolve (run (2 + 0)) y h2 = Ret (target y) h3 ∧
        state_of h3 (ocell r) = Some (outcome_of x).
Proof.
  exact (or_first_wins 0 (Obj 0 0 PromiseC) (Obj 1 1 PromiseC)
           (Heap [PCell Pending [] false; PCell Pending [] false]
                 [] [] 2 [] [] 0)
           eq_refl eq_refl (Nat.neq_succ_diag_r 0) eq_refl eq_refl).
Defined.

(** X13: [p.or_()] with no other promise does not raise: it returns a new
    pending promise that takes the outcome of [p] when [p] is resolved. *)
Theorem or_alone_follows_self (n : nat) (p : obj) (h : heap) :
  oclass p = PromiseC →
  cells h !! ocell p = Some (PCell Pending [] false) →
  ∃ r h1, or_ (run n) p [] h = Ret r h1 ∧
    state_of h (ocell r) = None ∧
    state_of h1 (ocell r) = Some Pending ∧
    ∀ x, target x = p →
      ∃ h2, resolve (run (4 + n)) x h1 = Ret p h2 ∧
            state_of h2 (ocell r) = Some (outcome_of x).
Proof.
  intros Hc Hp. destruct h as [c l b i cl pl nw]. simpl in *.
  eexists _, _. split; [rsym; reflexivity|].
  split. { unfold state_of. simpl. rewrite lookup_ge_None_2; [done|lia]. }
  split; [lk|].
  intros [o x|o x] Ho; simpl in Ho; subst o; eexists;
    (split; [resolve_it; select_fires; proxy_it|lk]).
Qed.

Lemma or_alone_follows_self_witness :
  let p := Obj 0 0 PromiseC in
  let h := Heap [PCell Pending [] false] [] [] 1 [] [] 0 in
  ∃ r h1, or_ (run 0) p [] h = Ret r h1 ∧
    state_of h (ocell r) = None ∧
    state_of h1 (ocell r) = Some Pending ∧
    ∀ x, target x = p →
      ∃ h2, resolve (run (4 + 0)) x h1 = Ret p h2 ∧
            state_of h2 (ocell r) = Some (outcome_of x).
Proof.
  exact (or_alone_follows_self 0 (Obj 0 0 PromiseC)
           (Heap [PCell Pending [] false] [] [] 1 [] [] 0) eq_refl eq_refl).
Defined.

(** ** [unit] and [join] *)

(** X14: [p.unit()] returns a new promise that holds [None] when [p]
    succeeds, whatever its value, and the exception of [p] when [p] fails,
    whether [p] is resolved before the call or after it. *)
Theorem unit_outcome (n : nat) (p : obj) (h : heap) :
  (∀ s, state_of h (ocell p) = Some s → defined s = true →
     ∃ q h', unit_ (run (2 + n)) p h = Ret q h' ∧
             state_of h (ocell q) = None ∧
             state_of h' (ocell q) = Some (discarded s)) ∧
  (oclass p = PromiseC → cells h !! ocell p = Some (PCell Pending [] false) →
     ∃ q h1, unit_ (run n) p h = Ret q h1 ∧
       state_of h (ocell q) = None ∧
       state_of h1 (ocell q) = Some Pending ∧
       ∀ x, target x = p →
         ∃ h2, resolve (run (2 + n)) x h1 = Ret p h2 ∧
               state_of h2 (ocell q) = Some (discarded (outcome_of x))).
Proof.
  destruct h as [c l b i cl pl nw]. split.
  - intros s Hs Hd. unfold state_of in Hs. simpl in Hs.
    destruct (c !! ocell p) as [pc|] eqn:E; [|done].
    destruct pc as [s' cb lo]. simpl in Hs. injection Hs as ->.
    destruct s as [|v|e]; [done|..]; eexists _, _;
      (split; [unfold unit_; rsym; reflexivity|]);
      (split; [unfold state_of; simpl; rewrite lookup_ge_None_2; [done|lia]|]);
      lk.
  - intros Hc Hp. simpl in Hp. eexists _, _.
    split; [unfold unit_; rsym; reflexivity|].
    split; [unfold state_of; simpl; rewrite lookup_ge_None_2; [done|lia]|].
    split; [lk|].
    intros [o x|o x] Ho; simpl in Ho; subst o; eexists;
      (split; [rsym; reflexivity|lk]).
Qed.

Lemma unit_outcome_witness :
  let p := Obj 0 0 PromiseC in
  let h := Heap [PCell (Success (VInt 5)) [] false] [] [] 1 [] [] 0 in
  ∃ q h', unit_ (run (2 + 0)) p h = Ret q h' ∧
          state_of h (ocell q) = None ∧
          state_of h' (ocell q) = Some (discarded (Success (VInt 5))).
Proof.
  exact (proj1 (unit_outcome 0 (Obj 0 0 PromiseC)
                  (Heap [PCell (Success (VInt 5)) [] false] [] [] 1 [] [] 0))
           (Success (VInt 5)) eq_refl eq_refl).
Defined.

(** X15: [Promise.join([])] returns a new promise that already holds
    [None]: it waits for nothing. *)
Theorem join_of_nothing (n : nat) (h : heap) :
  ∃ q h', join (run (2 + n)) [] h = Ret q h' ∧
          state_of h (ocell q) = None ∧
          state_of h' (ocell q) = Some (Success VNone).
Proof.
  destruct h as [c l b i cl pl nw]. eexists _, _.
  split; [unfold join, collect; simpl; rsym; reflexivity|].
  split; [unfold state_of; simpl; rewrite lookup_ge_None_2; [done|lia]|].
  lk.
Qed.

(** ** Locks *)

Lemma releases_refl h : releases h h.
Proof. exists 0. simpl. by rewrite app_nil_r. Qed.

Lemma releases_trans h1 h2 h3 : releases h1 h2 → releases h2 h3 → releases h1 h3.
Proof.
  intros [k1 E1] [k2 E2]. exists (k1 + k2).
  rewrite E2, E1, <- app_assoc. f_equal. by rewrite replicate_add.
Qed.

Lemma releases_same_cells h h' : cells h' = cells h → releases h h'.
Proof. intros E. exists 0. unfold locks. simpl. by rewrite E, app_nil_r. Qed.

Lemma releases_alloc h s cb :
  releases h (with_cells (λ l, l ++ [PCell s cb false]) h).
Proof. exists 1. unfold locks. simpl. by rewrite fmap_app. Qed.

Lemma locks_alter h c f :
  (∀ pc, lck (f pc) = lck pc) → locks (alter_cell c f h) = locks h.
Proof.
  intros Hf. unfold locks. simpl. apply list_eq. intros i.
  rewrite !list_lookup_fmap. destruct (decide (c = i)) as [->|Hne].
  - rewrite list_lookup_alter_eq. destruct (cells h !! i); simpl; [|done].
    by rewrite Hf.
  - by rewrite list_lookup_alter_ne.
Qed.

Lemma releases_alter h c f :
  (∀ pc, lck (f pc) = lck pc) → releases h (alter_cell c f h).
Proof. intros Hf. exists 0. simpl. by rewrite locks_alter, app_nil_r. Qed.

Lemma locks_set_lck h c b :
  locks (alter_cell c (set_lck b) h) = alter (λ _, b) c (locks h).
Proof.
  unfold locks. simpl. apply list_eq. intros i.
  destruct (decide (c = i)) as [->|Hne].
  - rewrite list_lookup_fmap, !list_lookup_alter_eq, list_lookup_fmap.
    by destruct (cells h !! i).
  - by rewrite list_lookup_fmap, !list_lookup_alter_ne, list_lookup_fmap.
Qed.

(** Taking a free lock and giving it back. *)
Lemma relock (l : list bool) c k :
  l !! c = Some false →
  alter (λ _, false) c (alter (λ _, true) c l ++ replicate k false) =
    l ++ replicate k false.
Proof.
  intros H. rewrite alter_app_l
    by (rewrite length_alter; by eapply lookup_lt_Some).
  f_equal. apply list_eq. intros i. destruct (decide (c = i)) as [->|Hne].
  - by rewrite !list_lookup_alter_eq, H.
  - by rewrite !list_lookup_alter_ne.
Qed.

Lemma lock_neutral_ret {A} (a : A) : lock_neutral (ret a).
Proof. intros h h' [= <-]. apply releases_refl. Qed.

Lemma lock_neutral_raise {A} e : lock_neutral (@raise A e).
Proof. intros h h' [= <-]. apply releases_refl. Qed.

Lemma lock_neutral_bind {A B} (m : M A) (k : A → M B) :
  lock_neutral m → (∀ a, lock_neutral (k a)) → lock_neutral (bind m k).
Proof.
  intros Hm Hk h h'. unfold bind. specialize (Hm h).
  destruct (m h) as [a h1|e h1|h1|s]; simpl in *; intros E.
  - eapply releases_trans; [by apply Hm|]. by eapply Hk.
  - by apply Hm.
  - by apply Hm.
  - done.
Qed.

Lemma lock_neutral_try {A} (m : M A) (k : exc → M A) :
  lock_neutral m → (∀ e, lock_neutral (k e)) → lock_neutral (try m k).
Proof.
  intros Hm Hk h h'. unfold try. specialize (Hm h).
  destruct (m h) as [a h1|e h1|h1|s]; simpl in *; intros E.
  - by apply Hm.
  - eapply releases_trans; [by apply Hm|]. by eapply Hk.
  - by apply Hm.
  - done.
Qed.

Lemma lock_neutral_same_cells {A} (m : M A) :
  (∀ h h', heap_of (m h) = Some h' → cells h' = cells h) → lock_neutral m.
Proof. intros H h h' E. apply releases_same_cells. eauto. Qed.

(** [with self._lock:] gives the lock back however its body ends. *)
Lemma lock_neutral_with_lock {A} self (body : M A) :
  lock_neutral body → lock_neutral (with_lock self body).
Proof.
  intros Hb h h'. unfold with_lock.
  destruct (cells h !! ocell self) as [pc|] eqn:E; [|done].
  destruct (lck pc) eqn:L; [done|]. unfold finally.
  assert (locks h !! ocell self = Some false) as Hl
    by (unfold locks; by rewrite list_lookup_fmap, E, <- L).
  specialize (Hb (alter_cell (ocell self) (set_lck true) h)).
  destruct (body _) as [a h2|e h2|h2|s]; simpl in *; try done;
    intros [= <-]; destruct (Hb h2 eq_refl) as [k Hk]; exists k;
    by rewrite locks_set_lck, Hk, locks_set_lck, relock.
Qed.

Create HintDb locks.

Section Locks.
Variable fire : responder → obj → M unit.
Hypothesis fire_neutral : ∀ fn fut, lock_neutral (fire fn fut).

Lemma lock_neutral_done_callback cb : lock_neutral (done_callback fire cb).
Proof.
  intros h h'. unfold done_callback. pose proof (fire_neutral cb.1 cb.2 h) as H.
  destruct (fire cb.1 cb.2 h); simpl in *; auto.
Qed.

Lemma lock_neutral_invoke_callbacks l : lock_neutral (invoke_callbacks fire l).
Proof.
  induction l as [|cb l IH]; [apply lock_neutral_ret|].
  intros h h'. simpl. pose proof (lock_neutral_done_callback cb h) as H.
  destruct (done_callback fire cb h) as [a h1|e h1|h1|s]; simpl in *; intros E.
  - eapply releases_trans; [by apply H|]. by apply IH.
  - eapply releases_trans; [by apply H|]. by apply IH.
  - by apply H.
  - done.
Qed.

Lemma lock_neutral_set_state c s : lock_neutral (set_state fire c s).
Proof.
  intros h h'. unfold set_state. destruct (cells h !! c) as [pc|]; [|done].
  intros Hh. eapply releases_trans; [|by eapply lock_neutral_invoke_callbacks].
  by apply releases_alter.
Qed.

Lemma lock_neutral_add_done_callback c cb :
  lock_neutral (add_done_callback fire c cb).
Proof.
  intros h h'. unfold add_done_callback.
  destruct (cells h !! c) as [pc|]; [|done].
  destruct (defined (st pc)); [apply lock_neutral_done_callback|].
  intros [= <-]. by apply releases_alter.
Qed.

Lemma lock_neutral_respond self fn : lock_neutral (respond fire self fn).
Proof.
  apply lock_neutral_bind;
    [apply lock_neutral_add_done_callback|intros; apply lock_neutral_ret].
Qed.

Lemma lock_neutral_init : lock_neutral init.
Proof. intros h h' [= <-]. destruct (releases_alloc h Pending []) as [k E]. by exists k. Qed.

Lemma lock_neutral_future self : lock_neutral (future self).
Proof. intros h h' [= <-]. by apply releases_same_cells. Qed.

Lemma lock_neutral_resolve self s :
  lock_neutral
    (with_lock self
       (λ h, if isdefined self h then Raise already_resolved h
             else (set_state fire (ocell self) s ;; ret self) h)).
Proof.
  apply lock_neutral_with_lock. intros h h'.
  destruct (isdefined self h); [intros [= <-]; apply releases_refl|].
  apply lock_neutral_bind;
    [apply lock_neutral_set_state|intros; apply lock_neutral_ret].
Qed.

Lemma lock_neutral_setvalue self v : lock_neutral (setvalue fire self v).
Proof. apply lock_neutral_resolve. Qed.
Lemma lock_neutral_setexception self e : lock_neutral (setexception fire self e).
Proof. apply lock_neutral_resolve. Qed.

Lemma lock_neutral_dot_setvalue o v : lock_neutral (dot_setvalue fire o v).
Proof.
  unfold dot_setvalue.
  destruct (oclass o); [apply lock_neutral_setvalue|apply lock_neutral_raise].
Qed.
Lemma lock_neutral_dot_setexception o e :
  lock_neutral (dot_setexception fire o e).
Proof.
  unfold dot_setexception.
  destruct (oclass o); [apply lock_neutral_setexception|apply lock_neutral_raise].
Qed.

Hint Resolve lock_neutral_add_done_callback lock_neutral_ret lock_neutral_raise
  lock_neutral_respond lock_neutral_init lock_neutral_future
  lock_neutral_setvalue lock_neutral_setexception lock_neutral_dot_setvalue
  lock_neutral_dot_setexception : locks.

Ltac locks_tac :=
  repeat first
    [ solve [eauto with locks]
    | apply lock_neutral_bind; [|intros ?]
    | apply lock_neutral_try; [|intros ?] ].

Lemma lock_neutral_onsuccess self fn : lock_neutral (onsuccess fire self fn).
Proof. apply lock_neutral_respond. Qed.
Lemma lock_neutral_onfailure self fn : lock_neutral (onfailure fire self fn).
Proof. apply lock_neutral_respond. Qed.
Hint Resolve lock_neutral_onsuccess lock_neutral_onfailure : locks.

Lemma lock_neutral_proxyto self other : lock_neutral (proxyto fire self other).
Proof. unfold proxyto. locks_tac. Qed.
Hint Resolve lock_neutral_proxyto : locks.

Lemma lock_neutral_update self other : lock_neutral (update fire self other).
Proof. unfold update. locks_tac. Qed.

Lemma lock_neutral_updateifempty self other :
  lock_neutral (updateifempty fire self other).
Proof. unfold updateifempty. locks_tac. Qed.

Lemma lock_neutral_value v : lock_neutral (value fire v).
Proof. unfold value. locks_tac. Qed.

Lemma lock_neutral_exception e : lock_neutral (exception fire e).
Proof. unfold exception. locks_tac. Qed.
Hint Resolve lock_neutral_update lock_neutral_updateifempty lock_neutral_value
  lock_neutral_exception : locks.

Lemma lock_neutral_list_setitem xs i x : lock_neutral (list_setitem xs i x).
Proof.
  apply lock_neutral_same_cells. intros h h'. unfold list_setitem.
  destruct (lists h !! xs); [|done]. by destruct (i <? length _); intros [= <-].
Qed.
Lemma lock_neutral_box_decr c : lock_neutral (box_decr c).
Proof.
  apply lock_neutral_same_cells. intros h h'. unfold box_decr.
  by destruct (boxes h !! c); intros [= <-].
Qed.
Lemma lock_neutral_box_get c : lock_neutral (box_get c).
Proof.
  apply lock_neutral_same_cells. intros h h'. unfold box_get.
  by destruct (boxes h !! c); intros [= <-].
Qed.
Lemma lock_neutral_apply_client f v : lock_neutral (apply_client f v).
Proof.
  apply lock_neutral_same_cells. intros h h'. unfold apply_client.
  by destruct (fbody f v); intros [= <-].
Qed.
Lemma lock_neutral_get self t : lock_neutral (get self t).
Proof.
  apply lock_neutral_same_cells. intros h h' E. by apply (get_same_heap self t) in E as ->.
Qed.
Lemma lock_neutral_assert fut : lock_neutral (assert_isdefined fut).
Proof.
  apply lock_neutral_same_cells. intros h h'. unfold assert_isdefined.
  by destruct (isdefined fut h); intros [= <-].
Qed.
Lemma lock_neutral_unpack2 v : lock_neutral (unpack2 v).
Proof.
  apply lock_neutral_same_cells. intros h h'. unfold unpack2.
  destruct v as [| | | |l|l|r|]; try by intros [= <-].
  - by destruct l as [|? [|? [|]]]; intros [= <-].
  - by destruct l as [|? [|? [|]]]; intros [= <-].
  - destruct (lists h !! r) as [l|]; [|done].
    by destruct l as [|? [|? [|]]]; intros [= <-].
Qed.
Hint Resolve lock_neutral_list_setitem lock_neutral_box_decr lock_neutral_box_get
  lock_neutral_apply_client lock_neutral_get lock_neutral_assert
  lock_neutral_unpack2 : locks.

Lemma lock_neutral_call_vfun fn v : lock_neutral (call_vfun fire fn v).
Proof.
  destruct fn; simpl; locks_tac.
  - destruct e; locks_tac.
  - destruct (_ =? _)%Z; locks_tac.
Qed.

Lemma lock_neutral_call_efun fn e : lock_neutral (call_efun fire fn e).
Proof.
  destruct fn; simpl; locks_tac.
  destruct e0; locks_tac.
Qed.

Lemma lock_neutral_call_kfun fn v : lock_neutral (call_kfun fire fn v).
Proof.
  destruct fn; simpl; locks_tac.
  intros h h'. destruct (truthy (lists h) a); revert h h';
    fold (lock_neutral (A:=val)); locks_tac.
Qed.
Hint Resolve lock_neutral_call_vfun lock_neutral_call_efun
  lock_neutral_call_kfun : locks.

Lemma lock_neutral_call_tfun fn fut : lock_neutral (call_tfun fire fn fut).
Proof. destruct fn; simpl; locks_tac. Qed.

Lemma lock_neutral_update_with p q : lock_neutral (update_with fire p q).
Proof. destruct q; simpl; locks_tac. Qed.
Hint Resolve lock_neutral_call_tfun lock_neutral_update_with : locks.

Lemma lock_neutral_apply_responder fn fut :
  lock_neutral (apply_responder fire fn fut).
Proof.
  destruct fn; simpl; locks_tac.
  - intros h h'. pose proof (lock_neutral_get fut None h) as H.
    destruct (get fut None h) as [v h1|e h1|h1|s]; simpl in *; auto.
    intros E. eapply releases_trans; [by apply H|].
    by eapply lock_neutral_call_vfun.
  - intros h h'. pose proof (lock_neutral_get fut None h) as H.
    destruct (get fut None h) as [v h1|e h1|h1|s]; simpl in *; auto.
    intros E. eapply releases_trans; [by apply H|].
    by eapply lock_neutral_call_efun.
  - intros h h'. pose proof (lock_neutral_call_tfun fn fut h) as H.
    destruct (call_tfun fire fn fut h) as [v h1|e h1|h1|s]; simpl in *; auto.
    + intros E. eapply releases_trans; [by apply H|].
      by eapply lock_neutral_update_with.
    + intros E. eapply releases_trans; [by apply H|].
      revert E. apply (lock_neutral_bind (dot_setexception fire p e) (λ _, ret tt));
        locks_tac.
Qed.

Lemma lock_neutral_run_tasks l : lock_neutral (run_tasks fire l).
Proof.
  induction l as [|[c due] l IH]; simpl; [apply lock_neutral_ret|].
  intros h h'. destruct (due <=? now h); simpl; [|apply IH].
  destruct (done c h); simpl; [apply IH|].
  revert h h'. fold (lock_neutral (A:=unit)).
  apply lock_neutral_bind; [apply lock_neutral_set_state|intros; apply IH].
Qed.

End Locks.

Lemma lock_neutral_run n fn fut : lock_neutral (run n fn fut).
Proof.
  revert fn fut. induction n as [|n IH]; intros fn fut.
  - intros h h'. by change (run 0 fn fut h) with (@Stop unit OutOfFuel).
  - intros h h'. rewrite run_S. by apply lock_neutral_apply_responder.
Qed.

Lemma unlocked_releases h h' : unlocked h → releases h h' → unlocked h'.
Proof.
  intros U [k E] c pc Hc.
  assert (locks h' !! c = Some (lck pc)) as H
    by (unfold locks; by rewrite list_lookup_fmap, Hc).
  rewrite E in H. apply lookup_app_Some in H as [H|[_ H]].
  - unfold locks in H. rewrite list_lookup_fmap in H.
    destruct (cells h !! c) as [pc0|] eqn:E'; [|done].
    simpl in H. injection H as <-. eauto.
  - by apply lookup_replicate in H as [? _].
Qed.

(** X16: whatever a callback, a [setvalue] or [setexception], or a worker of
    the executor does, when it comes back (with a result, with an exception
    or with [sys.exit]) every lock is as it was before and the promises made
    meanwhile are unlocked; in particular no lock is left held when none was
    held before. *)
Theorem locks_are_given_back (n : nat) (h h' : heap) :
  ((∃ fn fut, heap_of (run n fn fut h) = Some h') ∨
   (∃ r, heap_of (resolve (run n) r h) = Some h') ∨
   heap_of (pool_run (run n) h) = Some h') →
  releases h h' ∧ (unlocked h → unlocked h').
Proof.
  intros H. assert (releases h h') as R.
  { destruct H as [(fn & fut & H)|[([o v|o e] & H)|H]].
    - by eapply lock_neutral_run.
    - by eapply (lock_neutral_dot_setvalue _ (lock_neutral_run n)).
    - by eapply (lock_neutral_dot_setexception _ (lock_neutral_run n)).
    - by eapply (lock_neutral_run_tasks _ (lock_neutral_run n)). }
  split; [done|]. intros U. by eapply unlocked_releases.
Qed.

Lemma locks_are_given_back_witness :
  let p := Obj 0 0 PromiseC in
  let q := Obj 1 1 PromiseC in
  let h := Heap [PCell Pending [(OnsuccessRespond (BoundSetvalue q), p)] false;
                 PCell Pending [] false] [] [] 2 [] [] 0 in
  let h' := Heap [PCell (Success (VInt 1))
                    [(OnsuccessRespond (BoundSetvalue q), p)] false;
                  PCell (Success (VInt 1)) [] false] [] [] 2 [] [] 0 in
  releases h h' ∧ (unlocked h → unlocked h').
Proof.
  apply (locks_are_given_back 2
           (Heap [PCell Pending
                    [(OnsuccessRespond (BoundSetvalue (Obj 1 1 PromiseC)),
                      Obj 0 0 PromiseC)] false;
                  PCell Pending [] false] [] [] 2 [] [] 0)).
  right. left. exists (Setvalue (Obj 0 0 PromiseC) (VInt 1)). reflexivity.
Defined.


(** ** [select], [or_] and [select_] without inputs *)

(** C5, as amended: [Promise.select] of an empty sequence raises the
    [ValueError].  [or_] and [select_] hand [select] the sequence
    [(self,) + others], which is never empty: they never raise that error
    nor any other exception, and with no other promise, on a pending
    [self], they return a new pending promise. *)
Theorem select_empty_raises_or_never
    (fire : responder → obj → M unit) (self : obj) (others : list obj)
    (h : heap) :
  select fire [] h =
    Raise (ValueError (Lit "Promise.select requires at least one future"))
          (after_init h) ∧
  no_raise (or_ fire self others h) ∧
  no_raise (select_ fire self others h) ∧
  (∀ pc, cells h !! ocell self = Some pc → st pc = Pending →
     ∃ r h1, or_ fire self [] h = Ret r h1 ∧
             select_ fire self [] h = Ret r h1 ∧
             state_of h (ocell r) = None ∧
             state_of h1 (ocell r) = Some Pending).
Proof.
  split; [reflexivity|]. split; [apply or_no_raise|].
  split; [apply or_no_raise|].
  intros pc Hc Hst. destruct h as [c l b i cl pl nw].
  destruct pc as [s cb lo]. simpl in *. subst s.
  eexists _, _.
  assert (∀ A B C D : Prop, A → (A → B) → C → D → A ∧ B ∧ C ∧ D) as K by tauto.
  apply K.
  - rsym. reflexivity.
  - intros E. exact E.
  - unfold state_of. simpl. rewrite lookup_ge_None_2; [done|lia].
  - unfold state_of. simpl. rsym. reflexivity.
Qed.
